(** * plugin-optimize: the HTML tokenizer, the import scanner and the injector

    A shallow embedding of [plugins/plugin-optimize/lib/html.js] and of the
    file filter of the plugin's [optimize] hook.

    JavaScript strings are sequences of 16-bit code units; they are modelled
    as lists of code units ([N]), so that [length], [substring] and the
    regular-expression classes count the same units as the source does. *)

From Stdlib Require Import String Ascii NArith ZArith Bool Arith Lia List.
From Stdlib Require Import Permutation.
Import ListNotations.

Set Implicit Arguments.

(* ================================================================== *)
(** ** Strings *)

Definition str := list N.

(** A literal of the source, written as a Rocq string. *)
Definition lit (s : string) : str := map N_of_ascii (list_ascii_of_string s).

(** Code units that cannot be written inside a literal. *)
Definition DQ : N := 34%N.   (* the double quote *)
Definition TAB : N := 9%N.
Definition LF : N := 10%N.
Definition CR : N := 13%N.
Definition SLASH : N := 47%N.

(** [dq s] is [s] between two double quotes. *)
Definition dq (s : str) : str := DQ :: s ++ [DQ].

Fixpoint str_eqb (a b : str) : bool :=
  match a, b with
  | [], [] => true
  | x :: a', y :: b' => N.eqb x y && str_eqb a' b'
  | _, _ => false
  end.

(** A string is truthy when it is not empty. *)
Definition truthy (s : str) : bool :=
  match s with [] => false | _ :: _ => true end.

(** [s.startsWith(p)] and [s.endsWith(p)]. *)
Fixpoint startsWith (s p : str) : bool :=
  match p, s with
  | [], _ => true
  | x :: p', y :: s' => N.eqb x y && startsWith s' p'
  | _ :: _, [] => false
  end.

Definition endsWith (s p : str) : bool := startsWith (rev s) (rev p).

(** [s.substring(0, i)] and [s.substring(i)] for [i] a natural number. *)
Definition substring_to (s : str) (i : nat) : str := firstn i s.
Definition substring_from (s : str) (i : nat) : str := skipn i s.

(* ------------------------------------------------------------------ *)
(** *** Character classes of JavaScript regular expressions *)

Local Open Scope N_scope.

(** [\s]: white space and line terminators. *)
Definition is_space (c : N) : bool :=
  (c =? 9) || (c =? 10) || (c =? 11) || (c =? 12) || (c =? 13) || (c =? 32)
  || (c =? 160) || (c =? 5760) || ((8192 <=? c) && (c <=? 8202))
  || (c =? 8232) || (c =? 8233) || (c =? 8239) || (c =? 8287)
  || (c =? 12288) || (c =? 65279).

(** The line terminators, which [.] does not match. *)
Definition is_line_terminator (c : N) : bool :=
  (c =? 10) || (c =? 13) || (c =? 8232) || (c =? 8233).

(** [.] *)
Definition dot (c : N) : bool := negb (is_line_terminator c).

(** [[a-zA-Z-]] *)
Definition is_name (c : N) : bool :=
  ((97 <=? c) && (c <=? 122)) || ((65 <=? c) && (c <=? 90)) || (c =? 45).

(** [[\t| ]]: a tab, a vertical bar or a space. *)
Definition is_indent (c : N) : bool := (c =? 9) || (c =? 124) || (c =? 32).

(** [[\t|\s]] *)
Definition is_tagWS (c : N) : bool := (c =? 9) || (c =? 124) || is_space c.

(** The negated classes: any code unit but [>], any but the double quote. *)
Definition not_gt (c : N) : bool := negb (c =? 62).
Definition not_dq (c : N) : bool := negb (c =? 34).

Definition is_quote (c : N) : bool := (c =? 34) || (c =? 39).

(** [toLowerCase] on one code unit. The tokenizer applies it only to texts
    matched by [<\s*[a-zA-Z-]+], [<\/\s*[a-zA-Z-]+\s*>] and [[a-zA-Z-]+],
    whose only cased code units are the letters A to Z. *)
Definition lower (c : N) : N :=
  if (65 <=? c) && (c <=? 90) then c + 32 else c.

Local Close Scope N_scope.

Definition toLowerCase (s : str) : str := map lower s.

Fixpoint dropWhile (p : N -> bool) (s : str) : str :=
  match s with
  | c :: s' => if p c then dropWhile p s' else s
  | [] => []
  end.

(** [s.trim()] *)
Definition trim (s : str) : str :=
  rev (dropWhile is_space (rev (dropWhile is_space s))).

(** [s.replace(/\s/g, '')] *)
Definition remove_spaces (s : str) : str :=
  filter (fun c => negb (is_space c)) s.

(** The first [replace] of the attrValue rule: its pattern is an optional
    quote (single or double) anchored at the start, so it matches a leading
    quote if there is one and the empty string otherwise; the match is
    replaced by a double quote. *)
Definition open_with_dq (s : str) : str :=
  match s with
  | c :: s' => if is_quote c then DQ :: s' else DQ :: s
  | [] => [DQ]
  end.

(** The second [replace] of the attrValue rule: its pattern is an optional
    quote anchored at the end, so the leftmost match is the last code unit
    when it is a quote and the empty string at the end otherwise; the match
    is replaced by a double quote. *)
Definition close_with_dq (s : str) : str :=
  match rev s with
  | c :: r => if is_quote c then rev r ++ [DQ] else s ++ [DQ]
  | [] => [DQ]
  end.

(** Removing one leading double quote, and one trailing double quote (the
    two [replace] calls that unwrap an attribute value). *)
Definition strip_leading_dq (s : str) : str :=
  match s with
  | c :: s' => if N.eqb c DQ then s' else s
  | [] => []
  end.

Definition strip_trailing_dq (s : str) : str :=
  match rev s with
  | c :: r => if N.eqb c DQ then rev r else s
  | [] => []
  end.

(* ================================================================== *)
(** ** Exceptions and results *)

Inductive exn : Type :=
| InvalidSyntax                   (* moo: no rule matches at the index *)
| TypeError                       (* a property of undefined is read *)
| ReferenceError (name : string)  (* an undeclared identifier is evaluated *)
| IOError.                        (* a file cannot be read *)

(** The outcome of a computation: a value, a thrown exception, or the fuel of
    a loop used up. *)
Inductive res (A : Type) : Type :=
| Ret (a : A)
| Raise (e : exn)
| Timeout.

Arguments Raise {A} e.
Arguments Timeout {A}.

Definition bind {A B : Type} (m : res A) (k : A -> res B) : res B :=
  match m with
  | Ret a => k a
  | Raise e => Raise e
  | Timeout => Timeout
  end.

Notation "x <- m ;; k" := (bind m (fun x => k))
  (at level 61, m at next level, right associativity).
Notation "' p <- m ;; k" := (bind m (fun x => match x with p => k end))
  (at level 61, p pattern, m at next level, right associativity).

(** Evaluating an identifier that no scope declares. *)
Definition undeclared {A : Type} (name : string) : res A :=
  Raise (ReferenceError name).

(* ================================================================== *)
(** ** The regular expressions of the lexer

    The patterns of the rules use literals, single classes, greedy [*] and
    [+] over a class, [?] and concatenation. [rmatch] is a backtracking
    matcher in continuation-passing style: a greedy quantifier first tries
    the longest repetition and falls back to shorter ones when the rest of
    the pattern fails. *)

Inductive re : Type :=
| Chars (s : str)          (* a literal *)
| One (p : N -> bool)      (* one code unit of a class *)
| Star (p : N -> bool)     (* class*, greedy *)
| Plus (p : N -> bool)     (* class+, greedy *)
| Opt (r : re)             (* r?, greedy *)
| Cat (r1 r2 : re).

Section Matcher.
Variable R : Type.

(** Greedy repetition of a class: [n] code units are matched so far. *)
Fixpoint star_m (p : N -> bool) (s : str) (n : nat)
         (k : str -> nat -> option R) : option R :=
  match s with
  | c :: s' =>
      if p c then
        match star_m p s' (S n) k with
        | Some r => Some r
        | None => k s n
        end
      else k s n
  | [] => k s n
  end.

Fixpoint rmatch (r : re) (s : str) (n : nat)
         (k : str -> nat -> option R) : option R :=
  match r with
  | Chars l =>
      if startsWith s l then k (skipn (length l) s) (n + length l) else None
  | One p =>
      match s with
      | c :: s' => if p c then k s' (S n) else None
      | [] => None
      end
  | Star p => star_m p s n k
  | Plus p =>
      match s with
      | c :: s' => if p c then star_m p s' (S n) k else None
      | [] => None
      end
  | Opt r1 =>
      match rmatch r1 s n k with
      | Some x => Some x
      | None => k s n
      end
  | Cat r1 r2 => rmatch r1 s n (fun s' n' => rmatch r2 s' n' k)
  end.
End Matcher.

(** The length of the match of [r] at the start of [s]. *)
Definition exec (r : re) (s : str) : option nat :=
  rmatch r s 0 (fun _ n => Some n).

(** Whether a pattern matches the empty string (moo refuses such rules). *)
Fixpoint nullable (r : re) : bool :=
  match r with
  | Chars l => match l with [] => true | _ => false end
  | One _ => false
  | Star _ => true
  | Plus _ => false
  | Opt _ => true
  | Cat r1 r2 => nullable r1 && nullable r2
  end.

(* ================================================================== *)
(** ** parseHTML: the moo lexer *)

Inductive state_name : Type := main | comment | tag | attr.

Inductive token_type : Type :=
| commentStart | docType | tagOpen | tagClose | nl | indent | any
| commentEnd | commentAny
| tagSelfClose | tagEnd | attrName | tagWS | tagAny
| attrAssignment | attrEnd | attrValue | attrAny.

Scheme Equality for token_type.

(** What a rule does to the stack of states. *)
Inductive transition : Type :=
| Push (s : state_name)
| Pop
| Stay.

Record rule : Type := {
  r_type : token_type;
  r_match : re;
  r_lineBreaks : bool;
  r_transition : transition;
  r_value : str -> str
}.

Definition same (s : str) : str := s.

(** The rules of a state, in the order of the source: moo joins them into one
    alternation, so the first rule that matches at the index wins. *)
Definition rules (s : state_name) : list rule :=
  match s with
  | main =>
      [ {| r_type := commentStart; r_match := Chars (lit "<!--");
           r_lineBreaks := false; r_transition := Push comment; r_value := same |};
        {| r_type := docType;
           r_match := Cat (Chars (lit "<!")) (Cat (Plus not_gt) (Chars (lit ">")));
           r_lineBreaks := false; r_transition := Stay; r_value := same |};
        {| r_type := tagOpen;
           r_match := Cat (Chars (lit "<")) (Cat (Star is_space) (Plus is_name));
           r_lineBreaks := true; r_transition := Push tag;
           r_value := fun text => remove_spaces (toLowerCase text) |};
        {| r_type := tagClose;
           r_match := Cat (Chars (lit "</"))
                        (Cat (Star is_space)
                           (Cat (Plus is_name)
                              (Cat (Star is_space) (Chars (lit ">")))));
           r_lineBreaks := true; r_transition := Stay;
           r_value := fun text => remove_spaces (toLowerCase text) |};
        {| r_type := nl; r_match := Cat (Opt (Chars [CR])) (Chars [LF]);
           r_lineBreaks := true; r_transition := Stay; r_value := same |};
        {| r_type := indent; r_match := Plus is_indent;
           r_lineBreaks := false; r_transition := Stay; r_value := same |};
        {| r_type := any; r_match := Plus dot;
           r_lineBreaks := true; r_transition := Stay; r_value := same |} ]
  | comment =>
      [ {| r_type := commentEnd; r_match := Cat (Star is_space) (Chars (lit "-->"));
           r_lineBreaks := false; r_transition := Pop; r_value := same |};
        {| r_type := commentAny; r_match := One dot;
           r_lineBreaks := true; r_transition := Stay; r_value := same |} ]
  | tag =>
      [ {| r_type := tagSelfClose; r_match := Chars (lit "/>");
           r_lineBreaks := false; r_transition := Pop; r_value := same |};
        {| r_type := tagEnd; r_match := Chars (lit ">");
           r_lineBreaks := false; r_transition := Pop; r_value := same |};
        {| r_type := attrName; r_match := Plus is_name;
           r_lineBreaks := false; r_transition := Push attr;
           r_value := toLowerCase |};
        {| r_type := tagWS; r_match := Plus is_tagWS;
           r_lineBreaks := true; r_transition := Stay; r_value := same |};
        {| r_type := tagAny; r_match := Plus dot;
           r_lineBreaks := true; r_transition := Stay; r_value := same |} ]
  | attr =>
      [ {| r_type := attrAssignment; r_match := Chars (lit "=");
           r_lineBreaks := true; r_transition := Stay; r_value := trim |};
        {| r_type := attrEnd; r_match := One is_space;
           r_lineBreaks := true; r_transition := Pop; r_value := same |};
        {| r_type := attrValue;
           r_match := Cat (Chars [DQ]) (Cat (Plus not_dq) (Chars [DQ]));
           r_lineBreaks := false; r_transition := Pop;
           r_value := fun a => close_with_dq (open_with_dq (trim a)) |};
        {| r_type := attrAny; r_match := Plus dot;
           r_lineBreaks := true; r_transition := Stay; r_value := same |} ]
  end.

Record token : Type := {
  type : token_type;
  value : str;
  text : str;
  offset : nat;
  lineBreaks : nat
}.

(** The lexer object: the buffer, the index of the next code unit, the
    current state and the stack of the states pushed. *)
Record lexer : Type := {
  buffer : str;
  index : nat;
  state : state_name;
  stack : list state_name
}.

(** [lexer.reset(htmlDoc)] *)
Definition parseHTML (htmlDoc : str) : lexer :=
  {| buffer := htmlDoc; index := 0; state := main; stack := [] |}.

(** The first rule, in order, that matches at the start of [s]. *)
Fixpoint first_match (rs : list rule) (s : str) : option (rule * nat) :=
  match rs with
  | [] => None
  | r :: rs' =>
      match exec (r_match r) s with
      | Some n => Some (r, n)
      | None => first_match rs' s
      end
  end.

(** [pushState], [popState]: popping an empty stack leaves the state. *)
Definition move (tr : transition) (st : state_name) (stk : list state_name)
  : state_name * list state_name :=
  match tr with
  | Push s => (s, st :: stk)
  | Pop => match stk with
           | s :: stk' => (s, stk')
           | [] => (st, [])
           end
  | Stay => (st, stk)
  end.

Definition count_LF (s : str) : nat := List.length (filter (N.eqb LF) s).

(** [lexer.next()]: [None] is [undefined], returned at the end of the buffer;
    when no rule matches, moo's default error rule throws. *)
Definition next (lx : lexer) : res (option token * lexer) :=
  if index lx =? List.length (buffer lx) then Ret (None, lx)
  else
    let rest := skipn (index lx) (buffer lx) in
    match first_match (rules (state lx)) rest with
    | None => Raise InvalidSyntax
    | Some (r, n) =>
        let txt := firstn n rest in
        let (st, stk) := move (r_transition r) (state lx) (stack lx) in
        Ret (Some {| type := r_type r;
                     value := r_value r txt;
                     text := txt;
                     offset := index lx;
                     lineBreaks := if r_lineBreaks r then count_LF txt else 0 |},
             {| buffer := buffer lx; index := index lx + n;
                state := st; stack := stk |})
    end.

(** Calling [next] until it returns [undefined] or throws: the tokens emitted
    and how the run ended. *)
Fixpoint drain (fuel : nat) (lx : lexer) : list token * res unit :=
  match fuel with
  | 0 => ([], Timeout)
  | S fuel' =>
      match next lx with
      | Ret (None, _) => ([], Ret tt)
      | Ret (Some t, lx') =>
          let (ts, e) := drain fuel' lx' in (t :: ts, e)
      | Raise e => ([], Raise e)
      | Timeout => ([], Timeout)
      end
  end.

(** Every token consumes at least one code unit, so one more step than the
    length of the document is enough. *)
Definition tokens (htmlDoc : str) : list token * res unit :=
  drain (S (List.length htmlDoc)) (parseHTML htmlDoc).

(* ================================================================== *)
(** ** Node's [path] module (POSIX) *)

Module path.

(** [s.split('/')] *)
Fixpoint split (s : str) : list str :=
  match s with
  | [] => [[]]
  | c :: s' =>
      if N.eqb c SLASH then [] :: split s'
      else match split s' with
           | seg :: segs => (c :: seg) :: segs
           | [] => [[c]]
           end
  end.

(** [segs.join('/')] *)
Fixpoint unsplit (segs : list str) : str :=
  match segs with
  | [] => []
  | [seg] => seg
  | seg :: segs' => seg ++ SLASH :: unsplit segs'
  end.

(** One segment of [normalizeString]; [acc] holds the segments kept so far,
    the last one first. Empty segments and [.] are dropped, [..] removes the
    last segment kept unless there is none or it is [..] itself. *)
Definition normalize_segment (allowAboveRoot : bool) (acc : list str)
           (seg : str) : list str :=
  if str_eqb seg [] || str_eqb seg (lit ".") then acc
  else if str_eqb seg (lit "..") then
    match acc with
    | top :: below =>
        if str_eqb top (lit "..")
        then (if allowAboveRoot then seg :: acc else acc)
        else below
    | [] => if allowAboveRoot then [seg] else []
    end
  else seg :: acc.

Definition normalizeString (p : str) (allowAboveRoot : bool) : str :=
  unsplit (rev (fold_left (normalize_segment allowAboveRoot) (split p) [])).

Definition normalize (p : str) : str :=
  match p with
  | [] => lit "."
  | c :: _ =>
      let isAbsolute := N.eqb c SLASH in
      let trailingSeparator := N.eqb (last p 0%N) SLASH in
      let q := normalizeString p (negb isAbsolute) in
      match q with
      | [] => if isAbsolute then [SLASH]
              else if trailingSeparator then lit "./" else lit "."
      | _ =>
          let q := if trailingSeparator then q ++ [SLASH] else q in
          if isAbsolute then SLASH :: q else q
      end
  end.

(** [path.join(a, b)] *)
Definition join (a b : str) : str :=
  match a, b with
  | [], [] => lit "."
  | [], _ => normalize b
  | _, [] => normalize a
  | _, _ => normalize (a ++ SLASH :: b)
  end.

(** The loop of [dirname]: [i] runs from the last index down to 1 and stops
    at the first slash that follows a code unit other than a slash. *)
Fixpoint dirname_end (p : str) (i : nat) (matchedSlash : bool) : option nat :=
  match i with
  | 0 => None
  | S i' =>
      if N.eqb (nth i p 0%N) SLASH then
        if matchedSlash then dirname_end p i' true else Some i
      else dirname_end p i' false
  end.

(** [path.dirname(p)] *)
Definition dirname (p : str) : str :=
  match p with
  | [] => lit "."
  | c :: _ =>
      let hasRoot := N.eqb c SLASH in
      match dirname_end p (List.length p - 1) true with
      | None => if hasRoot then [SLASH] else lit "."
      | Some e => if hasRoot && (e =? 1) then lit "//" else firstn e p
      end
  end.

End path.

(* ================================================================== *)
(** ** Sets of paths

    A JavaScript [Set] keeps its elements in the order of insertion and
    [Array.from] lists them in that order. *)

Definition has (s : list str) (x : str) : bool := existsb (str_eqb x) s.

Definition add (s : list str) (x : str) : list str :=
  if has s x then s else s ++ [x].

Definition add_all (s : list str) (xs : list str) : list str :=
  fold_left add xs s.

(* ================================================================== *)
(** ** scanHTML *)

(** The dependency set recorded for one HTML file. *)
Record imports : Type := {
  entry : list str;
  css : list str;
  js : list str
}.

(** [node.type === 'tagOpen' && node.value === name] *)
Definition is_tagOpen (node : token) (name : str) : bool :=
  token_type_beq (type node) tagOpen && str_eqb (value node) name.

(** [while (attrStart.type !== 'attrName' && attrStart.value !== name)
      attrStart = html.next();]
    Reading [type] of [undefined] throws. *)
Fixpoint seek_attrName (fuel : nat) (name : str) (attrStart : option token)
         (html : lexer) : res (token * lexer) :=
  match attrStart with
  | None => Raise TypeError
  | Some t =>
      if negb (token_type_beq (type t) attrName) && negb (str_eqb (value t) name)
      then match fuel with
           | 0 => Timeout
           | S fuel' =>
               '(nxt, html') <- next html ;;
               seek_attrName fuel' name nxt html'
           end
      else Ret (t, html)
  end.

(** [while (href.type !== 'attrValue') href = html.next();] *)
Fixpoint seek_attrValue (fuel : nat) (href : option token) (html : lexer)
  : res (token * lexer) :=
  match href with
  | None => Raise TypeError
  | Some t =>
      if negb (token_type_beq (type t) attrValue)
      then match fuel with
           | 0 => Timeout
           | S fuel' =>
               '(nxt, html') <- next html ;;
               seek_attrValue fuel' nxt html'
           end
      else Ret (t, html)
  end.

(** Steps 1 to 3 of both branches: the unwrapped value of the attribute
    found by the two loops. *)
Definition attribute_after (fuel : nat) (name : str) (html : lexer)
  : res (str * lexer) :=
  '(nxt, html) <- next html ;;
  '(_, html) <- seek_attrName fuel name nxt html ;;
  '(nxt, html) <- next html ;;
  '(href, html) <- seek_attrValue fuel nxt html ;;
  Ret (strip_trailing_dq (strip_leading_dq (value href)), html).

(** Step 4: [href[0] === '/' ? path.join(buildDirectory, href)
                            : path.join(path.dirname(file), href)] *)
Definition resolve (buildDirectory file href : str) : str :=
  match href with
  | c :: _ =>
      if N.eqb c SLASH then path.join buildDirectory href
      else path.join (path.dirname file) href
  | [] => path.join (path.dirname file) href
  end.

(** The three sets filled by the walk over the tokens. *)
Record found : Type := {
  allCSSImports : list str;
  allJSImports : list str;
  entries : list str
}.

(** The loop [while (node)] of scanHTML. *)
Fixpoint scan_tokens (fuel : nat) (buildDirectory file : str)
         (node : option token) (html : lexer) (acc : found) : res found :=
  match node with
  | None => Ret acc
  | Some nd =>
      match fuel with
      | 0 => Timeout
      | S fuel' =>
          '(html, acc) <-
            (if is_tagOpen nd (lit "<link") then
               '(href, html) <- attribute_after fuel' (lit "href") html ;;
               let resolvedCSS := resolve buildDirectory file href in
               Ret (html, {| allCSSImports := add (allCSSImports acc) resolvedCSS;
                             allJSImports := allJSImports acc;
                             entries := entries acc |})
             else Ret (html, acc)) ;;
          '(html, acc) <-
            (if is_tagOpen nd (lit "<script") then
               '(src, html) <- attribute_after fuel' (lit "src") html ;;
               let resolvedJS := resolve buildDirectory file src in
               Ret (html, {| allCSSImports := allCSSImports acc;
                             allJSImports := add (allJSImports acc) resolvedJS;
                             entries := add (entries acc) resolvedJS |})
             else Ret (html, acc)) ;;
          '(nxt, html) <- next html ;;
          scan_tokens fuel' buildDirectory file nxt html acc
      end
  end.

(** The walk over the tokens of one document, from empty sets. *)
Definition scan_document (buildDirectory file code : str) : res found :=
  let html := parseHTML code in
  '(node, html) <- next html ;;
  scan_tokens (S (List.length code)) buildDirectory file node html
    {| allCSSImports := []; allJSImports := []; entries := [] |}.

(** [l.forEach(f)] for an [f] that updates a state and may throw. *)
Fixpoint for_each (St : Type) (f : str -> St -> res St) (l : list str)
         (st : St) : res St :=
  match l with
  | [] => Ret st
  | i :: l' => st' <- f i st ;; for_each f l' st'
  end.

Section ImportGraph.

(** The static-import extractor: the static imports of a JS file, resolved to
    file paths. *)
Variable static_imports : str -> list str.

(** Modelled from the spec: [scanJS] of [lib/js.js], which is not among the
    sources. Given a file, the set of scanned files and the import list, it
    extracts the static imports of the file, adds the file and its imports to
    the import list and scans the imports recursively; the scanned files
    are marked so that no file is visited twice. It returns the import list.
    Both sets are shared with the caller, so the function returns their new
    contents. *)
Fixpoint scanJS (fuel : nat) (file : str) (st : list str * list str)
  : res (list str * list str) :=
  match fuel with
  | 0 => Timeout
  | S fuel' =>
      let (scannedFiles, importList) := st in
      if has scannedFiles file then Ret st
      else
        let imported := static_imports file in
        for_each (scanJS fuel') imported
          (add scannedFiles file, add_all (add importList file) imported)
  end.

(** [allJSImports.forEach((file) => scanJS({file, scannedFiles, importList:
    allJSImports}).forEach((i) => allJSImports.add(i)))]: [forEach] also
    visits the elements added while it runs, so the loop goes by position
    [i] until it passes the end of the set. The import list handed to scanJS
    is the set itself. *)
Fixpoint scan_imports (fuel : nat) (i : nat) (st : list str * list str)
  : res (list str * list str) :=
  match fuel with
  | 0 => Timeout
  | S fuel' =>
      let (scannedFiles, allJS) := st in
      match nth_error allJS i with
      | None => Ret st
      | Some file =>
          '(scannedFiles, returned) <- scanJS fuel' file (scannedFiles, allJS) ;;
          scan_imports fuel' (S i) (scannedFiles, add_all returned returned)
      end
  end.

(** The contents of the files, [None] when [readFile] rejects. *)
Variable readFile : str -> option str.

(** The callback of [htmlFiles.map]: the entry of [importList] for [file]. *)
Definition scanHTML_file (fuel : nat) (buildDirectory file : str) : res imports :=
  match readFile file with
  | None => Raise IOError
  | Some code =>
      acc <- scan_document buildDirectory file code ;;
      '(_, allJS) <- scan_imports fuel 0 ([], allJSImports acc) ;;
      Ret {| entry := entries acc; css := allCSSImports acc; js := allJS |}
  end.





End ImportGraph.

(* ================================================================== *)
(** ** injectHTML *)

(** Modelled from the spec: [insert] of [../util], which is not among the
    sources: the text with the insertion spliced in at offset [start]. *)
Definition insert (txt insertion : str) (start : nat) : str :=
  substring_to txt start ++ insertion ++ substring_from txt start.

(** An option of the call is used when it is truthy: present and not the
    empty string. *)
Definition given (o : option str) : bool :=
  match o with Some s => truthy s | None => false end.

Definition content (o : option str) : str :=
  match o with Some s => s | None => [] end.

(** The template
    [indent[0] === ' ' ? indent + '  ' : indent + '\t'] followed by the
    markup and a line feed. *)
Definition insertion_of (cur_indent markup : str) : str :=
  (match cur_indent with
   | c :: _ => if N.eqb c 32 then cur_indent ++ lit "  " else cur_indent ++ [TAB]
   | [] => cur_indent ++ [TAB]
   end) ++ markup ++ [LF].

(** [node.type === 'tagClose' && node.value === name] *)
Definition is_tagClose (node : token) (name : str) : bool :=
  token_type_beq (type node) tagClose && str_eqb (value node) name.

(** The state of the loop of injectHTML. *)
Record injection : Type := {
  code : str;
  cur_indent : str;
  charOffset : nat
}.

(** One insertion: [code = insert(code, insertion, node.offset + charOffset);
    charOffset += insertion.length]. *)
Definition inject_at (node : token) (markup : str) (st : injection) : injection :=
  let insertion := insertion_of (cur_indent st) markup in
  {| code := insert (code st) insertion (offset node + charOffset st);
     cur_indent := cur_indent st;
     charOffset := charOffset st + List.length insertion |}.

(** The body of the loop for one token. *)
Definition inject_node (headEnd bodyEnd : option str) (node : token)
           (st : injection) : injection :=
  let st :=
    if token_type_beq (type node) indent
    then {| code := code st; cur_indent := value node; charOffset := charOffset st |}
    else st in
  let st :=
    if given headEnd && is_tagClose node (lit "</head>")
    then inject_at node (content headEnd) st else st in
  if given bodyEnd && is_tagClose node (lit "</body>")
  then inject_at node (content bodyEnd) st else st.

Fixpoint inject_loop (fuel : nat) (headEnd bodyEnd : option str)
         (node : option token) (html : lexer) (st : injection) : res str :=
  match node with
  | None => Ret (code st)
  | Some nd =>
      match fuel with
      | 0 => Timeout
      | S fuel' =>
          let st := inject_node headEnd bodyEnd nd st in
          '(nxt, html) <- next html ;;
          inject_loop fuel' headEnd bodyEnd nxt html st
      end
  end.

Definition injectHTML (htmlDoc : str) (headEnd bodyEnd : option str) : res str :=
  let html := parseHTML htmlDoc in
  '(node, html) <- next html ;;
  inject_loop (S (List.length htmlDoc)) headEnd bodyEnd node html
    {| code := htmlDoc; cur_indent := []; charOffset := 0 |}.

(* ================================================================== *)
(** ** preloadJS *)

Definition ends_tag (node : token) : bool :=
  token_type_beq (type node) tagEnd || token_type_beq (type node) tagSelfClose.

(** [while (node.type !== 'attrValue') {
       node = html.next();
       if (node.type === 'tagEnd' || node.type === 'tagSelfClose') break;
     }] *)
Fixpoint seek_value_in_tag (fuel : nat) (node : token) (html : lexer)
  : res (token * lexer) :=
  if token_type_beq (type node) attrValue then Ret (node, html)
  else
    match fuel with
    | 0 => Timeout
    | S fuel' =>
        '(nxt, html) <- next html ;;
        match nxt with
        | None => Raise TypeError
        | Some n =>
            if ends_tag n then Ret (n, html)
            else seek_value_in_tag fuel' n html
        end
    end.

(** [while (!src && !type) { ... }]: the loop over the attributes of a
    script tag; [src] and [type] hold the values found. *)
Fixpoint script_attributes (fuel : nat) (html : lexer) (src type_ : str)
  : res (lexer * str * str) :=
  if negb (truthy src) && negb (truthy type_) then
    match fuel with
    | 0 => Timeout
    | S fuel' =>
        '(nxt, html) <- next html ;;
        match nxt with
        | None => Raise TypeError
        | Some node =>
            '(node, html, src, type_) <-
              (if token_type_beq (type node) attrName then
                 if str_eqb (value node) (lit "src") then
                   '(node, html) <- seek_value_in_tag fuel' node html ;;
                   Ret (node, html, value node, type_)
                 else if str_eqb (value node) (lit "type") then
                   '(node, html) <- seek_value_in_tag fuel' node html ;;
                   Ret (node, html, src, value node)
                 else Ret (node, html, src, type_)
               else Ret (node, html, src, type_)) ;;
            if ends_tag node then Ret (html, src, type_)
            else script_attributes fuel' html src type_
        end
    end
  else Ret (html, src, type_).

(** Step 1, the loop [while (node)]. In the branch for a module script,
    [src] is a string, so [src.value] is [undefined] and calling [replace]
    on it throws before [buildDirectory] and [file] are evaluated. *)
Fixpoint preload_entries (fuel : nat) (node : option token) (html : lexer)
         (originalEntries : list str) : res (list str) :=
  match node with
  | None => Ret originalEntries
  | Some nd =>
      match fuel with
      | 0 => Timeout
      | S fuel' =>
          '(html, originalEntries) <-
            (if is_tagOpen nd (lit "<script") then
               '(html, src, type_) <- script_attributes fuel' html [] [] ;;
               if truthy src && str_eqb type_ (dq (lit "module"))
               then Raise TypeError
               else Ret (html, originalEntries)
             else Ret (html, originalEntries)) ;;
          '(nxt, html) <- next html ;;
          preload_entries fuel' nxt html originalEntries
      end
  end.

(** Step 1 on a document, from the empty set. *)
Definition original_entries (code : str) : res (list str) :=
  let html := parseHTML code in
  '(node, html) <- next html ;;
  preload_entries (S (List.length code)) node html [].

(** [Array.prototype.sort] with a comparator: a stable sort. *)
Section Sort.
Variable compare : str -> str -> Z.

Fixpoint insert_sorted (x : str) (l : list str) : list str :=
  match l with
  | [] => [x]
  | y :: l' => if Z.leb (compare x y) 0 then x :: l else y :: insert_sorted x l'
  end.

Definition sort (l : list str) : list str :=
  fold_right insert_sorted [] l.
End Sort.

(** [parts.join(sep)] *)
Fixpoint join_with (sep : str) (parts : list str) : str :=
  match parts with
  | [] => []
  | [p] => p
  | p :: ps => p ++ sep ++ join_with sep ps
  end.

(** The two filters and the [map] that build [resolvedModules]. *)
Definition resolvedModules_of (projectURL : str -> str -> str)
           (allModules originalEntries : list str) (rootDir : str)
           (preloadCSS : bool) : list str :=
  map (fun src => projectURL rootDir src)
    (filter (fun m => preloadCSS && negb (endsWith m (lit ".css.proxy.js")))
       (filter (fun m => negb (has originalEntries m)) allModules)).

(** The markup added to the head: the comment and one [modulepreload] link
    per module. *)
Definition head_fragment (resolvedModules : list str) : str :=
  lit "  <!-- [@snowpack/plugin-optimize] Add modulepreload to improve unbundled load performance (More info: https://developers.google.com/web/updates/2017/12/modulepreload) -->"
  ++ [LF]
  ++ join_with [LF]
       (map (fun src => lit "    <link rel=" ++ dq (lit "modulepreload")
                        ++ lit " href=" ++ dq src ++ lit " />")
          resolvedModules)
  ++ [LF] ++ lit "  ".

(** The markup added to the body: the comment and one module script per
    module. *)
Definition body_fragment (resolvedModules : list str) : str :=
  lit "  <!-- [@snowpack/plugin-optimize] modulepreload fallback for browsers that do not support it yet -->"
  ++ [LF] ++ lit "    "
  ++ join_with []
       (map (fun src => lit "<script type=" ++ dq (lit "module")
                        ++ lit " src=" ++ dq src ++ lit "></script>")
          resolvedModules)
  ++ [LF] ++ lit "  ".

Section Preload.

Variable static_imports : str -> list str.

(** [projectURL] of [../util] and [String.prototype.localeCompare], neither
    of which is among the sources. *)
Variable projectURL : str -> str -> str.
Variable localeCompare : str -> str -> Z.

(** Step 2: [originalEntries.forEach((entry) => scanJS({file: entry,
    scannedFiles, importList: allModules}).forEach((file) =>
    allModules.add(file)))]. *)
Fixpoint scan_entries (fuel : nat) (originalEntries : list str)
         (st : list str * list str) : res (list str * list str) :=
  match originalEntries with
  | [] => Ret st
  | e :: es =>
      '(scannedFiles, returned) <- scanJS static_imports fuel e st ;;
      scan_entries fuel es (scannedFiles, add_all returned returned)
  end.

(** The parameters of preloadJS are [code], [rootDir], [htmlFile] and
    [preloadCSS]; the module declares [fs], [path], [moo], the four imports
    from [../util], [scanJS] and its own four functions. [cssName],
    [buildDirectory] and [file] are declared in neither. *)
Definition preloadJS (fuel : nat) (code rootDir htmlFile : str)
           (preloadCSS : bool) : res str :=
  let headHTML : str := [] in
  let bodyHTML : str := [] in
  (* 1. scan HTML for <script> tags *)
  originalEntries <- original_entries code ;;
  (* 2. scan entries for additional imports *)
  '(_, allModules) <- scan_entries fuel originalEntries ([], []) ;;
  (* 3. add CSS manifest: [cssName] is declared nowhere *)
  cssName <- undeclared "cssName" ;;
  let headHTML :=
    if truthy cssName
    then headHTML ++ lit "<link rel=" ++ dq (lit "stylesheet") ++ lit " href="
           ++ dq cssName ++ lit " />" ++ [LF]
    else headHTML in
  (* 4. add module preload to HTML *)
  let resolvedModules :=
    resolvedModules_of projectURL allModules originalEntries rootDir preloadCSS in
  match resolvedModules with
  | [] => Ret code
  | _ =>
      let resolvedModules := sort localeCompare resolvedModules in
      let headHTML := headHTML ++ head_fragment resolvedModules in
      let bodyHTML := bodyHTML ++ body_fragment resolvedModules in
      injectHTML code (Some headHTML) (Some bodyHTML)
  end.

End Preload.

(* ================================================================== *)
(** ** The optimize hook: which files get an optimize task *)

(** The filter of step 3:
    [(options.preloadCSS && !file.endsWith('.css.proxy.js')) || true]. *)
Definition optimize_filter (preloadCSS : bool) (file : str) : bool :=
  (preloadCSS && negb (endsWith file (lit ".css.proxy.js"))) || true.

(** The files for which [optimizeFile] is added to the work queue. *)
Definition queued_files (preloadCSS : bool) (allFiles : list str) : list str :=
  filter (optimize_filter preloadCSS) allFiles.

(* ================================================================== *)
(** ** The vocabulary of the statements *)

(** The types of the tokens, in order. *)
Definition types_of (ts : list token) : list token_type := map type ts.

(** The offsets of consecutive tokens: each token starts where the one
    before it ended. *)
Fixpoint contiguous (i : nat) (ts : list token) : Prop :=
  match ts with
  | [] => True
  | t :: ts' => offset t = i /\ contiguous (i + List.length (text t)) ts'
  end.

(** The texts of the tokens, put together. *)
Definition texts (ts : list token) : str := concat (map text ts).

(** The values of the tokens of type [ty]. *)
Definition values_of (ty : token_type) (ts : list token) : list str :=
  map value (filter (fun t => token_type_beq (type t) ty) ts).

(** The code units that are left to read. *)
Definition remaining (lx : lexer) : str := skipn (index lx) (buffer lx).

(** The exceptions the scan of a document can throw. *)
Definition scan_exn (e : exn) : Prop := e = TypeError \/ e = InvalidSyntax.

(** The outcome of a loop over the tokens: an exception of the scan, or a
    result together with a lexer that has no more left to read than before. *)
Definition advances (A : Type) (html : lexer) (r : res (A * lexer)) : Prop :=
  (exists e, r = Raise e /\ scan_exn e)
  \/ (exists a html', r = Ret (a, html')
      /\ List.length (remaining html') <= List.length (remaining html)).

(** The document the injections aim at, read off the tokens of the original
    document: every token keeps its text, and the markup given for a closing
    tag stands right before that tag, behind the last indent seen. *)
Fixpoint injected (headEnd bodyEnd : option str) (cur : str)
         (ts : list token) : str :=
  match ts with
  | [] => []
  | t :: ts' =>
      let cur := if token_type_beq (type t) indent then value t else cur in
      (if given headEnd && is_tagClose t (lit "</head>")
       then insertion_of cur (content headEnd) else [])
      ++ (if given bodyEnd && is_tagClose t (lit "</body>")
          then insertion_of cur (content bodyEnd) else [])
      ++ text t ++ injected headEnd bodyEnd cur ts'
  end.

(** A segment of a path that [normalize] keeps as it is. *)
Definition plain_segment (seg : str) : bool :=
  negb (str_eqb seg []) && negb (str_eqb seg (lit "."))
  && negb (str_eqb seg (lit "..")) && forallb (fun c => negb (N.eqb c SLASH)) seg.

(** The files reached from the seeds along static imports. *)
Inductive reachable (static_imports : str -> list str) (seeds : list str)
  : str -> Prop :=
| reach_seed : forall f, In f seeds -> reachable static_imports seeds f
| reach_import : forall f g,
    reachable static_imports seeds f ->
    In g (static_imports f) ->
    reachable static_imports seeds g.

(** What holds of the two sets between the calls of scanJS: both are sets,
    every scanned file is in the import list together with its imports, and
    the import list holds reachable files only. *)
Definition scan_inv (static_imports : str -> list str) (seeds : list str)
           (st : list str * list str) : Prop :=
  let (scannedFiles, importList) := st in
  NoDup scannedFiles
  /\ NoDup importList
  /\ incl scannedFiles importList
  /\ (forall f, In f importList -> reachable static_imports seeds f)
  /\ (forall f g, In f scannedFiles -> In g (static_imports f) ->
                  In g importList).

(** What a call of scanJS on a reachable file achieves when its fuel exceeds
    the number of files of [U] not scanned yet: it returns, keeps the
    invariant, marks the file and only appends to the import list. *)
Definition scanned_after (static_imports : str -> list str)
           (seeds U : list str) (fuel : nat) : Prop :=
  forall (file : str) (sc il : list str),
    scan_inv static_imports seeds (sc, il) ->
    reachable static_imports seeds file ->
    List.length U < fuel + List.length sc ->
    exists sc' il',
      scanJS static_imports fuel file (sc, il) = Ret (sc', il')
      /\ scan_inv static_imports seeds (sc', il')
      /\ incl sc sc'
      /\ In file sc'
      /\ exists t, il' = il ++ t.

(* ================================================================== *)
(** ** The documents and files of the examples *)

(** A build directory and an HTML file in it. *)
Definition build_root : str := lit "/build".
Definition index_html : str := lit "/build/index.html".

(** A file system with one readable file. *)
Definition only_file (name content : str) : str -> option str :=
  fun f => if str_eqb f name then Some content else None.

(** A paragraph holding a comment of two lines. *)
Definition two_line_comment : str :=
  lit "<p><!--" ++ [LF] ++ lit "note --></p>".

(** A page whose body holds a stylesheet link and a script, both with
    root-relative paths. *)
Definition link_script_page : str :=
  lit "<html><body><link href=" ++ dq (lit "/a.css") ++ lit "><script src="
  ++ dq (lit "/b.js") ++ lit "></script></body></html>".

(** The same page with a title in its head: the body holds the same two
    tags. *)
Definition titled_link_script_page : str :=
  lit "<html><head><title>t</title></head><body><link href="
  ++ dq (lit "/a.css") ++ lit "><script src=" ++ dq (lit "/b.js")
  ++ lit "></script></body></html>".

(** A stylesheet link whose [rel] precedes its [href]. *)
Definition link_rel_href : str :=
  lit "<link rel=" ++ dq (lit "stylesheet") ++ lit " href=" ++ dq (lit "/a.css")
  ++ lit ">".

(** A link without any attribute, and a link with [rel] but no [href]. *)
Definition link_bare : str := lit "<link>".
Definition link_rel_only : str := lit "<link rel=" ++ dq (lit "icon") ++ lit ">".

(** An anchor whose [href] is in double quotes, in single quotes, and without
    quotes. *)
Definition anchor_double : str := lit "<a href=" ++ dq (lit "/x") ++ lit ">".
Definition anchor_single : str := lit "<a href='/x'>".
Definition anchor_bare : str := lit "<a href=/x>".

(** A link without [href] followed by a script. *)
Definition link_then_script : str :=
  lit "<link><script src=" ++ dq (lit "/b.js") ++ lit "></script>".

(** A page with one module script. *)
Definition module_page : str :=
  lit "<html><head></head><body><script type=" ++ dq (lit "module")
  ++ lit " src=" ++ dq (lit "/app.js") ++ lit "></script></body></html>".

(** The page a preload of [/util.js] is meant to give for [module_page]: the
    two fragments for that module, injected before the closing tags. *)
Definition preloaded_page : str :=
  match injectHTML module_page (Some (head_fragment [lit "/util.js"]))
          (Some (body_fragment [lit "/util.js"])) with
  | Ret doc => doc
  | _ => []
  end.

(** Two files that import each other. *)
Definition b_js : str := lit "/build/b.js".
Definition c_js : str := lit "/build/c.js".
Definition cycle_imports (file : str) : list str :=
  if str_eqb file b_js then [c_js]
  else if str_eqb file c_js then [b_js] else [].

(* ================================================================== *)
(** ** The lexer between two calls *)

(** [reaches lx lx']: some number of calls of [next], each returning a
    token, leads from [lx] to [lx']. *)
Inductive reaches : lexer -> lexer -> Prop :=
| reaches_here : forall lx, reaches lx lx
| reaches_next : forall lx t lx' lx'',
    next lx = Ret (Some t, lx') -> reaches lx' lx'' -> reaches lx lx''.

(** The four configurations of state and stack: the main state on an empty
    stack, a comment or a tag entered from the main state, an attribute
    entered from a tag. *)
Definition balanced (lx : lexer) : Prop :=
  (state lx = main /\ stack lx = [])
  \/ (state lx = comment /\ stack lx = [main])
  \/ (state lx = tag /\ stack lx = [main])
  \/ (state lx = attr /\ stack lx = [tag; main]).

(** The pattern of commentEnd. *)
Definition commentEnd_pattern : re := Cat (Star is_space) (Chars (lit "-->")).

(** Where the rules leave the input without a match: in the main state at a
    line terminator that is neither a line feed nor a carriage return before
    a line feed, in a comment at a line terminator that does not start the
    end of the comment. *)
Definition unmatched (st : state_name) (s : str) : Prop :=
  match s with
  | [] => False
  | c :: rest =>
      dot c = false
      /\ ((st = main /\ c <> LF /\ ~ (c = CR /\ exists r, rest = LF :: r))
          \/ (st = comment /\ exec commentEnd_pattern s = None))
  end.

(** A text whose line ends are line feeds, alone or after a carriage return:
    it has no other line terminator. *)
Fixpoint well_lined (s : str) : bool :=
  match s with
  | [] => true
  | c :: s' =>
      (dot c || N.eqb c LF
       || (N.eqb c CR && match s' with d :: _ => N.eqb d LF | [] => false end))
      && well_lined s'
  end.

(** A text that reaches [-->] before any line terminator. *)
Fixpoint closes_on_line (s : str) : bool :=
  startsWith s (lit "-->")
  || match s with
     | c :: s' => dot c && closes_on_line s'
     | [] => false
     end.

(** A text in which every [<!--] is followed by a [-->] on the same line. *)
Fixpoint comments_close (s : str) : bool :=
  match s with
  | [] => true
  | _ :: s' =>
      (negb (startsWith s (lit "<!--")) || closes_on_line (skipn 4 s))
      && comments_close s'
  end.

(** ** The texts a pattern matches

    The language of a pattern: [matches r w] when the whole of [w] is a match
    of [r]. *)
Inductive matches : re -> str -> Prop :=
| matches_chars : forall l, matches (Chars l) l
| matches_one : forall p c, p c = true -> matches (One p) [c]
| matches_star : forall p w, forallb p w = true -> matches (Star p) w
| matches_plus : forall p c w,
    p c = true -> forallb p w = true -> matches (Plus p) (c :: w)
| matches_opt_none : forall r, matches (Opt r) []
| matches_opt_some : forall r w, matches r w -> matches (Opt r) w
| matches_cat : forall r1 r2 w1 w2,
    matches r1 w1 -> matches r2 w2 -> matches (Cat r1 r2) (w1 ++ w2).

(** What the value of a token is, by the type of the token: a tag name in
    lower case behind its bracket, the white space removed; an attribute
    name in lower case; a value between double quotes; the text itself. *)
Definition value_shape (t : token) : Prop :=
  match type t with
  | tagOpen =>
      exists ws name,
        text t = lit "<" ++ ws ++ name
        /\ forallb is_space ws = true
        /\ forallb is_name name = true /\ name <> []
        /\ value t = lit "<" ++ toLowerCase name
  | tagClose =>
      exists ws name ws',
        text t = lit "</" ++ ws ++ name ++ ws' ++ lit ">"
        /\ forallb is_space ws = true /\ forallb is_space ws' = true
        /\ forallb is_name name = true /\ name <> []
        /\ value t = lit "</" ++ toLowerCase name ++ lit ">"
  | attrName =>
      forallb is_name (text t) = true /\ value t = toLowerCase (text t)
  | attrValue =>
      exists v,
        v <> [] /\ forallb not_dq v = true
        /\ text t = dq v /\ value t = dq v
  | _ => value t = text t
  end.

(** ** A run of the lexer

    [run lx ts e]: called again and again from [lx], [next] emits the tokens
    [ts] and then returns [undefined] ([e] is [Ret tt]) or throws. *)
Inductive run : lexer -> list token -> res unit -> Prop :=
| run_end : forall lx lx',
    next lx = Ret (None, lx') -> run lx [] (Ret tt)
| run_throw : forall lx x,
    next lx = Raise x -> run lx [] (Raise x)
| run_token : forall lx t lx' ts e,
    next lx = Ret (Some t, lx') -> run lx' ts e -> run lx (t :: ts) e.

(** How a loop that reads tokens can end when the run of the lexer from
    where the loop starts ends as [e]: with the lexer somewhere on that run,
    with a property of [undefined] read behind the last token, or with the
    exception of the lexer. *)
Definition stays_on_run (A : Type) (e : res unit) (r : res (A * lexer)) : Prop :=
  match r with
  | Ret (_, html') => exists ts', run html' ts' e
  | Raise x => (x = TypeError /\ e = Ret tt) \/ e = Raise x
  | Timeout => True
  end.

(** ** Tokens that call for work *)

(** The closing tags before which injectHTML inserts, given its options. *)
Definition calls_for_insertion (headEnd bodyEnd : option str) (t : token) : bool :=
  (given headEnd && is_tagClose t (lit "</head>"))
  || (given bodyEnd && is_tagClose t (lit "</body>")).

(** The opening tags at which scanHTML looks for an attribute. *)
Definition is_link_or_script (t : token) : bool :=
  is_tagOpen t (lit "<link") || is_tagOpen t (lit "<script").

(* ================================================================== *)
(** ** The optimize plugin: the task of one file *)

Definition DOT : N := 46%N.

(** The variables of the loop of Node's [path.extname] (POSIX). *)
Record ext_scan : Type := {
  startDot : Z;
  startPart : Z;
  end_ : Z;
  matchedSlash : bool;
  preDotState : Z
}.

(** The loop [for (let i = path.length - 1; i >= 0; --i)] of [path.extname],
    with [n] for [i + 1]: a slash behind the last segment is skipped, the
    slash before the last segment ends the loop; the first code unit that is
    no slash marks the end of the extension and the first dot its start. *)
Fixpoint extname_loop (p : str) (n : nat) (st : ext_scan) : ext_scan :=
  match n with
  | 0 => st
  | S i =>
      let code := nth i p 0%N in
      if N.eqb code SLASH then
        if negb (matchedSlash st) then
          {| startDot := startDot st; startPart := Z.of_nat i + 1;
             end_ := end_ st; matchedSlash := matchedSlash st;
             preDotState := preDotState st |}
        else extname_loop p i st
      else
        let st :=
          if Z.eqb (end_ st) (-1)
          then {| startDot := startDot st; startPart := startPart st;
                  end_ := Z.of_nat i + 1; matchedSlash := false;
                  preDotState := preDotState st |}
          else st in
        let st :=
          if N.eqb code DOT then
            if Z.eqb (startDot st) (-1)
            then {| startDot := Z.of_nat i; startPart := startPart st;
                    end_ := end_ st; matchedSlash := matchedSlash st;
                    preDotState := preDotState st |}
            else if negb (Z.eqb (preDotState st) 1)
            then {| startDot := startDot st; startPart := startPart st;
                    end_ := end_ st; matchedSlash := matchedSlash st;
                    preDotState := 1 |}
            else st
          else if negb (Z.eqb (startDot st) (-1))
          then {| startDot := startDot st; startPart := startPart st;
                  end_ := end_ st; matchedSlash := matchedSlash st;
                  preDotState := -1 |}
          else st in
        extname_loop p i st
  end.

(** [path.extname(p)] *)
Definition path_extname (p : str) : str :=
  let st := extname_loop p (List.length p)
              {| startDot := -1; startPart := 0; end_ := -1;
                 matchedSlash := true; preDotState := 0 |} in
  if Z.eqb (startDot st) (-1) || Z.eqb (end_ st) (-1)
     || Z.eqb (preDotState st) 0
     || (Z.eqb (preDotState st) 1 && Z.eqb (startDot st) (end_ st - 1)
         && Z.eqb (startDot st) (startPart st + 1))
  then []
  else firstn (Z.to_nat (end_ st) - Z.to_nat (startDot st))
         (skipn (Z.to_nat (startDot st)) p).

(** The options of the plugin, each read for its truth value but the name of
    the combined stylesheet. *)
Record plugin_options : Type := {
  minifyJS : bool;
  minifyHTML : bool;
  minifyCSS : bool;
  preloadCSS : bool;
  preloadModules : bool;
  combinedCSSName : str
}.

(** The defaults, used for the options the user does not give. *)
Definition default_options : plugin_options :=
  {| minifyJS := true; minifyHTML := true; minifyCSS := true;
     preloadCSS := true; preloadModules := false;
     combinedCSSName := lit "/imported-styles.css" |}.

(** The files of the build directory: the text of a file, [None] for a path
    that cannot be read. *)
Definition files : Type := str -> option str.

(** [fs.readFileSync(file, 'utf-8')] *)
Definition readFileSync (fs : files) (file : str) : res str :=
  match fs file with
  | Some code => Ret code
  | None => Raise IOError
  end.

(** [fs.writeFileSync(file, code)] *)
Definition writeFileSync (fs : files) (file code : str) : files :=
  fun f => if str_eqb f file then Some code else fs f.

(** The markup optimizeFile hands to injectHTML as headEnd. *)
Definition combined_css_link (name : str) : str :=
  lit "<link type=" ++ dq (lit "stylesheet") ++ lit " rel=" ++ dq name
  ++ lit " />" ++ [LF].

(** The filter of step 2 of the hook: the files handed to scanHTML. *)
Definition scanned_files (allFiles : list str) : list str :=
  filter (fun f => str_eqb (path_extname f) (lit ".html")) allFiles.

Section Plugin.

Variable options : plugin_options.

(** The collaborators, none of which is among the sources: csso's [minify]
    followed by [.css], [transformCSSProxy] of [lib/css] (which may read
    other files), the [transform] of the esbuild service with the options
    [minify] and [target], and html-minifier's [minify] with the three
    options of the call. Each returns a text or throws. *)
Variable minifyCss : str -> res str.
Variable transformCSSProxy : files -> str -> str -> res str.
Variable transform : str -> res str.
Variable minifyHtml : str -> res str.

(** [optimizeFile]: the files after the task, or the exception that rejects
    its promise. The write is the last statement of every branch, so a task
    that throws has written nothing. The module imports [injectHTML] and
    [scanHTML] from [lib/html] and declares no [preloadJS].

    [toLowerCase] is the one of the tokenizer, on the letters A to Z: the
    other code units that JavaScript lowers to a letter lower to k or to i
    followed by a combining dot, which none of the four extensions of the
    [switch] contains. *)
Definition optimizeFile (fs : files) (file : str) : res files :=
  let baseExt := toLowerCase (path_extname file) in
  if str_eqb baseExt (lit ".css") then
    let shouldOptimize := minifyCSS options in
    if negb shouldOptimize then Ret fs
    else
      code <- readFileSync fs file ;;
      code <- minifyCss code ;;
      Ret (writeFileSync fs file code)
  else if str_eqb baseExt (lit ".js") || str_eqb baseExt (lit ".mjs") then
    let shouldOptimize := preloadCSS options || minifyJS options in
    if negb shouldOptimize then Ret fs
    else
      code <- readFileSync fs file ;;
      code <- (if preloadCSS options then transformCSSProxy fs file code
               else Ret code) ;;
      code <- (if minifyJS options then transform code else Ret code) ;;
      Ret (writeFileSync fs file code)
  else if str_eqb baseExt (lit ".html") then
    let shouldOptimize :=
      preloadCSS options || preloadModules options || minifyHTML options in
    if negb shouldOptimize then Ret fs
    else
      code <- readFileSync fs file ;;
      code <- (if preloadCSS options
               then injectHTML code
                      (Some (combined_css_link (combinedCSSName options))) None
               else Ret code) ;;
      code <- (if preloadModules options then undeclared "preloadJS"
               else Ret code) ;;
      code <- (if minifyHTML options then minifyHtml code else Ret code) ;;
      Ret (writeFileSync fs file code)
  else Ret fs.

End Plugin.

(** A code unit other than a slash and a dot. *)
Definition is_ext_unit (c : N) : bool :=
  negb (N.eqb c SLASH) && negb (N.eqb c DOT).
(* ================================================================== *)
(** * Properties *)

Unset Implicit Arguments.

(** ** The matcher consumes a prefix of its input *)

Lemma startsWith_length (l s : str) :
  startsWith s l = true -> List.length l <= List.length s.
Proof.
  revert s; induction l as [|x l IH]; intros [|y s] H; simpl in *;
    try lia; try discriminate.
  apply andb_true_iff in H as [_ H]. apply IH in H. lia.
Qed.

Lemma star_m_sound (R : Type) (p : N -> bool) (s : str) :
  forall (n : nat) (k : str -> nat -> option R) (x : R),
    star_m p s n k = Some x ->
    exists m, m <= List.length s /\ k (skipn m s) (n + m) = Some x.
Proof.
  induction s as [|c s IH]; intros n k x H; simpl in H.
  - exists 0. rewrite Nat.add_0_r. auto.
  - destruct (p c).
    + destruct (star_m p s (S n) k) as [y|] eqn:E.
      * inversion H; subst y. apply IH in E as (m & Hm & Hk).
        exists (S m). simpl. rewrite <- plus_n_Sm. split; [lia | exact Hk].
      * exists 0. rewrite Nat.add_0_r. split; [lia | exact H].
    + exists 0. rewrite Nat.add_0_r. split; [lia | exact H].
Qed.

Lemma rmatch_sound (R : Type) (r : re) :
  forall (s : str) (n : nat) (k : str -> nat -> option R) (x : R),
    rmatch r s n k = Some x ->
    exists m, m <= List.length s
              /\ (nullable r = false -> 1 <= m)
              /\ k (skipn m s) (n + m) = Some x.
Proof.
  induction r as [l | p | p | p | r1 IH1 | r1 IH1 r2 IH2];
    intros s n k x H; simpl in H.
  - destruct (startsWith s l) eqn:E; [|discriminate].
    exists (List.length l). repeat split; auto using startsWith_length.
    destruct l; simpl; [discriminate | lia].
  - destruct s as [|c s]; [discriminate|].
    destruct (p c); [|discriminate].
    exists 1. simpl. rewrite Nat.add_1_r. repeat split; auto; lia.
  - apply star_m_sound in H as (m & Hm & Hk).
    exists m. repeat split; auto. simpl; discriminate.
  - destruct s as [|c s]; [discriminate|].
    destruct (p c); [|discriminate].
    apply star_m_sound in H as (m & Hm & Hk).
    exists (S m). simpl. rewrite <- plus_n_Sm.
    repeat split; auto; lia.
  - destruct (rmatch r1 s n k) as [y|] eqn:E.
    + inversion H; subst y. apply IH1 in E as (m & Hm & _ & Hk).
      exists m. repeat split; auto. simpl; discriminate.
    + exists 0. rewrite Nat.add_0_r. simpl.
      repeat split; auto; try lia; discriminate.
  - apply IH1 in H as (m1 & Hm1 & Hn1 & Hk1).
    apply IH2 in Hk1 as (m2 & Hm2 & Hn2 & Hk2).
    rewrite length_skipn in Hm2.
    exists (m1 + m2).
    replace (skipn (m1 + m2) s) with (skipn m2 (skipn m1 s))
      by (rewrite skipn_skipn; f_equal; lia).
    rewrite Nat.add_assoc. repeat split; auto; try lia.
    simpl. intros Hnull. apply andb_false_iff in Hnull as [Hnull | Hnull];
      [apply Hn1 in Hnull | apply Hn2 in Hnull]; lia.
Qed.

Lemma exec_sound (r : re) (s : str) (n : nat) :
  exec r s = Some n ->
  n <= List.length s /\ (nullable r = false -> 1 <= n).
Proof.
  unfold exec. intros H. apply rmatch_sound in H as (m & Hm & Hn & Hk).
  simpl in Hk. inversion Hk; subst. auto.
Qed.

Lemma first_match_sound (rs : list rule) (s : str) (r : rule) (n : nat) :
  first_match rs s = Some (r, n) ->
  In r rs /\ exec (r_match r) s = Some n.
Proof.
  induction rs as [|r0 rs IH]; simpl; [discriminate|].
  destruct (exec (r_match r0) s) as [m|] eqn:E; intros H.
  - inversion H; subst. auto.
  - apply IH in H as [H1 H2]. auto.
Qed.

(** No rule of the lexer matches the empty string. *)
Lemma rules_not_nullable (st : state_name) (r : rule) :
  In r (rules st) -> nullable (r_match r) = false.
Proof.
  destruct st; simpl; intros H;
    repeat (destruct H as [H | H]; [subst r; reflexivity|]); contradiction.
Qed.

(** ** One step of the lexer *)

Lemma next_token (lx lx' : lexer) (t : token) :
  next lx = Ret (Some t, lx') ->
  buffer lx' = buffer lx
  /\ offset t = index lx
  /\ index lx' = index lx + List.length (text t)
  /\ 1 <= List.length (text t)
  /\ remaining lx = text t ++ remaining lx'.
Proof.
  unfold next, remaining. destruct (index lx =? List.length (buffer lx));
    [discriminate|].
  destruct (first_match (rules (state lx)) (skipn (index lx) (buffer lx)))
    as [[r n]|] eqn:E; [|discriminate].
  destruct (move (r_transition r) (state lx) (stack lx)) as [st stk].
  intros H. inversion H; subst; clear H. simpl.
  apply first_match_sound in E as [Hin Hex].
  apply exec_sound in Hex as [Hle Hpos].
  specialize (Hpos (rules_not_nullable _ _ Hin)).
  rewrite length_firstn, Nat.min_l by exact Hle.
  repeat split; auto.
  rewrite Nat.add_comm, <- skipn_skipn. symmetry. apply firstn_skipn.
Qed.

Lemma next_end (lx lx' : lexer) :
  next lx = Ret (None, lx') -> lx' = lx /\ remaining lx = [].
Proof.
  unfold next, remaining.
  destruct (index lx =? List.length (buffer lx)) eqn:E.
  - intros H; inversion H; subst. apply Nat.eqb_eq in E. rewrite E.
    split; [reflexivity | apply skipn_all].
  - destruct (first_match _ _) as [[r n]|]; [|discriminate].
    destruct (move _ _ _). discriminate.
Qed.

Lemma next_no_timeout (lx : lexer) : next lx <> Timeout.
Proof.
  unfold next. destruct (index lx =? _); [discriminate|].
  destruct (first_match _ _) as [[r n]|]; [|discriminate].
  destruct (move _ _ _). discriminate.
Qed.

(** Every token shortens what is left to read. *)
Lemma next_shortens (lx lx' : lexer) (t : token) :
  next lx = Ret (Some t, lx') ->
  List.length (remaining lx') < List.length (remaining lx).
Proof.
  intros H. apply next_token in H as (_ & _ & _ & Hpos & Hrem).
  rewrite Hrem, length_app. lia.
Qed.

Lemma next_raises (lx : lexer) (e : exn) :
  next lx = Raise e -> e = InvalidSyntax.
Proof.
  unfold next. destruct (index lx =? _); [discriminate|].
  destruct (first_match _ _) as [[r n]|].
  - destruct (move _ _ _). discriminate.
  - intros H; inversion H; reflexivity.
Qed.

(** What [next] leaves to read, whether or not it returned a token. *)
Lemma next_remaining (html html' : lexer) (nxt : option token) :
  next html = Ret (nxt, html') ->
  List.length (remaining html') <= List.length (remaining html)
  /\ (nxt <> None ->
      List.length (remaining html') < List.length (remaining html)).
Proof.
  intros E. destruct nxt as [t|].
  - apply next_shortens in E. split; [lia | intros _; exact E].
  - apply next_end in E as [E _]. subst html'.
    split; [lia | intros Hn; contradiction].
Qed.

Lemma advances_weaken (A : Type) (html html' : lexer) (r : res (A * lexer)) :
  List.length (remaining html') <= List.length (remaining html) ->
  advances html' r -> advances html r.
Proof.
  intros Hle [(e & He & Hx) | (a & h2 & Ha & Hl)].
  - left. exists e. auto.
  - right. exists a, h2. split; [exact Ha | lia].
Qed.

(** ** Running the lexer to the end *)

Lemma drain_contiguous (fuel : nat) :
  forall (lx : lexer) (ts : list token) (e : res unit),
    drain fuel lx = (ts, e) -> contiguous (index lx) ts.
Proof.
  induction fuel as [|fuel IH]; intros lx ts e H; simpl in H.
  - inversion H; simpl; auto.
  - destruct (next lx) as [[[t|] lx']| |] eqn:E;
      try (inversion H; simpl; auto; fail).
    destruct (drain fuel lx') as [ts' e'] eqn:D. inversion H; subst.
    apply next_token in E as (_ & Hoff & Hidx & _ & _).
    simpl. split; [exact Hoff|]. rewrite <- Hidx. eapply IH; eauto.
Qed.

(** The texts of the tokens emitted are a prefix of what was left to read,
    and all of it when the run ends by [undefined]. *)
Lemma drain_texts (fuel : nat) :
  forall (lx : lexer) (ts : list token) (e : res unit),
    drain fuel lx = (ts, e) ->
    exists rest, remaining lx = texts ts ++ rest /\ (e = Ret tt -> rest = []).
Proof.
  induction fuel as [|fuel IH]; intros lx ts e H; simpl in H.
  - inversion H. exists (remaining lx). split; [reflexivity | discriminate].
  - destruct (next lx) as [[[t|] lx']| |] eqn:E.
    + destruct (drain fuel lx') as [ts' e'] eqn:D. inversion H; subst.
      apply next_token in E as (_ & _ & _ & _ & Hrem).
      apply IH in D as (rest & Hrest & Hend).
      exists rest. split; [|exact Hend].
      unfold texts in *. simpl. rewrite Hrem, Hrest, app_assoc. reflexivity.
    + inversion H; subst. apply next_end in E as [_ E].
      exists []. rewrite E. auto.
    + inversion H; subst. exists (remaining lx). split; [reflexivity|discriminate].
    + inversion H; subst. exists (remaining lx). split; [reflexivity|discriminate].
Qed.

Lemma drain_nonempty (fuel : nat) :
  forall (lx : lexer) (ts : list token) (e : res unit),
    drain fuel lx = (ts, e) ->
    Forall (fun t => 1 <= List.length (text t)) ts.
Proof.
  induction fuel as [|fuel IH]; intros lx ts e H; simpl in H.
  - inversion H; constructor.
  - destruct (next lx) as [[[t|] lx']| |] eqn:E;
      try (inversion H; constructor; fail).
    destruct (drain fuel lx') as [ts' e'] eqn:D. inversion H; subst.
    apply next_token in E as (_ & _ & _ & Hpos & _).
    constructor; [exact Hpos | eapply IH; eauto].
Qed.

(** The fuel is never used up when it exceeds what is left to read. *)
Lemma drain_no_timeout (fuel : nat) :
  forall (lx : lexer),
    List.length (remaining lx) < fuel -> snd (drain fuel lx) <> Timeout.
Proof.
  induction fuel as [|fuel IH]; intros lx Hlt; [lia|]. simpl.
  destruct (next lx) as [[[t|] lx']| |] eqn:E; simpl; try discriminate.
  - destruct (drain fuel lx') as [ts' e'] eqn:D. simpl.
    change e' with (snd (ts', e')). rewrite <- D. apply IH.
    apply next_shortens in E. lia.
  - exfalso. eapply next_no_timeout; eauto.
Qed.

Lemma texts_length (ts : list token) :
  Forall (fun t => 1 <= List.length (text t)) ts ->
  List.length ts <= List.length (texts ts).
Proof.
  induction 1 as [|t ts Ht _ IH]; simpl; [lia|].
  unfold texts in *. simpl. rewrite length_app. lia.
Qed.

(** The tokenizer always ends, by [undefined] or by an exception. *)
Theorem tokens_no_timeout (htmlDoc : str) : snd (tokens htmlDoc) <> Timeout.
Proof.
  unfold tokens. apply drain_no_timeout. unfold remaining. simpl. lia.
Qed.

(** When the tokenizer reaches the end of the document, the texts of its
    tokens, put together, are the document, and every token starts where
    the one before it ended. *)
Theorem tokens_roundtrip (htmlDoc : str) (ts : list token) :
  tokens htmlDoc = (ts, Ret tt) ->
  texts ts = htmlDoc /\ contiguous 0 ts.
Proof.
  unfold tokens. intros H. split.
  - apply drain_texts in H as (rest & Hrest & Hend).
    rewrite (Hend eq_refl), app_nil_r in Hrest. symmetry. exact Hrest.
  - apply drain_contiguous in H. exact H.
Qed.

(* ================================================================== *)
(** ** The tokenizer on documents it cannot read *)

(** C1. The tokenizer does not reconstruct every document with balanced
    tags: on a paragraph that holds a comment of two lines it emits the
    tokens of [<p><!--] and then throws at the line feed, since [commentEnd]
    needs the arrow right after the white space and the [.] of [commentAny]
    does not match a line terminator. The texts of the tokens emitted stop
    after seven code units and are not the document. *)
Theorem C1_two_line_comment_throws :
  snd (tokens two_line_comment) = Raise InvalidSyntax
  /\ types_of (fst (tokens two_line_comment)) = [tagOpen; tagEnd; commentStart]
  /\ texts (fst (tokens two_line_comment)) = lit "<p><!--"
  /\ texts (fst (tokens two_line_comment)) <> two_line_comment.
Proof.
  repeat split; try (vm_compute; reflexivity).
  vm_compute. discriminate.
Qed.

Lemma star_m_total (R : Type) (p : N -> bool) (s : str) :
  forall (n : nat) (k : str -> nat -> option R),
    (forall s' n', k s' n' <> None) -> star_m p s n k <> None.
Proof.
  induction s as [|c s IH]; intros n k Hk; simpl; [apply Hk|].
  destruct (p c); [|apply Hk].
  destruct (star_m p s (S n) k) eqn:E; [discriminate | apply Hk].
Qed.

Lemma exec_Plus (p : N -> bool) (c : N) (rest : str) :
  p c = true -> exec (Plus p) (c :: rest) <> None.
Proof.
  intros Hc. unfold exec. simpl. rewrite Hc.
  apply star_m_total. discriminate.
Qed.

Lemma first_match_none (rs : list rule) (s : str) :
  first_match rs s = None ->
  forall r, In r rs -> exec (r_match r) s = None.
Proof.
  induction rs as [|r0 rs IH]; simpl; intros H r Hin; [contradiction|].
  destruct (exec (r_match r0) s) eqn:E; [discriminate|].
  destruct Hin as [<- | Hin]; [exact E | apply IH; assumption].
Qed.

Lemma line_terminator_is_space (c : N) : dot c = false -> is_space c = true.
Proof.
  unfold dot, is_line_terminator. intros H. apply negb_false_iff in H.
  repeat (apply orb_true_iff in H as [H | H]);
    apply N.eqb_eq in H; subst c; reflexivity.
Qed.

(** Inside a tag and inside an attribute the rules cover every code unit,
    line terminators included: only the rules of the main state and of a
    comment leave some input without a match. *)
Theorem tag_and_attr_never_throw (lx : lexer) (e : exn) :
  index lx <= List.length (buffer lx) ->
  state lx = tag \/ state lx = attr ->
  next lx <> Raise e.
Proof.
  intros Hidx Hst. unfold next.
  destruct (index lx =? List.length (buffer lx)) eqn:Ei; [discriminate|].
  apply Nat.eqb_neq in Ei.
  destruct (first_match (rules (state lx)) (skipn (index lx) (buffer lx)))
    as [[r n]|] eqn:E; [destruct (move _ _ _); discriminate|].
  exfalso. pose proof (first_match_none _ _ E) as Hnone.
  destruct (skipn (index lx) (buffer lx)) as [|c rest] eqn:Hrest.
  { apply (f_equal (@List.length N)) in Hrest.
    rewrite length_skipn in Hrest. simpl in Hrest. lia. }
  destruct (dot c) eqn:Hdot.
  - destruct Hst as [Hst | Hst]; rewrite Hst in Hnone.
    + apply (exec_Plus dot c rest Hdot).
      apply (Hnone {| r_type := tagAny; r_match := Plus dot;
                      r_lineBreaks := true; r_transition := Stay;
                      r_value := same |}).
      simpl. auto 10.
    + apply (exec_Plus dot c rest Hdot).
      apply (Hnone {| r_type := attrAny; r_match := Plus dot;
                      r_lineBreaks := true; r_transition := Stay;
                      r_value := same |}).
      simpl. auto 10.
  - apply line_terminator_is_space in Hdot.
    destruct Hst as [Hst | Hst]; rewrite Hst in Hnone.
    + assert (Hws : is_tagWS c = true).
      { unfold is_tagWS. rewrite Hdot. apply orb_true_r. }
      apply (exec_Plus is_tagWS c rest Hws).
      apply (Hnone {| r_type := tagWS; r_match := Plus is_tagWS;
                      r_lineBreaks := true; r_transition := Stay;
                      r_value := same |}).
      simpl. auto 10.
    + assert (Hex : exec (One is_space) (c :: rest) = None).
      { apply (Hnone {| r_type := attrEnd; r_match := One is_space;
                        r_lineBreaks := true; r_transition := Pop;
                        r_value := same |}).
        simpl. auto 10. }
      unfold exec in Hex. simpl in Hex. rewrite Hdot in Hex. discriminate.
Qed.

(** A line that ends by a lone carriage return is refused as well. *)
Example lone_carriage_return_throws :
  tokens (lit "a" ++ [CR] ++ lit "b")
  = ([{| type := any; value := lit "a"; text := lit "a"; offset := 0;
         lineBreaks := 0 |}], Raise InvalidSyntax).
Proof. vm_compute. reflexivity. Qed.

(* ================================================================== *)
(** ** Attribute values *)

Lemma star_m_longest (R : Type) (p : N -> bool) (a b : str) :
  forall (n : nat) (k : str -> nat -> option R) (x : R),
    forallb p a = true ->
    star_m p b (n + List.length a) k = Some x ->
    star_m p (a ++ b) n k = Some x.
Proof.
  induction a as [|c a IH]; intros n k x Ha Hb; simpl in *.
  - rewrite Nat.add_0_r in Hb. exact Hb.
  - apply andb_true_iff in Ha as [Hc Ha]. rewrite Hc.
    rewrite (IH (S n) k x Ha); [reflexivity|].
    rewrite <- plus_n_Sm in Hb. exact Hb.
Qed.

(** The pattern of attrValue on a value in double quotes. *)
Lemma exec_attrValue (v rest : str) :
  v <> [] ->
  forallb not_dq v = true ->
  exec (Cat (Chars [DQ]) (Cat (Plus not_dq) (Chars [DQ]))) (dq v ++ rest)
  = Some (List.length (dq v)).
Proof.
  intros Hv Hall. destruct v as [|c v]; [contradiction|].
  simpl in Hall. apply andb_true_iff in Hall as [Hc Hall].
  unfold exec, dq. cbn [rmatch app startsWith List.length skipn].
  change (N.eqb DQ DQ) with true. cbn [andb]. rewrite Hc.
  replace ((v ++ [DQ]) ++ rest) with (v ++ DQ :: rest)
    by (rewrite <- app_assoc; reflexivity).
  erewrite star_m_longest; [reflexivity | exact Hall |].
  cbn [star_m]. change (not_dq DQ) with false. cbv iota.
  cbn [startsWith]. change (N.eqb DQ DQ) with true. cbn [andb skipn List.length].
  replace (startsWith rest []) with true by (destruct rest; reflexivity).
  f_equal. rewrite length_app. simpl. lia.
Qed.

(** The value transform of attrValue leaves a value in double quotes as it
    is. *)
Lemma attrValue_value (v : str) :
  close_with_dq (open_with_dq (trim (dq v))) = dq v.
Proof.
  assert (Ht : trim (dq v) = dq v).
  { unfold trim, dq. cbn [dropWhile]. change (is_space DQ) with false.
    cbv iota. cbn [rev]. rewrite rev_app_distr. cbn [rev app dropWhile].
    change (is_space DQ) with false. cbv iota.
    change (DQ :: rev v ++ [DQ]) with ((DQ :: rev v) ++ [DQ]).
    rewrite rev_app_distr. cbn [rev app]. rewrite rev_involutive.
    reflexivity. }
  rewrite Ht. unfold dq, open_with_dq, close_with_dq.
  change (is_quote DQ) with true. cbv iota.
  cbn [rev]. rewrite rev_app_distr. cbn [rev app].
  change (is_quote DQ) with true. cbv iota.
  rewrite rev_app_distr. cbn [rev app]. rewrite rev_involutive. reflexivity.
Qed.

(** In the state of an attribute, a value in double quotes that is not empty
    is emitted as an attrValue token whose value and text are the quoted
    value. *)
Theorem double_quoted_value_token (buf : str) (i : nat)
        (stk : list state_name) (v rest : str) :
  v <> [] ->
  forallb not_dq v = true ->
  skipn i buf = dq v ++ rest ->
  exists lx',
    next {| buffer := buf; index := i; state := attr; stack := stk |}
    = Ret (Some {| type := attrValue; value := dq v; text := dq v;
                   offset := i; lineBreaks := 0 |}, lx')
    /\ index lx' = i + List.length (dq v).
Proof.
  intros Hv Hall Hrest. unfold next. cbn [index buffer state stack].
  destruct (i =? List.length buf) eqn:Ei.
  { apply Nat.eqb_eq in Ei. subst i. rewrite skipn_all in Hrest.
    discriminate Hrest. }
  rewrite Hrest. cbn [rules first_match r_match].
  change (exec (Chars (lit "=")) (dq v ++ rest)) with (@None nat).
  change (exec (One is_space) (dq v ++ rest)) with (@None nat).
  rewrite (exec_attrValue v rest Hv Hall).
  cbn [r_transition r_type r_value r_lineBreaks].
  destruct (move Pop attr stk) as [st stk'].
  rewrite firstn_app, firstn_all, Nat.sub_diag. cbn [firstn].
  rewrite app_nil_r, attrValue_value.
  eexists. split; reflexivity.
Qed.

(** C5. A value in single quotes and a value without quotes are not emitted
    as [attrValue] tokens: the pattern of the rule only matches a value in
    double quotes, so the rest of the line, the end of the tag included,
    becomes one [attrAny] token. The same value in double quotes is emitted
    as it is written. *)
Theorem C5_only_double_quoted_values :
  types_of (fst (tokens anchor_single))
  = [tagOpen; tagWS; attrName; attrAssignment; attrAny]
  /\ values_of attrValue (fst (tokens anchor_single)) = []
  /\ values_of attrAny (fst (tokens anchor_single)) = [lit "'/x'>"]
  /\ types_of (fst (tokens anchor_bare))
     = [tagOpen; tagWS; attrName; attrAssignment; attrAny]
  /\ values_of attrValue (fst (tokens anchor_bare)) = []
  /\ values_of attrAny (fst (tokens anchor_bare)) = [lit "/x>"]
  /\ types_of (fst (tokens anchor_double))
     = [tagOpen; tagWS; attrName; attrAssignment; attrValue; tagEnd]
  /\ values_of attrValue (fst (tokens anchor_double)) = [dq (lit "/x")].
Proof. repeat split; vm_compute; reflexivity. Qed.

(* ================================================================== *)
(** ** The loops over the tokens never use up their fuel *)

Lemma seek_attrName_total (name : str) (fuel : nat) :
  forall (attrStart : option token) (html : lexer),
    (attrStart <> None -> List.length (remaining html) < fuel) ->
    advances html (seek_attrName fuel name attrStart html).
Proof.
  induction fuel as [|fuel IH]; intros attrStart html Hlt.
  { destruct attrStart as [t|].
    - assert (Some t <> None) as Hn by discriminate. apply Hlt in Hn. lia.
    - left. exists TypeError. unfold scan_exn. auto. }
  destruct attrStart as [t|];
    [|left; exists TypeError; unfold scan_exn; auto].
  assert (Hr : List.length (remaining html) < S fuel)
    by (apply Hlt; discriminate).
  cbn [seek_attrName].
  destruct (negb (token_type_beq (type t) attrName)
            && negb (str_eqb (value t) name)).
  2:{ right. exists t, html. auto. }
  destruct (next html) as [[nxt html']| |] eqn:E; cbn [bind].
  - destruct nxt as [t'|].
    + pose proof (next_shortens _ _ _ E) as Hs.
      apply advances_weaken with html'; [lia|]. apply IH. intros _. lia.
    + apply next_end in E as [E _]. subst html'. apply IH.
      intros Hn; contradiction.
  - left. exists e. apply next_raises in E. subst e. unfold scan_exn. auto.
  - exfalso. eapply next_no_timeout; eauto.
Qed.

Lemma seek_attrValue_total (fuel : nat) :
  forall (href : option token) (html : lexer),
    (href <> None -> List.length (remaining html) < fuel) ->
    advances html (seek_attrValue fuel href html).
Proof.
  induction fuel as [|fuel IH]; intros href html Hlt.
  { destruct href as [t|].
    - assert (Some t <> None) as Hn by discriminate. apply Hlt in Hn. lia.
    - left. exists TypeError. unfold scan_exn. auto. }
  destruct href as [t|];
    [|left; exists TypeError; unfold scan_exn; auto].
  assert (Hr : List.length (remaining html) < S fuel)
    by (apply Hlt; discriminate).
  cbn [seek_attrValue].
  destruct (negb (token_type_beq (type t) attrValue)).
  2:{ right. exists t, html. auto. }
  destruct (next html) as [[nxt html']| |] eqn:E; cbn [bind].
  - destruct nxt as [t'|].
    + pose proof (next_shortens _ _ _ E) as Hs.
      apply advances_weaken with html'; [lia|]. apply IH. intros _. lia.
    + apply next_end in E as [E _]. subst html'. apply IH.
      intros Hn; contradiction.
  - left. exists e. apply next_raises in E. subst e. unfold scan_exn. auto.
  - exfalso. eapply next_no_timeout; eauto.
Qed.

Lemma attribute_after_total (fuel : nat) (name : str) (html : lexer) :
  List.length (remaining html) <= fuel ->
  advances html (attribute_after fuel name html).
Proof.
  intros Hle. unfold attribute_after.
  destruct (next html) as [[nxt1 h1]| |] eqn:E1; cbn [bind].
  2:{ left. exists e. apply next_raises in E1. subst e. unfold scan_exn. auto. }
  2:{ exfalso. eapply next_no_timeout; eauto. }
  destruct (next_remaining _ _ _ E1) as [Hle1 Hlt1].
  destruct (seek_attrName_total name fuel nxt1 h1)
    as [(e & He & Hx) | (t2 & h2' & Ha & Hl2)];
    [intros Hn; apply Hlt1 in Hn; lia | |]; rewrite ?He, ?Ha; cbn [bind].
  { left. exists e. auto. }
  destruct (next h2') as [[nxt3 h3]| |] eqn:E3; cbn [bind].
  2:{ left. exists e. apply next_raises in E3. subst e. unfold scan_exn. auto. }
  2:{ exfalso. eapply next_no_timeout; eauto. }
  destruct (next_remaining _ _ _ E3) as [Hle3 Hlt3].
  destruct (seek_attrValue_total fuel nxt3 h3)
    as [(e & He & Hx) | (t4 & h4 & Ha4 & Hl4)];
    [intros Hn; apply Hlt3 in Hn; lia | |]; rewrite ?He, ?Ha4; cbn [bind].
  { left. exists e. auto. }
  right. eexists _, h4. split; [reflexivity | lia].
Qed.

(** The end of an iteration of a loop over the tokens: the next token is
    read and the loop goes on with less to read. *)
Ltac read_next IH :=
  cbn [bind];
  lazymatch goal with
  | |- context [bind (next ?h) _] =>
      let E := fresh "E" in
      let nxt := fresh "nxt" in
      let h3 := fresh "h" in
      let e := fresh "e" in
      destruct (next h) as [[nxt h3]|e|] eqn:E; cbn [bind];
      [ apply IH; let Hn := fresh "Hn" in
        intros Hn; apply (next_remaining _ _ _ E) in Hn; lia
      | left; apply next_raises in E; subst e; exists InvalidSyntax;
        split; [reflexivity | right; reflexivity]
      | exfalso; eapply next_no_timeout; eauto ]
  end.

Lemma scan_tokens_total (buildDirectory file : str) (fuel : nat) :
  forall (node : option token) (html : lexer) (acc : found),
    (node <> None -> List.length (remaining html) < fuel) ->
    (exists e, scan_tokens fuel buildDirectory file node html acc = Raise e
               /\ scan_exn e)
    \/ (exists acc', scan_tokens fuel buildDirectory file node html acc
                     = Ret acc').
Proof.
  induction fuel as [|fuel IH]; intros node html acc Hlt.
  { destruct node as [t|]; [|right; exists acc; reflexivity].
    assert (Some t <> None) as Hn by discriminate. apply Hlt in Hn. lia. }
  destruct node as [nd|]; [|right; exists acc; reflexivity].
  assert (Hr : List.length (remaining html) <= fuel).
  { assert (Some nd <> None) as Hn by discriminate. apply Hlt in Hn. lia. }
  cbn [scan_tokens].
  destruct (is_tagOpen nd (lit "<link")).
  - destruct (attribute_after_total fuel (lit "href") html Hr)
      as [(e & He & Hx) | (href & h1 & Ha & Hl1)]; rewrite ?He, ?Ha;
      cbn [bind]; [left; exists e; auto|].
    destruct (is_tagOpen nd (lit "<script")).
    + destruct (attribute_after_total fuel (lit "src") h1)
        as [(e & He & Hx) | (src & h2 & Ha2 & Hl2)]; [lia | |];
        rewrite ?He, ?Ha2; cbn [bind]; [left; exists e; auto|].
      read_next IH.
    + read_next IH.
  - cbn [bind]. destruct (is_tagOpen nd (lit "<script")).
    + destruct (attribute_after_total fuel (lit "src") html Hr)
        as [(e & He & Hx) | (src & h2 & Ha2 & Hl2)];
        rewrite ?He, ?Ha2; cbn [bind]; [left; exists e; auto|].
      read_next IH.
    + read_next IH.
Qed.

(** The walk of scanHTML over a document ends: it returns its three sets, or
    throws moo's invalid syntax or a TypeError. *)
Theorem scan_document_total (buildDirectory file code : str) :
  (exists e, scan_document buildDirectory file code = Raise e /\ scan_exn e)
  \/ (exists acc, scan_document buildDirectory file code = Ret acc).
Proof.
  unfold scan_document.
  destruct (next (parseHTML code)) as [[nxt html]| |] eqn:E; cbn [bind].
  - apply scan_tokens_total. intros Hn.
    apply (next_remaining _ _ _ E) in Hn.
    unfold remaining at 2 in Hn. simpl in Hn. lia.
  - left. exists e. apply next_raises in E. subst e. unfold scan_exn. auto.
  - exfalso. eapply next_no_timeout; eauto.
Qed.

(* ================================================================== *)
(** ** Equality of paths *)

Lemma str_eqb_eq (a b : str) : str_eqb a b = true <-> a = b.
Proof.
  revert b; induction a as [|x a IH]; intros [|y b]; simpl; split; intros H;
    try discriminate; try reflexivity.
  - apply andb_true_iff in H as [H1 H2]. apply N.eqb_eq in H1.
    apply IH in H2. subst; reflexivity.
  - inversion H; subst. rewrite N.eqb_refl. apply IH. reflexivity.
Qed.

Lemma str_eqb_refl (a : str) : str_eqb a a = true.
Proof. apply str_eqb_eq. reflexivity. Qed.

Lemma str_eqb_neq (a b : str) : a <> b -> str_eqb a b = false.
Proof.
  intros H. destruct (str_eqb a b) eqn:E; [|reflexivity].
  apply str_eqb_eq in E. contradiction.
Qed.

(** Unfolds the operations on sets and decides the comparisons of paths that
    the context settles. *)
Ltac set_steps :=
  repeat (progress
            (unfold add, add_all, has;
             cbn [existsb fold_left app orb bind];
             rewrite ?str_eqb_refl;
             repeat match goal with
                    | H : str_eqb _ _ = false |- _ => rewrite H
                    end)).

(* ================================================================== *)
(** ** Joining a path onto a normalized root *)

Lemma split_not_nil (s : str) : path.split s <> [].
Proof.
  destruct s as [|c s]; simpl; [discriminate|].
  destruct (N.eqb c SLASH); [discriminate|].
  destruct (path.split s); discriminate.
Qed.

Lemma split_app_slash (a b : str) :
  path.split (a ++ SLASH :: b) = path.split a ++ path.split b.
Proof.
  induction a as [|c a IH]; simpl.
  - reflexivity.
  - destruct (N.eqb c SLASH); rewrite IH; [reflexivity|].
    pose proof (split_not_nil a) as Hn.
    destruct (path.split a); [contradiction | reflexivity].
Qed.

Lemma split_plain (seg : str) :
  forallb (fun c => negb (N.eqb c SLASH)) seg = true -> path.split seg = [seg].
Proof.
  induction seg as [|c seg IH]; simpl; [reflexivity|].
  intros H. apply andb_true_iff in H as [Hc Hs].
  apply negb_true_iff in Hc. rewrite Hc, (IH Hs). reflexivity.
Qed.

Lemma unsplit_snoc (l : list str) (x : str) :
  l <> [] -> path.unsplit (l ++ [x]) = path.unsplit l ++ SLASH :: x.
Proof.
  induction l as [|y l IH]; [contradiction|]. intros _.
  destruct l as [|z l]; [reflexivity|].
  change (path.unsplit ((y :: z :: l) ++ [x]))
    with (y ++ SLASH :: path.unsplit ((z :: l) ++ [x])).
  rewrite IH by discriminate.
  change (path.unsplit (y :: z :: l)) with (y ++ SLASH :: path.unsplit (z :: l)).
  rewrite <- app_assoc. reflexivity.
Qed.

Lemma last_append (a b : str) (d : N) :
  b <> [] -> last (a ++ b) d = last b d.
Proof.
  intros Hb. induction a as [|x a IH]; [reflexivity|].
  simpl. destruct (a ++ b) eqn:E; [|exact IH].
  destruct a; [simpl in E; contradiction | discriminate].
Qed.

Lemma last_plain (seg : str) :
  plain_segment seg = true -> N.eqb (last seg 0%N) SLASH = false.
Proof.
  unfold plain_segment. intros H.
  apply andb_true_iff in H as [H Hall].
  apply andb_true_iff in H as [H _]. apply andb_true_iff in H as [Hne _].
  destruct seg as [|c seg]; [discriminate|]. clear Hne.
  revert c Hall. induction seg as [|d seg IH]; intros c Hall.
  - simpl in *. apply andb_true_iff in Hall as [Hc _].
    apply negb_true_iff in Hc. exact Hc.
  - change (last (c :: d :: seg) 0%N) with (last (d :: seg) 0%N).
    apply IH. simpl in Hall. apply andb_true_iff in Hall as [_ Hall].
    exact Hall.
Qed.

Lemma normalize_segment_plain (allow : bool) (acc : list str) (seg : str) :
  plain_segment seg = true ->
  path.normalize_segment allow acc seg = seg :: acc.
Proof.
  unfold plain_segment, path.normalize_segment. intros H.
  apply andb_true_iff in H as [H _].
  apply andb_true_iff in H as [H H3]. apply andb_true_iff in H as [H1 H2].
  apply negb_true_iff in H1, H2, H3. rewrite H1, H2, H3. reflexivity.
Qed.

(** A root-relative path of one plain segment, joined onto a normalized
    root that is neither [.] nor ends by a slash, is the root, a slash and
    the segment. *)
Lemma join_normalized_root (root seg : str) :
  path.normalize root = root ->
  N.eqb (last root 0%N) SLASH = false ->
  root <> lit "." ->
  plain_segment seg = true ->
  path.join root (SLASH :: seg) = root ++ SLASH :: seg.
Proof.
  intros Hn Hl Hd Hs.
  destruct root as [|c0 r0]; [discriminate Hn|].
  assert (Hseg : seg <> []).
  { unfold plain_segment in Hs. destruct seg; [discriminate Hs | discriminate]. }
  assert (Hlast : N.eqb (last ((c0 :: r0) ++ SLASH :: SLASH :: seg) 0%N) SLASH
                  = false).
  { replace ((c0 :: r0) ++ SLASH :: SLASH :: seg)
      with (((c0 :: r0) ++ [SLASH; SLASH]) ++ seg)
      by (rewrite <- app_assoc; reflexivity).
    rewrite last_append by exact Hseg. apply last_plain. exact Hs. }
  assert (Hsplit : path.split ((c0 :: r0) ++ SLASH :: SLASH :: seg)
                   = path.split (c0 :: r0) ++ [[]; seg]).
  { rewrite split_app_slash. f_equal. cbn [path.split].
    change (N.eqb SLASH SLASH) with true. cbv iota.
    rewrite split_plain; [reflexivity|].
    unfold plain_segment in Hs. apply andb_true_iff in Hs as [_ Hs]. exact Hs. }
  unfold path.join, path.normalize in *.
  change ((c0 :: r0) ++ SLASH :: SLASH :: seg)
    with (c0 :: (r0 ++ SLASH :: SLASH :: seg)) in *.
  cbv iota. rewrite Hlast. rewrite Hl in Hn.
  unfold path.normalizeString in *.
  rewrite Hsplit, fold_left_app. cbn [fold_left].
  set (acc := fold_left (path.normalize_segment (negb (N.eqb c0 SLASH)))
                (path.split (c0 :: r0)) []) in *.
  change (path.normalize_segment (negb (N.eqb c0 SLASH)) acc [])
    with acc.
  rewrite normalize_segment_plain by exact Hs.
  cbn [rev].
  assert (Hempty : forall u : str,
             u = [] ->
             (if N.eqb c0 SLASH then [SLASH] else lit ".") = c0 :: r0 -> False).
  { intros u _ Hroot. destruct (N.eqb c0 SLASH).
    - rewrite <- Hroot in Hl. discriminate Hl.
    - apply Hd. symmetry. exact Hroot. }
  destruct (rev acc) as [|s0 ss] eqn:Hacc.
  { exfalso. apply (Hempty [] eq_refl). exact Hn. }
  rewrite unsplit_snoc by discriminate.
  destruct (path.unsplit (s0 :: ss)) as [|x xs] eqn:Hu.
  { exfalso. apply (Hempty [] eq_refl). exact Hn. }
  rewrite <- Hn. destruct (N.eqb c0 SLASH); reflexivity.
Qed.

(* ================================================================== *)
(** ** scanHTML *)

Lemma scanJS_step (static_imports : str -> list str) (fuel : nat)
      (file : str) (scanned il : list str) :
  scanJS static_imports (S fuel) file (scanned, il)
  = if has scanned file then Ret (scanned, il)
    else for_each (scanJS static_imports fuel) (static_imports file)
           (add scanned file, add_all (add il file) (static_imports file)).
Proof. reflexivity. Qed.

Lemma scan_imports_step (static_imports : str -> list str) (fuel i : nat)
      (scanned allJS : list str) :
  scan_imports static_imports (S fuel) i (scanned, allJS)
  = match nth_error allJS i with
    | None => Ret (scanned, allJS)
    | Some file =>
        '(scanned', returned) <-
          scanJS static_imports fuel file (scanned, allJS) ;;
        scan_imports static_imports fuel (S i)
          (scanned', add_all returned returned)
    end.
Proof. reflexivity. Qed.

Lemma scan_link_script_page (root file : str) :
  scan_document root file link_script_page
  = Ret {| allCSSImports := [path.join root (lit "/a.css")];
           allJSImports := [path.join root (lit "/b.js")];
           entries := [path.join root (lit "/b.js")] |}.
Proof. vm_compute. reflexivity. Qed.

(** On the page whose link and script stand right behind the opening tag of
    the body, scanHTML records the css [root/a.css], the js [root/b.js] and
    the entry [root/b.js], where root is the build directory: a normalized
    path other than [.] that does not end by a slash. The script imports
    nothing. *)
Lemma link_script_page_sets
      (static_imports : str -> list str) (readFile : str -> option str)
      (fuel : nat) (root file : str) :
  path.normalize root = root ->
  N.eqb (last root 0%N) SLASH = false ->
  root <> lit "." ->
  readFile file = Some link_script_page ->
  static_imports (root ++ lit "/b.js") = [] ->
  2 <= fuel ->
  scanHTML_file static_imports readFile fuel root file
  = Ret {| entry := [root ++ lit "/b.js"];
           css := [root ++ lit "/a.css"];
           js := [root ++ lit "/b.js"] |}.
Proof.
  intros Hn Hl Hd Hread Himp Hf.
  unfold scanHTML_file. rewrite Hread, scan_link_script_page.
  change (lit "/a.css") with (SLASH :: lit "a.css").
  change (lit "/b.js") with (SLASH :: lit "b.js") in *.
  rewrite !join_normalized_root by (assumption || reflexivity).
  cbn [bind allJSImports allCSSImports entries].
  destruct fuel as [|[|fuel]]; try lia.
  rewrite scan_imports_step. cbn [nth_error].
  rewrite scanJS_step. cbn [has existsb]. rewrite Himp. cbn [for_each bind].
  set_steps.
  destruct fuel; reflexivity.
Qed.

(** C2. A link and a script in the body are not always recorded. On the
    page whose head holds a title, all on one line, the text of the title
    opens a token of type any that runs to the end of the line and takes the
    link and the script with it: the lexer ends without an exception, no
    token is the opening tag of the link or of the script, and scanHTML
    records three empty sets, whatever the import graph. On the same body
    without the title before it, the claimed sets are recorded. *)
Theorem C2_tags_behind_text_are_missed
        (static_imports : str -> list str) (fuel : nat) :
  types_of (fst (tokens titled_link_script_page))
  = [tagOpen; tagEnd; tagOpen; tagEnd; tagOpen; tagEnd; any]
  /\ snd (tokens titled_link_script_page) = Ret tt
  /\ values_of any (fst (tokens titled_link_script_page))
     = [lit "t</title></head><body><link href=" ++ dq (lit "/a.css")
        ++ lit "><script src=" ++ dq (lit "/b.js")
        ++ lit "></script></body></html>"]
  /\ scanHTML_file static_imports
       (only_file index_html titled_link_script_page) (S fuel)
       build_root index_html
     = Ret {| entry := []; css := []; js := [] |}
  /\ scanHTML_file (fun _ => []) (only_file index_html link_script_page) 2
       build_root index_html
     = Ret {| entry := [lit "/build/b.js"];
              css := [lit "/build/a.css"];
              js := [lit "/build/b.js"] |}.
Proof.
  split; [vm_compute; reflexivity|].
  split; [vm_compute; reflexivity|].
  split; [vm_compute; reflexivity|].
  split; [reflexivity | vm_compute; reflexivity].
Qed.

(** C3. The scan for the [href] of a link stops at the first attribute name,
    whatever it is: for a link whose [rel] precedes its [href], the path
    added to the css set is the value of [rel], resolved against the
    directory of the file, and not the value of [href]. *)
Theorem C3_link_takes_first_attribute
        (static_imports : str -> list str) (fuel : nat) :
  scanHTML_file static_imports (only_file index_html link_rel_href) (S fuel)
    build_root index_html
  = Ret {| entry := []; css := [lit "/build/stylesheet"]; js := [] |}.
Proof. reflexivity. Qed.

(** C4. A link without [href] is not skipped. When the link has no attribute
    and is the last tag, the scan for an attribute name runs off the end of
    the tokens and reads a property of [undefined]; when it has another
    attribute, the value of that attribute is added to the css set; and when
    a script follows it, the scan runs past the end of the link into the
    script, whose [src] lands in the css set and in no other. *)
Theorem C4_link_without_href
        (static_imports : str -> list str) (fuel : nat) :
  scanHTML_file static_imports (only_file index_html link_bare) fuel
    build_root index_html = Raise TypeError
  /\ scanHTML_file static_imports (only_file index_html link_rel_only) (S fuel)
       build_root index_html
     = Ret {| entry := []; css := [lit "/build/icon"]; js := [] |}
  /\ scanHTML_file static_imports (only_file index_html link_then_script)
       (S fuel) build_root index_html
     = Ret {| entry := []; css := [lit "/build/b.js"]; js := [] |}.
Proof. repeat split; reflexivity. Qed.

(* ================================================================== *)
(** ** The transitive scan *)

(** *** Sets of paths *)

Lemma has_In (s : list str) (x : str) : has s x = true <-> In x s.
Proof.
  unfold has. rewrite existsb_exists. split.
  - intros (y & Hy & He). apply str_eqb_eq in He. subst. exact Hy.
  - intros H. exists x. split; [exact H | apply str_eqb_refl].
Qed.

Lemma has_not_In (s : list str) (x : str) : has s x = false <-> ~ In x s.
Proof.
  rewrite <- has_In. destruct (has s x); split; intros H;
    try discriminate; try reflexivity; try (intros H'; discriminate).
  exfalso. apply H. reflexivity.
Qed.

Lemma In_add (s : list str) (x y : str) : In x (add s y) <-> In x s \/ x = y.
Proof.
  unfold add. destruct (has s y) eqn:E.
  - apply has_In in E. split; [auto|]. intros [H | H]; subst; auto.
  - rewrite in_app_iff. simpl. split; intros [H | H]; auto.
    + destruct H as [H | []]. auto.
Qed.

Lemma NoDup_add (s : list str) (y : str) : NoDup s -> NoDup (add s y).
Proof.
  intros H. unfold add. destruct (has s y) eqn:E; [exact H|].
  apply has_not_In in E. apply NoDup_app; auto.
  - constructor; [intros [] | constructor].
  - intros x Hx [Hy | []]. subst. contradiction.
Qed.

Lemma add_extends (s : list str) (y : str) : exists t, add s y = s ++ t.
Proof.
  unfold add. destruct (has s y).
  - exists []. rewrite app_nil_r. reflexivity.
  - exists [y]. reflexivity.
Qed.

Lemma In_add_all (ys s : list str) (x : str) :
  In x (add_all s ys) <-> In x s \/ In x ys.
Proof.
  unfold add_all. revert s. induction ys as [|y ys IH]; intros s; simpl.
  - tauto.
  - rewrite IH, In_add. split; intros H; intuition (subst; auto).
Qed.

Lemma NoDup_add_all (ys s : list str) : NoDup s -> NoDup (add_all s ys).
Proof.
  unfold add_all. revert s. induction ys as [|y ys IH]; intros s H; simpl.
  - exact H.
  - apply IH, NoDup_add, H.
Qed.

Lemma add_all_extends (ys s : list str) : exists t, add_all s ys = s ++ t.
Proof.
  unfold add_all. revert s. induction ys as [|y ys IH]; intros s; simpl.
  - exists []. rewrite app_nil_r. reflexivity.
  - destruct (add_extends s y) as [t1 H1]. destruct (IH (add s y)) as [t2 H2].
    exists (t1 ++ t2). rewrite H2, H1, app_assoc. reflexivity.
Qed.

(** Adding elements that are in the set already changes nothing. *)
Lemma add_all_present (ys s : list str) :
  incl ys s -> add_all s ys = s.
Proof.
  unfold add_all. revert s. induction ys as [|y ys IH]; intros s H;
    cbn [fold_left].
  - reflexivity.
  - assert (Hy : has s y = true) by (apply has_In, H; left; reflexivity).
    replace (add s y) with s by (unfold add; rewrite Hy; reflexivity).
    apply IH.
    intros x Hx. apply H. right. exact Hx.
Qed.

Lemma length_add_new (s : list str) (y : str) :
  has s y = false -> List.length (add s y) = S (List.length s).
Proof.
  intros H. unfold add. rewrite H, length_app. simpl. lia.
Qed.

(** *** A cycle of two files *)

(** With b importing c and c importing b, the scan seeded with b ends and
    leaves exactly b and c in both sets: the second visit of b finds it
    among the scanned files and returns. *)
Lemma scan_two_file_cycle
      (static_imports : str -> list str) (b c : str) (fuel : nat) :
  b <> c ->
  static_imports b = [c] ->
  static_imports c = [b] ->
  4 <= fuel ->
  scan_imports static_imports fuel 0 ([], [b]) = Ret ([b; c], [b; c]).
Proof.
  intros Hne Hb Hc Hf.
  assert (Hbc : str_eqb b c = false) by (apply str_eqb_neq; exact Hne).
  assert (Hcb : str_eqb c b = false) by (apply str_eqb_neq; congruence).
  destruct fuel as [|[|[|[|fuel]]]]; try lia.
  rewrite scan_imports_step. cbn [nth_error].
  rewrite scanJS_step. cbn [has existsb]. rewrite Hb.
  cbn [for_each]. rewrite scanJS_step. set_steps. rewrite Hc.
  cbn [for_each]. rewrite scanJS_step. set_steps.
  rewrite scan_imports_step. cbn [nth_error].
  rewrite scanJS_step. set_steps.
  destruct fuel; reflexivity.
Qed.

(** *** Finite import graphs *)

Section Scan.

Variable static_imports : str -> list str.
Variables seeds U : list str.

(** The files reachable from the seeds are finitely many: [U] lists them. *)
Hypothesis U_covers : forall f, reachable static_imports seeds f -> In f U.

Lemma inv_bounds (sc il : list str) :
  scan_inv static_imports seeds (sc, il) ->
  List.length sc <= List.length U /\ List.length il <= List.length U.
Proof.
  intros (Hsc & Hil & Hincl & Hreach & _). split.
  - apply NoDup_incl_length; [exact Hsc|].
    intros f Hf. apply U_covers, Hreach, Hincl, Hf.
  - apply NoDup_incl_length; [exact Hil|].
    intros f Hf. apply U_covers, Hreach, Hf.
Qed.

(** Marking a reachable file as scanned and listing it with its imports
    keeps the invariant. *)
Lemma inv_step (sc il : list str) (file : str) :
  scan_inv static_imports seeds (sc, il) ->
  reachable static_imports seeds file ->
  scan_inv static_imports seeds
    (add sc file, add_all (add il file) (static_imports file)).
Proof.
  intros (Hsc & Hil & Hincl & Hreach & Hclosed) Hfile.
  unfold scan_inv. cbv beta iota. split; [|split; [|split; [|split]]].
  - apply NoDup_add, Hsc.
  - apply NoDup_add_all, NoDup_add, Hil.
  - intros f Hf. apply In_add_all. left. apply In_add.
    apply In_add in Hf as [Hf | Hf]; auto.
  - intros f Hf. apply In_add_all in Hf as [Hf | Hf].
    + apply In_add in Hf as [Hf | Hf]; [auto | subst; exact Hfile].
    + eapply reach_import; eauto.
  - intros f g Hf Hg. apply In_add_all.
    apply In_add in Hf as [Hf | Hf].
    + left. apply In_add. left. eapply Hclosed; eauto.
    + subst f. right. exact Hg.
Qed.

Lemma for_each_scan (fuel : nat) :
  scanned_after static_imports seeds U fuel ->
  forall (l sc il : list str),
    scan_inv static_imports seeds (sc, il) ->
    (forall i, In i l -> reachable static_imports seeds i) ->
    List.length U < fuel + List.length sc ->
    exists sc' il',
      for_each (scanJS static_imports fuel) l (sc, il) = Ret (sc', il')
      /\ scan_inv static_imports seeds (sc', il')
      /\ incl sc sc'
      /\ exists t, il' = il ++ t.
Proof.
  intros Hscan. induction l as [|i l IH]; intros sc il Hinv Hl Hfuel.
  - exists sc, il. split; [reflexivity|]. split; [exact Hinv|].
    split; [apply incl_refl|]. exists []. rewrite app_nil_r. reflexivity.
  - cbn [for_each].
    destruct (Hscan i sc il Hinv (Hl i (or_introl eq_refl)) Hfuel)
      as (sc1 & il1 & H1 & Hinv1 & Hincl1 & _ & t1 & Ht1).
    rewrite H1. cbn [bind].
    destruct (IH sc1 il1 Hinv1) as (sc2 & il2 & H2 & Hinv2 & Hincl2 & t2 & Ht2).
    + intros j Hj. apply Hl. right. exact Hj.
    + destruct Hinv as (Hsc & _).
      pose proof (NoDup_incl_length Hsc Hincl1). lia.
    + exists sc2, il2. split; [exact H2|]. split; [exact Hinv2|].
      split; [eapply incl_tran; eauto|].
      exists (t1 ++ t2). rewrite Ht2, Ht1, app_assoc. reflexivity.
Qed.

(** scanJS ends once its fuel exceeds the number of files not yet scanned. *)
Lemma scanJS_ok (fuel : nat) : scanned_after static_imports seeds U fuel.
Proof.
  induction fuel as [|fuel IH]; intros file sc il Hinv Hfile Hfuel.
  { destruct (inv_bounds _ _ Hinv). lia. }
  rewrite scanJS_step. destruct (has sc file) eqn:Hhas.
  - exists sc, il. split; [reflexivity|]. split; [exact Hinv|].
    split; [apply incl_refl|]. split; [apply has_In; exact Hhas|].
    exists []. rewrite app_nil_r. reflexivity.
  - destruct (for_each_scan fuel IH (static_imports file) (add sc file)
                (add_all (add il file) (static_imports file)))
      as (sc' & il' & H' & Hinv' & Hincl' & t & Ht).
    + apply inv_step; assumption.
    + intros i Hi. eapply reach_import; eauto.
    + rewrite length_add_new by exact Hhas. lia.
    + exists sc', il'. split; [exact H'|]. split; [exact Hinv'|].
      split; [|split].
      * intros f Hf. apply Hincl', In_add. left. exact Hf.
      * apply Hincl', In_add. right. reflexivity.
      * destruct (add_all_extends (static_imports file) (add il file))
          as [t2 Ht2].
        destruct (add_extends il file) as [t1 Ht1].
        exists (t1 ++ t2 ++ t). rewrite Ht, Ht2, Ht1, !app_assoc. reflexivity.
Qed.

(** The loop over the live set ends with every listed file scanned. *)
Lemma scan_imports_ok (fuel : nat) :
  forall (i : nat) (sc il : list str),
    scan_inv static_imports seeds (sc, il) ->
    (forall j f, j < i -> nth_error il j = Some f -> In f sc) ->
    i <= List.length il ->
    2 * List.length U + 2 <= fuel + i ->
    exists sc' il',
      scan_imports static_imports fuel i (sc, il) = Ret (sc', il')
      /\ scan_inv static_imports seeds (sc', il')
      /\ incl il' sc'
      /\ exists t, il' = il ++ t.
Proof.
  induction fuel as [|fuel IH]; intros i sc il Hinv Hdone Hi Hfuel.
  { destruct (inv_bounds _ _ Hinv). lia. }
  rewrite scan_imports_step. destruct (nth_error il i) as [file|] eqn:Hnth.
  - assert (Hlt : i < List.length il)
      by (apply nth_error_Some; rewrite Hnth; discriminate).
    assert (Hfile : reachable static_imports seeds file).
    { destruct Hinv as (_ & _ & _ & Hreach & _).
      apply Hreach. eapply nth_error_In; eauto. }
    destruct (inv_bounds _ _ Hinv) as [_ Hil].
    destruct (scanJS_ok fuel file sc il Hinv Hfile)
      as (sc1 & il1 & H1 & Hinv1 & Hincl1 & Hin1 & t1 & Ht1); [lia|].
    rewrite H1. cbn [bind].
    rewrite add_all_present by apply incl_refl.
    destruct (IH (S i) sc1 il1 Hinv1) as (sc2 & il2 & H2 & Hinv2 & Hall2 & t2 & Ht2).
    + intros j f Hj Hf. rewrite Ht1 in Hf.
      rewrite nth_error_app1 in Hf by lia.
      destruct (Nat.eq_dec j i) as [-> | Hne].
      * rewrite Hnth in Hf. inversion Hf; subst. exact Hin1.
      * apply Hincl1. apply (Hdone j f); [lia | exact Hf].
    + rewrite Ht1, length_app. lia.
    + lia.
    + exists sc2, il2. split; [exact H2|]. split; [exact Hinv2|].
      split; [exact Hall2|].
      exists (t1 ++ t2). rewrite Ht2, Ht1, app_assoc. reflexivity.
  - apply nth_error_None in Hnth.
    exists sc, il. split; [reflexivity|]. split; [exact Hinv|]. split.
    + intros f Hf. apply In_nth_error in Hf as [j Hj].
      apply (Hdone j f); [|exact Hj].
      assert (j < List.length il)
        by (apply nth_error_Some; rewrite Hj; discriminate). lia.
    + exists []. rewrite app_nil_r. reflexivity.
Qed.

(** Seeded with a set of files, the scan ends and its import list holds the
    reachable files, each once. *)
Lemma scan_imports_reachable (fuel : nat) :
  NoDup seeds ->
  2 * List.length U + 2 <= fuel ->
  exists sc all,
    scan_imports static_imports fuel 0 ([], seeds) = Ret (sc, all)
    /\ NoDup all
    /\ forall f, In f all <-> reachable static_imports seeds f.
Proof.
  intros Hseeds Hfuel.
  destruct (scan_imports_ok fuel 0 [] seeds)
    as (sc & all & H & Hinv & Hall & t & Ht).
  - unfold scan_inv. cbv beta iota.
    split; [constructor|]. split; [exact Hseeds|].
    split; [intros f []|]. split.
    + intros f Hf. apply reach_seed. exact Hf.
    + intros f g [].
  - intros j f Hj. lia.
  - lia.
  - lia.
  - exists sc, all. destruct Hinv as (_ & Hnd & _ & Hreach & Hclosed).
    split; [exact H|]. split; [exact Hnd|]. intros f. split; [apply Hreach|].
    intros Hf. induction Hf as [f Hf | f g _ IH Hg].
    + rewrite Ht. apply in_or_app. left. exact Hf.
    + eapply Hclosed; eauto.
Qed.

End Scan.

Lemma cycle_reachable (f : str) :
  reachable cycle_imports [b_js] f -> In f [b_js; c_js].
Proof.
  induction 1 as [f Hf | f g _ IH Hg].
  - destruct Hf as [Hf | []]. left. exact Hf.
  - destruct IH as [<- | [<- | []]]; vm_compute in Hg;
      destruct Hg as [<- | []]; simpl; auto.
Qed.

(** C7. The transitive scan ends on every import graph whose reachable
    files are finitely many, cycles included, and its js set then holds
    exactly the files reachable from the seeds, each once. With b importing
    c and c importing b, the scan seeded with b ends with exactly b and c. *)
Theorem C7_scan_ends_on_cycle :
  (forall (static_imports : str -> list str) (seeds U : list str)
          (fuel : nat),
      NoDup seeds ->
      (forall f, reachable static_imports seeds f -> In f U) ->
      2 * List.length U + 2 <= fuel ->
      exists sc all,
        scan_imports static_imports fuel 0 ([], seeds) = Ret (sc, all)
        /\ NoDup all
        /\ forall f, In f all <-> reachable static_imports seeds f)
  /\ (forall (static_imports : str -> list str) (b c : str) (fuel : nat),
         b <> c ->
         static_imports b = [c] ->
         static_imports c = [b] ->
         4 <= fuel ->
         scan_imports static_imports fuel 0 ([], [b]) = Ret ([b; c], [b; c])).
Proof.
  split.
  - intros static_imports seeds U fuel Hnd Hcover Hfuel.
    apply (scan_imports_reachable static_imports seeds U Hcover fuel Hnd Hfuel).
  - apply scan_two_file_cycle.
Qed.

Lemma C7_scan_ends_on_cycle_witness :
  scan_imports cycle_imports 4 0 ([], [b_js]) = Ret ([b_js; c_js], [b_js; c_js])
  /\ exists sc all,
       scan_imports cycle_imports 6 0 ([], [b_js]) = Ret (sc, all)
       /\ NoDup all
       /\ forall f, In f all <-> reachable cycle_imports [b_js] f.
Proof.
  split.
  - apply (proj2 C7_scan_ends_on_cycle cycle_imports b_js c_js 4).
    + discriminate.
    + reflexivity.
    + reflexivity.
    + lia.
  - apply (proj1 C7_scan_ends_on_cycle cycle_imports [b_js] [b_js; c_js] 6).
    + constructor; [intros [] | constructor].
    + exact cycle_reachable.
    + simpl. lia.
Defined.

(* ================================================================== *)
(** ** injectHTML *)

Lemma insert_after (R tail ins : str) :
  insert (R ++ tail) ins (List.length R) = (R ++ ins) ++ tail.
Proof.
  unfold insert, substring_to, substring_from.
  rewrite firstn_app, skipn_app, Nat.sub_diag, firstn_all, skipn_all.
  simpl. rewrite app_nil_r, app_assoc. reflexivity.
Qed.

(** One insertion lands right behind the part [R] of the text that precedes
    the token, and the running offset follows. *)
Lemma inject_at_spec (nd : token) (m : str) (st : injection) (R tail : str) :
  code st = R ++ tail ->
  offset nd + charOffset st = List.length R ->
  code (inject_at nd m st) = (R ++ insertion_of (cur_indent st) m) ++ tail
  /\ offset nd + charOffset (inject_at nd m st)
     = List.length (R ++ insertion_of (cur_indent st) m)
  /\ cur_indent (inject_at nd m st) = cur_indent st.
Proof.
  intros Hc Ho. unfold inject_at. simpl. rewrite Hc, Ho, insert_after.
  rewrite length_app. repeat split; lia.
Qed.

Lemma inject_node_spec (h b : option str) (nd : token) (st : injection)
      (R tail : str) :
  code st = R ++ tail ->
  offset nd + charOffset st = List.length R ->
  let cur := if token_type_beq (type nd) indent then value nd
             else cur_indent st in
  let R' := R ++ (if given h && is_tagClose nd (lit "</head>")
                  then insertion_of cur (content h) else [])
              ++ (if given b && is_tagClose nd (lit "</body>")
                  then insertion_of cur (content b) else []) in
  code (inject_node h b nd st) = R' ++ tail
  /\ offset nd + charOffset (inject_node h b nd st) = List.length R'
  /\ cur_indent (inject_node h b nd st) = cur.
Proof.
  intros Hc Ho cur R'. subst cur R'. unfold inject_node.
  set (st1 := if token_type_beq (type nd) indent
              then {| code := code st; cur_indent := value nd;
                      charOffset := charOffset st |} else st).
  assert (H1 : code st1 = R ++ tail /\ offset nd + charOffset st1 = List.length R
               /\ cur_indent st1 = if token_type_beq (type nd) indent
                                   then value nd else cur_indent st).
  { subst st1. destruct (token_type_beq (type nd) indent); simpl; auto. }
  destruct H1 as (Hc1 & Ho1 & Hi1). rewrite <- Hi1. clearbody st1.
  destruct (given h && is_tagClose nd (lit "</head>")).
  - destruct (inject_at_spec nd (content h) st1 R tail Hc1 Ho1)
      as (Hc2 & Ho2 & Hi2).
    destruct (given b && is_tagClose nd (lit "</body>")).
    + destruct (inject_at_spec nd (content b) _ _ tail Hc2 Ho2)
        as (Hc3 & Ho3 & Hi3).
      rewrite Hi2 in *. rewrite Hc3, Ho3, Hi3.
      rewrite <- !app_assoc. auto.
    + rewrite Hc2, Ho2, Hi2, app_nil_r. auto.
  - destruct (given b && is_tagClose nd (lit "</body>")).
    + destruct (inject_at_spec nd (content b) st1 R tail Hc1 Ho1)
        as (Hc3 & Ho3 & Hi3).
      rewrite Hc3, Ho3, Hi3. auto.
    + simpl. rewrite app_nil_r. auto.
Qed.

(** The loop, started on a token whose text begins the untouched rest of the
    text, produces the document [injected] describes. *)
Lemma inject_loop_spec (h b : option str) (f2 : nat) :
  forall (fuel : nat) (nd : token) (html : lexer) (st : injection)
         (ts : list token) (R : str),
    drain f2 html = (ts, Ret tt) ->
    List.length ts < fuel ->
    index html = offset nd + List.length (text nd) ->
    code st = R ++ text nd ++ texts ts ->
    offset nd + charOffset st = List.length R ->
    inject_loop fuel h b (Some nd) html st
    = Ret (R ++ injected h b (cur_indent st) (nd :: ts)).
Proof.
  induction f2 as [|f2 IH]; intros fuel nd html st ts R Hd Hf Hi Hc Ho;
    simpl in Hd; [discriminate|].
  destruct fuel as [|fuel]; [lia|].
  destruct (inject_node_spec h b nd st R (text nd ++ texts ts) Hc Ho)
    as (Hc' & Ho' & Hi').
  cbn [inject_loop injected].
  match type of Hc' with code _ = ?X ++ _ => set (R' := X) in * end.
  assert (HR : R ++ injected h b (cur_indent st) (nd :: ts)
               = (R' ++ text nd)
                   ++ injected h b (cur_indent (inject_node h b nd st)) ts).
  { subst R'. rewrite Hi'. simpl. rewrite <- !app_assoc. reflexivity. }
  cbn [injected] in HR. rewrite HR.
  destruct (next html) as [[[t|] html']| |] eqn:E; try discriminate.
  - destruct (drain f2 html') as [ts' e'] eqn:D. inversion Hd; subst ts e'.
    cbn [bind].
    apply next_token in E as (_ & Hoff & Hidx & _ & _).
    apply IH.
    + exact D.
    + simpl in Hf. lia.
    + lia.
    + rewrite Hc'. unfold texts. simpl. rewrite <- !app_assoc. reflexivity.
    + rewrite length_app. lia.
  - inversion Hd; subst ts. cbn [bind]. destruct fuel; cbn [inject_loop];
      rewrite Hc'; unfold texts; simpl; rewrite <- !app_assoc; reflexivity.
Qed.

Lemma injected_plain (cur : str) (ts : list token) :
  injected None None cur ts = texts ts.
Proof.
  revert cur; induction ts as [|t ts IH]; intros cur; [reflexivity|].
  unfold texts in *. simpl. rewrite IH. reflexivity.
Qed.

(** On a document the tokenizer reads to its end, injectHTML returns the
    document [injected] describes. *)
Lemma injectHTML_injected (doc : str) (h b : option str) (ts : list token) :
  tokens doc = (ts, Ret tt) ->
  injectHTML doc h b = Ret (injected h b [] ts).
Proof.
  intros Ht. pose proof (tokens_roundtrip _ _ Ht) as [Hrt _].
  pose proof (drain_nonempty _ _ _ _ Ht) as Hne.
  unfold tokens in Ht. unfold injectHTML. simpl in Ht.
  destruct (next (parseHTML doc)) as [[[t|] html']| |] eqn:E; try discriminate.
  - destruct (drain (List.length doc) html') as [ts' e'] eqn:D.
    inversion Ht; subst ts e'. cbn [bind].
    apply next_token in E as (_ & Hoff & Hidx & _ & _). simpl in Hoff, Hidx.
    rewrite (inject_loop_spec h b (List.length doc) (S (List.length doc))
               t html' {| code := doc; cur_indent := []; charOffset := 0 |}
               ts' [] D).
    + reflexivity.
    + apply texts_length in Hne. rewrite Hrt in Hne. simpl in Hne. lia.
    + lia.
    + simpl. rewrite <- Hrt. reflexivity.
    + simpl. lia.
  - inversion Ht; subst ts. cbn [bind inject_loop]. simpl.
    unfold texts in Hrt. simpl in Hrt. rewrite <- Hrt. reflexivity.
Qed.

(** C6. On the document [<html><head></head></html>], injectHTML puts a tab,
    the markup given as headEnd and a line feed right before [</head>] and
    leaves the text before and behind it as it was. On every document the
    tokenizer reads to its end, each insertion stands right before the
    closing tag that caused it, which is where the offset of that token
    plus the lengths of the earlier insertions points, and without the
    insertions the result is the document. *)
Theorem C6_injectHTML_inserts_before_closing_tags :
  (forall headEnd : str,
      truthy headEnd = true ->
      injectHTML (lit "<html><head></head></html>") (Some headEnd) None
      = Ret (lit "<html><head>" ++ ([TAB] ++ headEnd ++ [LF])
               ++ lit "</head></html>"))
  /\ (forall (doc : str) (headEnd bodyEnd : option str) (ts : list token),
         tokens doc = (ts, Ret tt) ->
         injectHTML doc headEnd bodyEnd = Ret (injected headEnd bodyEnd [] ts)
         /\ injected None None [] ts = doc).
Proof.
  split.
  - intros headEnd Hh.
    rewrite (injectHTML_injected (lit "<html><head></head></html>")
               (Some headEnd) None
               (fst (tokens (lit "<html><head></head></html>"))))
      by (vm_compute; reflexivity).
    destruct headEnd as [|c hd]; [discriminate|]. reflexivity.
  - intros doc h b ts Ht. split.
    + apply injectHTML_injected. exact Ht.
    + rewrite injected_plain. apply (tokens_roundtrip _ _ Ht).
Qed.

Lemma C6_injectHTML_witness :
  injectHTML (lit "<html><head></head></html>") (Some (lit "<X/>")) None
  = Ret (lit "<html><head>" ++ ([TAB] ++ lit "<X/>" ++ [LF])
           ++ lit "</head></html>")
  /\ injectHTML (lit "<html><head></head></html>") (Some (lit "<X/>")) None
     = Ret (injected (Some (lit "<X/>")) None []
              (fst (tokens (lit "<html><head></head></html>")))).
Proof.
  split.
  - apply (proj1 C6_injectHTML_inserts_before_closing_tags (lit "<X/>")).
    reflexivity.
  - apply (proj2 C6_injectHTML_inserts_before_closing_tags
             (lit "<html><head></head></html>") (Some (lit "<X/>")) None
             (fst (tokens (lit "<html><head></head></html>")))).
    vm_compute. reflexivity.
Defined.

Lemma inject_loop_total (h b : option str) (fuel : nat) :
  forall (node : option token) (html : lexer) (st : injection),
    (node <> None -> List.length (remaining html) < fuel) ->
    inject_loop fuel h b node html st = Raise InvalidSyntax
    \/ (exists doc, inject_loop fuel h b node html st = Ret doc).
Proof.
  induction fuel as [|fuel IH]; intros node html st Hlt.
  { destruct node as [t|]; [|right; eexists; reflexivity].
    assert (Some t <> None) as Hn by discriminate. apply Hlt in Hn. lia. }
  destruct node as [nd|]; [|right; eexists; reflexivity].
  assert (Hr : List.length (remaining html) <= fuel).
  { assert (Some nd <> None) as Hn by discriminate. apply Hlt in Hn. lia. }
  cbn [inject_loop].
  destruct (next html) as [[nxt h3]| |] eqn:E; cbn [bind].
  - apply IH. intros Hn. apply (next_remaining _ _ _ E) in Hn. lia.
  - left. apply next_raises in E. subst e. reflexivity.
  - exfalso. eapply next_no_timeout; eauto.
Qed.

(** injectHTML ends: it returns a document, or throws moo's invalid syntax. *)
Theorem injectHTML_total (htmlDoc : str) (headEnd bodyEnd : option str) :
  injectHTML htmlDoc headEnd bodyEnd = Raise InvalidSyntax
  \/ (exists doc, injectHTML htmlDoc headEnd bodyEnd = Ret doc).
Proof.
  unfold injectHTML.
  destruct (next (parseHTML htmlDoc)) as [[nxt html]| |] eqn:E; cbn [bind].
  - apply inject_loop_total. intros Hn.
    apply (next_remaining _ _ _ E) in Hn.
    unfold remaining at 2 in Hn. simpl in Hn. lia.
  - left. apply next_raises in E. subst e. reflexivity.
  - exfalso. eapply next_no_timeout; eauto.
Qed.

(* ================================================================== *)
(** ** preloadJS *)

Lemma seek_value_in_tag_total (fuel : nat) :
  forall (node : token) (html : lexer),
    List.length (remaining html) < fuel ->
    advances html (seek_value_in_tag fuel node html).
Proof.
  induction fuel as [|fuel IH]; intros node html Hlt; [lia|].
  cbn [seek_value_in_tag].
  destruct (token_type_beq (type node) attrValue).
  { right. exists node, html. auto. }
  destruct (next html) as [[[n|] html']| |] eqn:E; cbn [bind].
  - pose proof (next_shortens _ _ _ E) as Hs.
    destruct (ends_tag n).
    + right. exists n, html'. split; [reflexivity | lia].
    + destruct (IH n html') as [(e & He & Hx) | (a & h2 & Ha & Hl)]; [lia | |].
      * left. exists e. auto.
      * right. exists a, h2. split; [exact Ha | lia].
  - left. exists TypeError. unfold scan_exn. auto.
  - left. exists e. apply next_raises in E. subst e. unfold scan_exn. auto.
  - exfalso. eapply next_no_timeout; eauto.
Qed.

Lemma script_attributes_total (fuel : nat) :
  forall (html : lexer) (src type_ : str),
    List.length (remaining html) < fuel ->
    (exists e, script_attributes fuel html src type_ = Raise e /\ scan_exn e)
    \/ (exists html' s t,
           script_attributes fuel html src type_ = Ret (html', s, t)
           /\ List.length (remaining html') <= List.length (remaining html)).
Proof.
  induction fuel as [|fuel IH]; intros html src type_ Hlt; [lia|].
  cbn [script_attributes].
  destruct (negb (truthy src) && negb (truthy type_)).
  2:{ right. exists html, src, type_. auto. }
  destruct (next html) as [[[node|] html']| |] eqn:E; cbn [bind].
  - pose proof (next_shortens _ _ _ E) as Hs.
    assert (Hstep :
      (exists e,
          (if token_type_beq (type node) attrName
           then if str_eqb (value node) (lit "src")
                then '(node0, html0) <- seek_value_in_tag fuel node html';;
                     Ret (node0, html0, value node0, type_)
                else if str_eqb (value node) (lit "type")
                     then '(node0, html0) <- seek_value_in_tag fuel node html';;
                          Ret (node0, html0, src, value node0)
                     else Ret (node, html', src, type_)
           else Ret (node, html', src, type_)) = Raise e /\ scan_exn e)
      \/ (exists n2 h2 s2 t2,
             (if token_type_beq (type node) attrName
              then if str_eqb (value node) (lit "src")
                   then '(node0, html0) <- seek_value_in_tag fuel node html';;
                        Ret (node0, html0, value node0, type_)
                   else if str_eqb (value node) (lit "type")
                        then '(node0, html0) <- seek_value_in_tag fuel node html';;
                             Ret (node0, html0, src, value node0)
                        else Ret (node, html', src, type_)
              else Ret (node, html', src, type_)) = Ret (n2, h2, s2, t2)
             /\ List.length (remaining h2) <= List.length (remaining html'))).
    { destruct (token_type_beq (type node) attrName);
        [|right; exists node, html', src, type_; auto].
      destruct (str_eqb (value node) (lit "src")).
      - destruct (seek_value_in_tag_total fuel node html')
          as [(e & He & Hx) | (a & h2 & Ha & Hl)]; [lia | |]; rewrite ?He, ?Ha.
        + left. exists e. auto.
        + right. exists a, h2, (value a), type_. auto.
      - destruct (str_eqb (value node) (lit "type"));
          [|right; exists node, html', src, type_; auto].
        destruct (seek_value_in_tag_total fuel node html')
          as [(e & He & Hx) | (a & h2 & Ha & Hl)]; [lia | |]; rewrite ?He, ?Ha.
        + left. exists e. auto.
        + right. exists a, h2, src, (value a). auto. }
    destruct Hstep as [(e & He & Hx) | (n2 & h2 & s2 & t2 & Ha & Hl)];
      rewrite ?He, ?Ha; cbn [bind].
    + left. exists e. auto.
    + destruct (ends_tag n2).
      * right. exists h2, s2, t2. split; [reflexivity | lia].
      * destruct (IH h2 s2 t2) as [(e & He & Hx) | (h3 & s3 & t3 & H3 & Hl3)];
          [lia | |].
        -- left. exists e. auto.
        -- right. exists h3, s3, t3. split; [exact H3 | lia].
  - left. exists TypeError. unfold scan_exn. auto.
  - left. exists e. apply next_raises in E. subst e. unfold scan_exn. auto.
  - exfalso. eapply next_no_timeout; eauto.
Qed.

(** The loop over the attributes of a script tag never returns with both
    [src] and [type] set: it stops as soon as one of them is. The branch for
    a module script, which needs both, is therefore never entered. *)
Lemma script_attributes_one (fuel : nat) :
  forall (html h : lexer) (src type_ s t : str),
    truthy src && truthy type_ = false ->
    script_attributes fuel html src type_ = Ret (h, s, t) ->
    truthy s && truthy t = false.
Proof.
  induction fuel as [|fuel IH]; intros html h src type_ s t Hone Hret;
    cbn [script_attributes] in Hret;
    destruct (negb (truthy src) && negb (truthy type_)) eqn:Hboth;
    try discriminate;
    try (inversion Hret; subst; exact Hone).
  apply andb_true_iff in Hboth as [Hs Ht].
  apply negb_true_iff in Hs, Ht.
  destruct (next html) as [[[node|] html']| |]; cbn [bind] in Hret;
    try discriminate.
  assert (Hstep : forall n2 h2 s2 t2,
             (if ends_tag n2 then Ret (h2, s2, t2)
              else script_attributes fuel h2 s2 t2) = Ret (h, s, t) ->
             truthy s2 && truthy t2 = false ->
             truthy s && truthy t = false).
  { intros n2 h2 s2 t2 H2 Hone2. destruct (ends_tag n2).
    - inversion H2; subst. exact Hone2.
    - eapply IH; eauto. }
  destruct (token_type_beq (type node) attrName).
  - destruct (str_eqb (value node) (lit "src")).
    + destruct (seek_value_in_tag fuel node html') as [[n2 h2]| |];
        cbn [bind] in Hret; try discriminate.
      apply (Hstep _ _ _ _ Hret). rewrite Ht. apply andb_false_r.
    + destruct (str_eqb (value node) (lit "type")).
      * destruct (seek_value_in_tag fuel node html') as [[n2 h2]| |];
          cbn [bind] in Hret; try discriminate.
        apply (Hstep _ _ _ _ Hret). rewrite Hs. reflexivity.
      * cbn [bind] in Hret. apply (Hstep _ _ _ _ Hret). exact Hone.
  - cbn [bind] in Hret. apply (Hstep _ _ _ _ Hret). exact Hone.
Qed.

(** The loop over the document ends, and when it does not throw it returns
    the set of entries it was given: no path is ever added to it. *)
Lemma preload_entries_total (fuel : nat) :
  forall (node : option token) (html : lexer) (entries0 : list str),
    (node <> None -> List.length (remaining html) + 1 < fuel) ->
    (exists e, preload_entries fuel node html entries0 = Raise e /\ scan_exn e)
    \/ preload_entries fuel node html entries0 = Ret entries0.
Proof.
  induction fuel as [|fuel IH]; intros node html entries0 Hlt.
  { destruct node; [|right; reflexivity]. assert (Some t <> None) as Hn
      by discriminate. apply Hlt in Hn. lia. }
  destruct node as [nd|]; [|right; reflexivity].
  assert (Hr : List.length (remaining html) < fuel).
  { assert (Some nd <> None) as Hn by discriminate. apply Hlt in Hn. lia. }
  cbn [preload_entries].
  assert (Hstep :
    (exists e,
        (if is_tagOpen nd (lit "<script")
         then '(html0, src, type_) <- script_attributes fuel html [] [];;
              (if truthy src && str_eqb type_ (dq (lit "module"))
               then Raise TypeError else Ret (html0, entries0))
         else Ret (html, entries0)) = Raise e /\ scan_exn e)
    \/ (exists h2,
           (if is_tagOpen nd (lit "<script")
            then '(html0, src, type_) <- script_attributes fuel html [] [];;
                 (if truthy src && str_eqb type_ (dq (lit "module"))
                  then Raise TypeError else Ret (html0, entries0))
            else Ret (html, entries0)) = Ret (h2, entries0)
           /\ List.length (remaining h2) <= List.length (remaining html))).
  { destruct (is_tagOpen nd (lit "<script")); [|right; exists html; auto].
    destruct (script_attributes_total fuel html [] [] Hr)
      as [(e & He & Hx) | (h2 & s & t & Ha & Hl)]; rewrite ?He, ?Ha; cbn [bind].
    - left. exists e. auto.
    - destruct (truthy s && str_eqb t (dq (lit "module"))).
      + left. exists TypeError. unfold scan_exn. auto.
      + right. exists h2. auto. }
  destruct Hstep as [(e & He & Hx) | (h2 & Ha & Hl)]; rewrite ?He, ?Ha;
    cbn [bind].
  { left. exists e. auto. }
  destruct (next h2) as [[nxt h3]| |] eqn:E; cbn [bind].
  - apply IH. intros Hn. destruct nxt as [t|]; [|contradiction].
    apply next_shortens in E. lia.
  - left. exists e. apply next_raises in E. subst e. unfold scan_exn. auto.
  - exfalso. eapply next_no_timeout; eauto.
Qed.

Lemma original_entries_total (code : str) :
  (exists e, original_entries code = Raise e /\ scan_exn e)
  \/ original_entries code = Ret [].
Proof.
  unfold original_entries.
  destruct (next (parseHTML code)) as [[nxt html]| |] eqn:E; cbn [bind].
  - apply preload_entries_total. intros Hn.
    destruct nxt as [t|]; [|contradiction].
    apply next_shortens in E. unfold remaining at 2 in E. simpl in E. lia.
  - left. exists e. apply next_raises in E. subst e. unfold scan_exn. auto.
  - exfalso. eapply next_no_timeout; eauto.
Qed.

Lemma original_entries_module_page : original_entries module_page = Ret [].
Proof. vm_compute. reflexivity. Qed.

(** C10. preloadJS never returns a document: whatever the document, the
    options and the import graph, it throws. When the scan of the document
    itself does not throw (moo's invalid syntax, or a property of undefined
    read at the end of the tokens), the evaluation of the undeclared
    [cssName] does; on a page with one module script that is what happens. *)
Theorem C10_preloadJS_always_throws
        (static_imports : str -> list str) (projectURL : str -> str -> str)
        (localeCompare : str -> str -> Z) (fuel : nat)
        (code rootDir htmlFile : str) (preloadCSS : bool) :
  (preloadJS static_imports projectURL localeCompare fuel code rootDir htmlFile
     preloadCSS = Raise (ReferenceError "cssName")
   \/ preloadJS static_imports projectURL localeCompare fuel code rootDir
        htmlFile preloadCSS = Raise TypeError
   \/ preloadJS static_imports projectURL localeCompare fuel code rootDir
        htmlFile preloadCSS = Raise InvalidSyntax)
  /\ preloadJS static_imports projectURL localeCompare fuel module_page rootDir
       htmlFile preloadCSS = Raise (ReferenceError "cssName").
Proof.
  split.
  - unfold preloadJS.
    destruct (original_entries_total code) as [(e & He & [Hx | Hx]) | He];
      rewrite He; cbn [bind]; subst; auto.
  - unfold preloadJS. rewrite original_entries_module_page. reflexivity.
Qed.

Lemma original_entries_preloaded_page : original_entries preloaded_page = Ret [].
Proof. vm_compute. reflexivity. Qed.

(** C8. preloadJS does not return an already preloaded page unchanged: on
    the page that a preload of one module is meant to produce from a page
    with one module script, the call throws at the undeclared [cssName]
    before it reaches the test of the empty module list. *)
Theorem C8_preloadJS_throws_on_preloaded_page
        (static_imports : str -> list str) (projectURL : str -> str -> str)
        (localeCompare : str -> str -> Z) (fuel : nat)
        (rootDir htmlFile : str) (preloadCSS : bool) :
  preloadJS static_imports projectURL localeCompare fuel preloaded_page rootDir
    htmlFile preloadCSS = Raise (ReferenceError "cssName")
  /\ preloadJS static_imports projectURL localeCompare fuel preloaded_page
       rootDir htmlFile preloadCSS <> Ret preloaded_page.
Proof.
  assert (H : preloadJS static_imports projectURL localeCompare fuel
                preloaded_page rootDir htmlFile preloadCSS
              = Raise (ReferenceError "cssName")).
  { unfold preloadJS. rewrite original_entries_preloaded_page. reflexivity. }
  split; [exact H | rewrite H; discriminate].
Qed.

(* ================================================================== *)
(** ** The filters on proxy modules *)

(** C9. The proxy filter of the optimize hook keeps every file, so with
    preloadCSS enabled a [.css.proxy.js] file still gets its optimize task;
    and the filter of the preload list drops every module when preloadCSS
    is disabled, proxy or not. With preloadCSS enabled the preload list
    leaves out the proxy modules and keeps the others. *)
Theorem C9_proxy_filters :
  (forall (preloadCSS : bool) (file : str),
      optimize_filter preloadCSS file = true)
  /\ queued_files true [lit "/build/a.css.proxy.js"; lit "/build/index.js"]
     = [lit "/build/a.css.proxy.js"; lit "/build/index.js"]
  /\ (forall (projectURL : str -> str -> str)
             (allModules originalEntries : list str) (rootDir : str),
         resolvedModules_of projectURL allModules originalEntries rootDir false
         = [])
  /\ resolvedModules_of (fun _ src => src) [lit "/build/util.js"] []
       build_root false = []
  /\ resolvedModules_of (fun _ src => src)
       [lit "/build/a.css.proxy.js"; lit "/build/util.js"] [] build_root true
     = [lit "/build/util.js"].
Proof.
  repeat split.
  - intros preloadCSS file. unfold optimize_filter. apply orb_true_r.
  - intros projectURL allModules originalEntries rootDir.
    unfold resolvedModules_of. simpl.
    induction (filter _ allModules); simpl; auto.
Qed.

(* ================================================================== *)
(** * Further properties *)

(** ** The tokens and the document *)

(** X1. Whether the run ends or throws, the tokens emitted so far are a prefix
    of the document without gaps or overlaps: their texts, put together, start
    the document, every token begins where the one before it ended, and no
    token is empty. When the run ends the prefix is the document. *)
Theorem tokens_are_a_prefix (htmlDoc : str) :
  exists rest,
    htmlDoc = texts (fst (tokens htmlDoc)) ++ rest
    /\ contiguous 0 (fst (tokens htmlDoc))
    /\ Forall (fun t => 1 <= List.length (text t)) (fst (tokens htmlDoc))
    /\ (snd (tokens htmlDoc) = Ret tt -> rest = [])
    /\ snd (tokens htmlDoc) <> Timeout.
Proof.
  destruct (tokens htmlDoc) as [ts e] eqn:Ht. unfold tokens in Ht.
  destruct (drain_texts _ _ _ _ Ht) as (rest & Hrest & Hend).
  exists rest. cbn [fst snd]. split; [exact Hrest|].
  split; [apply (drain_contiguous _ _ _ _ Ht)|].
  split; [apply (drain_nonempty _ _ _ _ Ht)|].
  split; [exact Hend|].
  pose proof (tokens_no_timeout htmlDoc) as Hn. unfold tokens in Hn.
  rewrite Ht in Hn. exact Hn.
Qed.

(** ** Where the lexer throws *)

Lemma exec_nl_LF (rest : str) :
  exec (Cat (Opt (Chars [CR])) (Chars [LF])) (LF :: rest) <> None.
Proof.
  unfold exec. cbn [rmatch startsWith]. change (N.eqb CR LF) with false.
  cbn [andb]. cbv iota. cbn [rmatch startsWith].
  change (N.eqb LF LF) with true. cbn [andb].
  replace (startsWith rest []) with true by (destruct rest; reflexivity).
  discriminate.
Qed.

Lemma exec_nl_CRLF (rest : str) :
  exec (Cat (Opt (Chars [CR])) (Chars [LF])) (CR :: LF :: rest) <> None.
Proof.
  unfold exec. cbn [rmatch startsWith]. change (N.eqb CR CR) with true.
  cbn [andb List.length skipn]. cbn [rmatch startsWith].
  change (N.eqb LF LF) with true. cbn [andb].
  replace (startsWith rest []) with true by (destruct rest; reflexivity).
  discriminate.
Qed.

Lemma line_terminator_cases (c : N) :
  dot c = false -> c = LF \/ c = CR \/ c = 8232%N \/ c = 8233%N.
Proof.
  unfold dot, is_line_terminator. intros H. apply negb_false_iff in H.
  repeat (apply orb_true_iff in H as [H | H]);
    apply N.eqb_eq in H; subst c; auto.
Qed.

Lemma first_match_main_unmatched (c : N) (rest : str) :
  dot c = false ->
  c <> LF ->
  ~ (c = CR /\ exists r, rest = LF :: r) ->
  first_match (rules main) (c :: rest) = None.
Proof.
  intros Hdot Hlf Hcr.
  destruct (line_terminator_cases c Hdot) as [-> | [-> | [-> | ->]]].
  - contradiction.
  - destruct rest as [|d r]; [reflexivity|].
    assert (Hd : N.eqb LF d = false).
    { apply N.eqb_neq. intros <-. apply Hcr. split; [reflexivity|].
      exists r. reflexivity. }
    cbn [rules first_match r_match]. unfold exec.
    cbn [rmatch startsWith lit list_ascii_of_string map N_of_ascii].
    cbn. destruct d as [|q]; [reflexivity|].
    unfold LF in Hd. simpl in Hd. rewrite Hd. reflexivity.
  - reflexivity.
  - reflexivity.
Qed.

Lemma next_unmatched (lx : lexer) :
  index lx <= List.length (buffer lx) ->
  (next lx = Raise InvalidSyntax <-> unmatched (state lx) (remaining lx)).
Proof.
  intros Hidx. unfold next, remaining.
  destruct (index lx =? List.length (buffer lx)) eqn:Ei.
  { apply Nat.eqb_eq in Ei. rewrite Ei, skipn_all. simpl.
    split; [discriminate | contradiction]. }
  apply Nat.eqb_neq in Ei.
  destruct (skipn (index lx) (buffer lx)) as [|c rest] eqn:Hrest.
  { apply (f_equal (@List.length N)) in Hrest.
    rewrite length_skipn in Hrest. simpl in Hrest. lia. }
  split.
  - destruct (first_match (rules (state lx)) (c :: rest)) as [[r n]|] eqn:E;
      [destruct (move _ _ _); discriminate|].
    intros _. pose proof (first_match_none _ _ E) as Hnone.
    destruct (state lx) eqn:Hst.
    + assert (Hdot : dot c = false).
      { destruct (dot c) eqn:Hd; [|reflexivity]. exfalso.
        apply (exec_Plus dot c rest Hd).
        apply (Hnone {| r_type := any; r_match := Plus dot;
                        r_lineBreaks := true; r_transition := Stay;
                        r_value := same |}). simpl. auto 10. }
      assert (Hnl : exec (Cat (Opt (Chars [CR])) (Chars [LF])) (c :: rest)
                    = None).
      { apply (Hnone {| r_type := nl;
                        r_match := Cat (Opt (Chars [CR])) (Chars [LF]);
                        r_lineBreaks := true; r_transition := Stay;
                        r_value := same |}). simpl. auto 10. }
      simpl. split; [exact Hdot|]. left. split; [reflexivity|]. split.
      * intros ->. apply (exec_nl_LF rest). exact Hnl.
      * intros [-> [r0 ->]]. apply (exec_nl_CRLF r0). exact Hnl.
    + assert (Hdot : dot c = false).
      { destruct (dot c) eqn:Hd; [|reflexivity]. exfalso.
        assert (Hex : exec (One dot) (c :: rest) = None).
        { apply (Hnone {| r_type := commentAny; r_match := One dot;
                          r_lineBreaks := true; r_transition := Stay;
                          r_value := same |}). simpl. auto. }
        unfold exec in Hex. simpl in Hex. rewrite Hd in Hex. discriminate. }
      simpl. split; [exact Hdot|]. right. split; [reflexivity|].
      apply (Hnone {| r_type := commentEnd; r_match := commentEnd_pattern;
                      r_lineBreaks := false; r_transition := Pop;
                      r_value := same |}). simpl. auto.
    + exfalso. apply (tag_and_attr_never_throw lx InvalidSyntax Hidx).
      * left. exact Hst.
      * unfold next. apply Nat.eqb_neq in Ei. rewrite Ei, Hrest, Hst, E.
        reflexivity.
    + exfalso. apply (tag_and_attr_never_throw lx InvalidSyntax Hidx).
      * right. exact Hst.
      * unfold next. apply Nat.eqb_neq in Ei. rewrite Ei, Hrest, Hst, E.
        reflexivity.
  - simpl. intros (Hdot & [(Hst & Hlf & Hcr) | (Hst & Hend)]); rewrite Hst.
    + rewrite first_match_main_unmatched by assumption. reflexivity.
    + cbn [rules first_match r_match].
      change (Cat (Star is_space) (Chars (lit "-->"))) with commentEnd_pattern.
      rewrite Hend. unfold exec at 1. cbn [rmatch]. rewrite Hdot. reflexivity.
Qed.

(** X2. The lexer throws exactly where no rule matches, and that is at a line
    terminator only: in the main state at one that is neither a line feed nor
    a carriage return before a line feed, in a comment at one that does not
    start the end of the comment. Inside a tag and inside an attribute it
    never throws. *)
Theorem next_throws_iff (lx : lexer) (e : exn) :
  index lx <= List.length (buffer lx) ->
  (next lx = Raise e
   <-> e = InvalidSyntax /\ unmatched (state lx) (remaining lx)).
Proof.
  intros Hidx. split.
  - intros H. pose proof (next_raises _ _ H) as He. subst e.
    split; [reflexivity|]. apply (next_unmatched lx Hidx). exact H.
  - intros [-> H]. apply (next_unmatched lx Hidx). exact H.
Qed.

Lemma next_throws_iff_witness :
  next {| buffer := two_line_comment; index := 7; state := comment;
          stack := [main] |} = Raise InvalidSyntax
  <-> InvalidSyntax = InvalidSyntax
      /\ unmatched comment (skipn 7 two_line_comment).
Proof.
  apply (next_throws_iff {| buffer := two_line_comment; index := 7;
                            state := comment; stack := [main] |}
           InvalidSyntax).
  simpl. lia.
Defined.

(** ** The matcher and the language of a pattern *)

Lemma startsWith_split (l s : str) :
  startsWith s l = true -> s = l ++ skipn (List.length l) s.
Proof.
  revert s; induction l as [|x l IH]; intros [|y s] H; simpl in *;
    try reflexivity; try discriminate.
  apply andb_true_iff in H as [Hx H]. apply N.eqb_eq in Hx. subst y.
  f_equal. apply IH. exact H.
Qed.

Lemma star_m_matches (R : Type) (p : N -> bool) (s : str) :
  forall (n : nat) (k : str -> nat -> option R) (x : R),
    star_m p s n k = Some x ->
    exists w rest, s = w ++ rest /\ forallb p w = true
                   /\ k rest (n + List.length w) = Some x.
Proof.
  induction s as [|c s IH]; intros n k x H; simpl in H.
  - exists [], []. rewrite Nat.add_0_r. auto.
  - destruct (p c) eqn:Hc.
    + destruct (star_m p s (S n) k) as [y|] eqn:E.
      * inversion H; subst y. apply IH in E as (w & rest & Hs & Hw & Hk).
        exists (c :: w), rest. simpl. rewrite Hc, Hw, <- plus_n_Sm.
        subst s. auto.
      * exists [], (c :: s). rewrite Nat.add_0_r. auto.
    + exists [], (c :: s). rewrite Nat.add_0_r. auto.
Qed.

(** What the matcher consumes is a text of the language of the pattern. *)
Lemma rmatch_matches (R : Type) (r : re) :
  forall (s : str) (n : nat) (k : str -> nat -> option R) (x : R),
    rmatch r s n k = Some x ->
    exists w rest, s = w ++ rest /\ matches r w
                   /\ k rest (n + List.length w) = Some x.
Proof.
  induction r as [l | p | p | p | r1 IH1 | r1 IH1 r2 IH2];
    intros s n k x H; simpl in H.
  - destruct (startsWith s l) eqn:E; [|discriminate].
    exists l, (skipn (List.length l) s).
    split; [apply startsWith_split; exact E|]. split; [constructor | exact H].
  - destruct s as [|c s]; [discriminate|].
    destruct (p c) eqn:Hc; [|discriminate].
    exists [c], s. simpl. rewrite Nat.add_1_r.
    split; [reflexivity|]. split; [constructor; exact Hc | exact H].
  - apply star_m_matches in H as (w & rest & Hs & Hw & Hk).
    exists w, rest. split; [exact Hs|]. split; [constructor; exact Hw | exact Hk].
  - destruct s as [|c s]; [discriminate|].
    destruct (p c) eqn:Hc; [|discriminate].
    apply star_m_matches in H as (w & rest & Hs & Hw & Hk).
    exists (c :: w), rest. simpl. rewrite <- plus_n_Sm. subst s.
    split; [reflexivity|]. split; [constructor; assumption | exact Hk].
  - destruct (rmatch r1 s n k) as [y|] eqn:E.
    + inversion H; subst y. apply IH1 in E as (w & rest & Hs & Hw & Hk).
      exists w, rest. split; [exact Hs|].
      split; [apply matches_opt_some; exact Hw | exact Hk].
    + exists [], s. rewrite Nat.add_0_r.
      split; [reflexivity|]. split; [apply matches_opt_none | exact H].
  - apply IH1 in H as (w1 & rest1 & Hs1 & Hw1 & Hk1).
    apply IH2 in Hk1 as (w2 & rest2 & Hs2 & Hw2 & Hk2).
    exists (w1 ++ w2), rest2. subst s rest1.
    rewrite <- app_assoc, length_app, Nat.add_assoc.
    split; [reflexivity|]. split; [constructor; assumption | exact Hk2].
Qed.

Lemma exec_matches (r : re) (s : str) (n : nat) :
  exec r s = Some n -> matches r (firstn n s).
Proof.
  unfold exec. intros H.
  apply rmatch_matches in H as (w & rest & Hs & Hw & Hk).
  simpl in Hk. inversion Hk; subst.
  rewrite firstn_app, firstn_all, Nat.sub_diag, firstn_O, app_nil_r.
  exact Hw.
Qed.

(** The rule behind a token matches the text of the token. *)
Lemma next_matches (lx lx' : lexer) (t : token) :
  next lx = Ret (Some t, lx') ->
  exists r,
    In r (rules (state lx))
    /\ matches (r_match r) (text t)
    /\ type t = r_type r
    /\ value t = r_value r (text t).
Proof.
  unfold next. destruct (index lx =? _); [discriminate|].
  destruct (first_match (rules (state lx)) (skipn (index lx) (buffer lx)))
    as [[r n]|] eqn:E; [|discriminate].
  apply first_match_sound in E as [Hin Hex].
  destruct (move (r_transition r) (state lx) (stack lx)) as [st stk] eqn:Hm.
  intros H. inversion H; subst; clear H. exists r. cbn.
  split; [exact Hin|]. split; [apply exec_matches; exact Hex | auto].
Qed.

(** ** Documents the tokenizer always reads to the end *)

Lemma next_index_ok (lx lx' : lexer) (t : token) :
  next lx = Ret (Some t, lx') ->
  index lx <= List.length (buffer lx) ->
  index lx' <= List.length (buffer lx').
Proof.
  intros E Hidx. apply next_token in E as (Hbuf & _ & Hi & _ & Hrem).
  apply (f_equal (@List.length N)) in Hrem. unfold remaining in Hrem.
  rewrite length_app, !length_skipn, Hbuf in Hrem. rewrite Hbuf. lia.
Qed.

(** A property of the lexer that every call of [next] keeps and under which
    [next] does not throw carries the run to the end of the document. *)
Lemma drain_ends (P : lexer -> Prop) :
  (forall lx, P lx -> next lx <> Raise InvalidSyntax) ->
  (forall lx t lx', P lx -> next lx = Ret (Some t, lx') -> P lx') ->
  forall (fuel : nat) (lx : lexer),
    P lx ->
    List.length (remaining lx) < fuel ->
    snd (drain fuel lx) = Ret tt.
Proof.
  intros Hsafe Hkeep. induction fuel as [|fuel IH]; intros lx HP Hlt; [lia|].
  cbn [drain]. destruct (next lx) as [[[t|] lx']|e|] eqn:E.
  - destruct (drain fuel lx') as [ts e'] eqn:D. cbn [snd].
    change e' with (snd (ts, e')). rewrite <- D. apply IH.
    + eapply Hkeep; eauto.
    + apply next_shortens in E. lia.
  - reflexivity.
  - exfalso. pose proof (next_raises _ _ E). subst e.
    apply (Hsafe lx HP E).
  - exfalso. apply (next_no_timeout lx E).
Qed.

Lemma forallb_suffix (p : N -> bool) (a b : str) :
  forallb p (a ++ b) = true -> forallb p b = true.
Proof.
  rewrite forallb_app. intros H. apply andb_true_iff in H as [_ H]. exact H.
Qed.

(** A document without line terminators is read to its end. *)
Lemma one_line_ends (htmlDoc : str) :
  forallb dot htmlDoc = true -> snd (tokens htmlDoc) = Ret tt.
Proof.
  intros Hdot. unfold tokens.
  apply (drain_ends (fun lx => index lx <= List.length (buffer lx)
                               /\ forallb dot (remaining lx) = true)).
  - intros lx [Hidx Hall] E. apply (next_unmatched lx Hidx) in E.
    destruct (remaining lx) as [|c rest]; [exact E|].
    destruct E as [Hc _]. simpl in Hall. rewrite Hc in Hall. discriminate.
  - intros lx t lx' [Hidx Hall] E. split.
    + eapply next_index_ok; eauto.
    + apply next_token in E as (_ & _ & _ & _ & Hrem). rewrite Hrem in Hall.
      eapply forallb_suffix; eauto.
  - split; [simpl; lia | exact Hdot].
  - unfold remaining. simpl. lia.
Qed.

Lemma well_lined_suffix (a b : str) :
  well_lined (a ++ b) = true -> well_lined b = true.
Proof.
  induction a as [|c a IH]; [auto|]. simpl. intros H.
  apply andb_true_iff in H as [_ H]. auto.
Qed.

Lemma comments_close_suffix (a b : str) :
  comments_close (a ++ b) = true -> comments_close b = true.
Proof.
  induction a as [|c a IH]; [auto|]. cbn [app comments_close]. intros H.
  apply andb_true_iff in H as [_ H]. auto.
Qed.

Lemma well_lined_matched (st : state_name) (s : str) :
  st <> comment -> well_lined s = true -> ~ unmatched st s.
Proof.
  intros Hst Hw. destruct s as [|c rest]; [auto|].
  intros (Hdot & [(_ & Hlf & Hcr) | (Hc & _)]); [|contradiction].
  simpl in Hw. rewrite Hdot in Hw. apply andb_true_iff in Hw as [Hw _].
  cbn [orb] in Hw. apply orb_true_iff in Hw as [Hw | Hw].
  - apply N.eqb_eq in Hw. contradiction.
  - apply andb_true_iff in Hw as [Hc Hd]. apply N.eqb_eq in Hc.
    destruct rest as [|d r]; [discriminate|]. apply N.eqb_eq in Hd.
    apply Hcr. split; [exact Hc|]. exists r. subst d. reflexivity.
Qed.

(** ** The discipline of the stack of states *)

(** The rule behind a token. *)
Lemma next_rule (lx lx' : lexer) (t : token) :
  next lx = Ret (Some t, lx') ->
  exists r n,
    In r (rules (state lx))
    /\ exec (r_match r) (remaining lx) = Some n
    /\ type t = r_type r
    /\ value t = r_value r (text t)
    /\ (state lx', stack lx') = move (r_transition r) (state lx) (stack lx).
Proof.
  unfold next, remaining. destruct (index lx =? _); [discriminate|].
  destruct (first_match (rules (state lx)) (skipn (index lx) (buffer lx)))
    as [[r n]|] eqn:E; [|discriminate].
  apply first_match_sound in E as [Hin Hex].
  destruct (move (r_transition r) (state lx) (stack lx)) as [st stk] eqn:Hm.
  intros H. inversion H; subst; clear H. exists r, n. cbn. auto.
Qed.

Lemma next_balanced (lx lx' : lexer) (t : token) :
  next lx = Ret (Some t, lx') -> balanced lx -> balanced lx'.
Proof.
  intros E Hbal.
  apply next_rule in E as (r & n & Hin & _ & _ & _ & Hm).
  unfold balanced in *.
  destruct Hbal as [[Hs Hk] | [[Hs Hk] | [[Hs Hk] | [Hs Hk]]]];
    rewrite Hs, Hk in *; cbn [rules] in Hin;
    repeat (destruct Hin as [<- | Hin];
            [cbn in Hm; inversion Hm; auto 10|]);
    contradiction.
Qed.

Lemma reaches_balanced (lx lx' : lexer) :
  reaches lx lx' ->
  balanced lx -> index lx <= List.length (buffer lx) ->
  balanced lx' /\ buffer lx' = buffer lx
  /\ index lx <= index lx' <= List.length (buffer lx).
Proof.
  induction 1 as [lx | lx t lx1 lx2 E _ IH]; intros Hbal Hidx.
  - auto.
  - destruct IH as (Hb & Hbuf & Hi).
    + eapply next_balanced; eauto.
    + eapply next_index_ok; eauto.
    + apply next_token in E as (Hbuf1 & _ & Hi1 & _ & _).
      rewrite Hbuf1 in *. split; [exact Hb|]. split; [exact Hbuf|]. lia.
Qed.

(** X3. Whatever the document, the lexer is only ever in the main state on an
    empty stack, in a comment or a tag entered from the main state, or in an
    attribute entered from a tag: the stack never holds more than two states,
    a rule that pops always finds the state it was pushed from, and the index
    moves forward inside the document. *)
Theorem lexer_stays_balanced (htmlDoc : str) (lx : lexer) :
  reaches (parseHTML htmlDoc) lx ->
  balanced lx
  /\ buffer lx = htmlDoc
  /\ index lx <= List.length htmlDoc.
Proof.
  intros H. apply reaches_balanced in H as (Hb & Hbuf & Hi).
  - cbn in Hbuf, Hi. split; [exact Hb|]. split; [exact Hbuf|]. lia.
  - left. split; reflexivity.
  - cbn. lia.
Qed.

Lemma lexer_stays_balanced_witness :
  balanced {| buffer := lit "<a b"; index := 4; state := attr;
              stack := [tag; main] |}.
Proof.
  apply (lexer_stays_balanced (lit "<a b")).
  eapply reaches_next; [vm_compute; reflexivity|].
  eapply reaches_next; [vm_compute; reflexivity|].
  eapply reaches_next; [vm_compute; reflexivity|].
  apply reaches_here.
Defined.

(** The rule behind a token, the text it matched and the move it made. *)
Lemma next_step (lx lx' : lexer) (t : token) :
  next lx = Ret (Some t, lx') ->
  exists r,
    In r (rules (state lx))
    /\ matches (r_match r) (text t)
    /\ (state lx', stack lx') = move (r_transition r) (state lx) (stack lx).
Proof.
  unfold next. destruct (index lx =? _); [discriminate|].
  destruct (first_match (rules (state lx)) (skipn (index lx) (buffer lx)))
    as [[r n]|] eqn:E; [|discriminate].
  apply first_match_sound in E as [Hin Hex].
  destruct (move (r_transition r) (state lx) (stack lx)) as [st stk] eqn:Hm.
  intros H. inversion H; subst; clear H. exists r. cbn.
  split; [exact Hin|].
  split; [apply exec_matches; exact Hex | symmetry; exact Hm].
Qed.

(** Only the rule commentStart leads into a comment. *)
Lemma enters_comment (lx lx' : lexer) (t : token) :
  next lx = Ret (Some t, lx') ->
  balanced lx ->
  state lx <> comment ->
  state lx' = comment ->
  remaining lx = lit "<!--" ++ remaining lx'.
Proof.
  intros E Hbal Hst Hst'.
  pose proof (next_token _ _ _ E) as (_ & _ & _ & _ & Hrem).
  apply next_step in E as (r & Hin & Hmt & Hm).
  assert (Hr : r_match r = Chars (lit "<!--")).
  { unfold balanced in Hbal.
    destruct Hbal as [[Hs Hk] | [[Hs Hk] | [[Hs Hk] | [Hs Hk]]]];
      rewrite Hs, Hk in *; try contradiction; cbn [rules] in Hin;
      repeat (destruct Hin as [<- | Hin];
              [cbn in Hm; inversion Hm; first [reflexivity | congruence]|]);
      contradiction. }
  rewrite Hr in Hmt. inversion Hmt as [l Hl Htext| | | | | |].
  rewrite <- Htext in Hrem. exact Hrem.
Qed.

Lemma startsWith_app (a r : str) : startsWith (a ++ r) a = true.
Proof.
  induction a as [|c a IH]; [destruct r; reflexivity|].
  cbn [app startsWith]. rewrite N.eqb_refl, IH. reflexivity.
Qed.

Lemma exec_commentEnd_here (s : str) :
  startsWith s (lit "-->") = true -> exec commentEnd_pattern s <> None.
Proof.
  intros H. apply startsWith_split in H. rewrite H.
  unfold exec, commentEnd_pattern. cbn [rmatch app lit list_ascii_of_string map].
  cbn [star_m]. change (is_space (N_of_ascii "-")) with false. cbv iota.
  change (lit "-->") with (N_of_ascii "-" :: N_of_ascii "-" :: N_of_ascii ">" :: []).
  cbn [startsWith]. rewrite !N.eqb_refl. cbn [andb].
  destruct (skipn _ s); discriminate.
Qed.

(** One token inside a comment: the comment ends, or one code unit that is
    no line terminator is read where the end of the comment does not
    start. *)
Lemma next_in_comment (lx lx' : lexer) (t : token) :
  next lx = Ret (Some t, lx') ->
  state lx = comment ->
  stack lx = [main] ->
  state lx' = main
  \/ (state lx' = comment
      /\ exec commentEnd_pattern (remaining lx) = None
      /\ exists c, remaining lx = c :: remaining lx').
Proof.
  intros E Hst Hstk.
  pose proof (next_token _ _ _ E) as (_ & _ & _ & _ & Hrem).
  unfold next in E. destruct (index lx =? _); [discriminate|].
  rewrite Hst, Hstk in E. cbn [rules first_match r_match] in E.
  fold (remaining lx) in E.
  change (Cat (Star is_space) (Chars (lit "-->"))) with commentEnd_pattern in E.
  destruct (exec commentEnd_pattern (remaining lx)) as [n|] eqn:E1.
  - cbn in E. inversion E; subst. left. reflexivity.
  - destruct (exec (One dot) (remaining lx)) as [n|] eqn:E2; [|discriminate].
    cbn in E. inversion E; subst; clear E. cbn [state text] in *.
    right. split; [reflexivity|]. split; [reflexivity|].
    unfold exec in E2. cbn [rmatch] in E2.
    destruct (remaining lx) as [|c r] eqn:Hr; [discriminate|].
    destruct (dot c); [|discriminate]. inversion E2; subst n.
    cbn [firstn app] in Hrem. exists c. exact Hrem.
Qed.

(** A document whose line ends are line feeds, alone or after a carriage
    return, and whose comments end on the line where they start, is read to
    its end. *)
Lemma plain_lines_end (htmlDoc : str) :
  well_lined htmlDoc = true ->
  comments_close htmlDoc = true ->
  snd (tokens htmlDoc) = Ret tt.
Proof.
  intros Hw Hc. unfold tokens.
  apply (drain_ends (fun lx => index lx <= List.length (buffer lx)
                               /\ balanced lx
                               /\ well_lined (remaining lx) = true
                               /\ comments_close (remaining lx) = true
                               /\ (state lx = comment ->
                                   closes_on_line (remaining lx) = true))).
  - intros lx (Hidx & _ & Hwl & _ & Hcl) E.
    apply (next_unmatched lx Hidx) in E.
    assert (Hdec : state lx = comment \/ state lx <> comment)
      by (destruct (state lx); auto; right; discriminate).
    destruct Hdec as [Hst | Hst].
    + rewrite Hst in E. specialize (Hcl Hst).
      destruct (remaining lx) as [|c rest] eqn:Hr; [exact E|].
      destruct E as (Hdot & [(Hm & _) | (_ & Hex)]); [discriminate|].
      cbn [closes_on_line] in Hcl. rewrite Hdot in Hcl. cbn [andb] in Hcl.
      rewrite orb_false_r in Hcl.
      apply (exec_commentEnd_here _ Hcl). exact Hex.
    + apply (well_lined_matched (state lx) (remaining lx)); assumption.
  - intros lx t lx' (Hidx & Hbal & Hwl & Hnc & Hcl) E.
    pose proof (next_token _ _ _ E) as (_ & _ & _ & _ & Hrem).
    split; [eapply next_index_ok; eauto|].
    split; [eapply next_balanced; eauto|].
    split; [rewrite Hrem in Hwl; eapply well_lined_suffix; eauto|].
    split; [rewrite Hrem in Hnc; eapply comments_close_suffix; eauto|].
    intros Hst'.
    assert (Hdec : state lx = comment \/ state lx <> comment)
      by (destruct (state lx); auto; right; discriminate).
    destruct Hdec as [Hst | Hst].
    + assert (Hstk : stack lx = [main]).
      { destruct Hbal as [[Hs _] | [[_ Hk] | [[Hs _] | [Hs _]]]];
          try congruence. }
      destruct (next_in_comment _ _ _ E Hst Hstk)
        as [Hmain | (_ & Hex & c & Hc')]; [congruence|].
      specialize (Hcl Hst). rewrite Hc' in Hcl, Hex.
      cbn [closes_on_line] in Hcl.
      apply orb_true_iff in Hcl as [Hcl | Hcl].
      * exfalso. apply (exec_commentEnd_here _ Hcl). exact Hex.
      * apply andb_true_iff in Hcl as [_ Hcl]. exact Hcl.
    + pose proof (enters_comment _ _ _ E Hbal Hst Hst') as Hs.
      rewrite Hs in Hnc.
      change (lit "<!--" ++ remaining lx')
        with (N_of_ascii "<" :: (lit "!--" ++ remaining lx')) in Hnc.
      cbn [comments_close] in Hnc. apply andb_true_iff in Hnc as [Hnc _].
      change (N_of_ascii "<" :: (lit "!--" ++ remaining lx'))
        with (lit "<!--" ++ remaining lx') in Hnc.
      rewrite startsWith_app in Hnc. cbn [negb orb] in Hnc.
      exact Hnc.
  - split; [simpl; lia|]. split; [left; split; reflexivity|].
    split; [exact Hw|]. split; [exact Hc|]. intros H. discriminate H.
  - unfold remaining. simpl. lia.
Qed.

(** X4. A document without line terminators, and a document whose line ends
    are line feeds (alone or after a carriage return) and whose comments each
    end on the line where they start, are always read to the end: the
    tokenizer does not throw and the texts of its tokens, put together, are
    the document. *)
Theorem tokenizer_reads_plain_documents (htmlDoc : str) :
  forallb dot htmlDoc = true
  \/ (well_lined htmlDoc = true /\ comments_close htmlDoc = true) ->
  snd (tokens htmlDoc) = Ret tt
  /\ texts (fst (tokens htmlDoc)) = htmlDoc.
Proof.
  intros H.
  assert (He : snd (tokens htmlDoc) = Ret tt).
  { destruct H as [H | [H1 H2]];
      [apply one_line_ends | apply plain_lines_end]; assumption. }
  split; [exact He|].
  destruct (tokens htmlDoc) as [ts e] eqn:Ht. cbn [fst snd] in *. subst e.
  apply (tokens_roundtrip _ _ Ht).
Qed.

Lemma tokenizer_reads_plain_documents_witness :
  snd (tokens (lit "<p>a</p><!-- b -->" ++ [CR; LF] ++ lit "<br/>")) = Ret tt
  /\ texts (fst (tokens (lit "<p>a</p><!-- b -->" ++ [CR; LF] ++ lit "<br/>")))
     = lit "<p>a</p><!-- b -->" ++ [CR; LF] ++ lit "<br/>".
Proof.
  apply (tokenizer_reads_plain_documents
           (lit "<p>a</p><!-- b -->" ++ [CR; LF] ++ lit "<br/>")).
  right. split; reflexivity.
Defined.

(** ** The values of the tokens *)

Ltac space_cases H :=
  unfold is_space in H;
  repeat (apply orb_true_iff in H as [H | H]);
  first [ apply N.eqb_eq in H
        | let H1 := fresh in let H2 := fresh in
          apply andb_true_iff in H as [H1 H2];
          apply N.leb_le in H1; apply N.leb_le in H2 ].

Lemma lower_space (c : N) : is_space c = true -> lower c = c.
Proof.
  intros H. unfold lower.
  destruct ((65 <=? c)%N && (c <=? 90)%N) eqn:E; [|reflexivity].
  apply andb_true_iff in E as [E1 E2]. apply N.leb_le in E1, E2.
  exfalso. space_cases H; lia.
Qed.

Lemma lower_name_not_space (c : N) :
  is_name c = true -> is_space (lower c) = false.
Proof.
  intros Hn. destruct (is_space (lower c)) eqn:Hs; [exfalso | reflexivity].
  assert (Hr : (45 <= lower c <= 122)%N /\ (lower c <> 160)%N).
  { unfold lower. unfold is_name in Hn.
    destruct ((65 <=? c)%N && (c <=? 90)%N) eqn:E.
    - apply andb_true_iff in E as [E1 E2]. apply N.leb_le in E1, E2. lia.
    - repeat (apply orb_true_iff in Hn as [Hn | Hn]).
      + apply andb_true_iff in Hn as [H1 H2]. apply N.leb_le in H1, H2. lia.
      + rewrite Hn in E. discriminate.
      + apply N.eqb_eq in Hn. lia. }
  space_cases Hs; lia.
Qed.

Lemma remove_spaces_spaces (ws : str) :
  forallb is_space ws = true -> remove_spaces (toLowerCase ws) = [].
Proof.
  induction ws as [|c ws IH]; simpl; intros H; [reflexivity|].
  apply andb_true_iff in H as [Hc H].
  rewrite (lower_space c Hc), Hc. simpl. apply IH. exact H.
Qed.

Lemma remove_spaces_name (name : str) :
  forallb is_name name = true ->
  remove_spaces (toLowerCase name) = toLowerCase name.
Proof.
  induction name as [|c name IH]; simpl; intros H; [reflexivity|].
  apply andb_true_iff in H as [Hc H].
  rewrite (lower_name_not_space c Hc). simpl. f_equal. apply IH. exact H.
Qed.

Lemma remove_spaces_app (a b : str) :
  remove_spaces (toLowerCase (a ++ b))
  = remove_spaces (toLowerCase a) ++ remove_spaces (toLowerCase b).
Proof. unfold remove_spaces, toLowerCase. rewrite map_app. apply filter_app. Qed.

(** X5. The value of every token the lexer emits, in any state and at any
    index: the value of a tagOpen or tagClose token is its tag with the name
    in lower case and the white space removed, that of an attrName token is
    the name in lower case, and every other token has its text as value. An
    attrValue token is always a value between double quotes that is not empty,
    so the transform that turns other quotes into double quotes never changes
    a value. *)
Theorem token_value_shape (lx lx' : lexer) (t : token) :
  next lx = Ret (Some t, lx') -> value_shape t.
Proof.
  intros E. apply next_matches in E as (r & Hin & Hm & Hty & Hval).
  unfold value_shape. rewrite Hty. rewrite Hval. clear Hty Hval.
  generalize dependent (text t). intros txt Hm.
  destruct (state lx); cbn [rules] in Hin;
    repeat (destruct Hin as [<- | Hin];
            [cbn [r_type r_match r_value] in *; try reflexivity|]);
    try contradiction.
  - (* tagOpen *)
    inversion Hm as [| | | | | |r1 r2 w1 w2 H1 H2]; subst.
    inversion H1; subst.
    inversion H2 as [| | | | | |r3 r4 ws nm Hws Hnm]; subst.
    inversion Hws; subst. inversion Hnm as [| | |p c w Hc Hw| | |]; subst.
    assert (Hname : forallb is_name (c :: w) = true)
      by (simpl; rewrite Hc, Hw; reflexivity).
    exists ws, (c :: w).
    split; [reflexivity|]. split; [assumption|]. split; [exact Hname|].
    split; [discriminate|].
    rewrite !remove_spaces_app, (remove_spaces_spaces ws),
      (remove_spaces_name (c :: w)) by assumption.
    reflexivity.
  - (* tagClose *)
    inversion Hm as [| | | | | |r1 r2 w1 w2 H1 H2]; subst.
    inversion H1; subst.
    inversion H2 as [| | | | | |r3 r4 ws x2 Hws Hx2]; subst.
    inversion Hws; subst.
    inversion Hx2 as [| | | | | |r5 r6 nm x3 Hnm Hx3]; subst.
    inversion Hnm as [| | |p c w Hc Hw| | |]; subst.
    inversion Hx3 as [| | | | | |r7 r8 ws' x4 Hws' Hx4]; subst.
    inversion Hws'; subst. inversion Hx4; subst.
    assert (Hname : forallb is_name (c :: w) = true)
      by (simpl; rewrite Hc, Hw; reflexivity).
    exists ws, (c :: w), ws'.
    split; [reflexivity|]. split; [assumption|]. split; [assumption|].
    split; [exact Hname|]. split; [discriminate|].
    rewrite !remove_spaces_app, (remove_spaces_spaces ws),
      (remove_spaces_spaces ws'), (remove_spaces_name (c :: w))
      by assumption.
    reflexivity.
  - (* attrName *)
    inversion Hm as [| | |p c w Hc Hw| | |]; subst.
    split; [|reflexivity]. simpl. rewrite Hc. exact Hw.
  - (* attrAssignment *)
    inversion Hm; subst. reflexivity.
  - (* attrValue *)
    inversion Hm as [| | | | | |r1 r2 w1 w2 H1 H2]; subst.
    inversion H1; subst.
    inversion H2 as [| | | | | |r3 r4 v x2 Hv Hx2]; subst.
    inversion Hv as [| | |p c w Hc Hw| | |]; subst. inversion Hx2; subst.
    exists (c :: w). split; [discriminate|].
    split; [simpl; rewrite Hc, Hw; reflexivity|].
    split; [reflexivity|]. apply (attrValue_value (c :: w)).
Qed.

Lemma token_value_shape_witness :
  value_shape {| type := tagOpen; value := lit "<link";
                 text := lit "< " ++ [LF] ++ lit "LiNK";
                 offset := 0; lineBreaks := 1 |}.
Proof.
  apply (token_value_shape
           (parseHTML (lit "< " ++ [LF] ++ lit "LiNK rel=x>"))
           {| buffer := lit "< " ++ [LF] ++ lit "LiNK rel=x>"; index := 7;
              state := tag; stack := [main] |}).
  vm_compute. reflexivity.
Defined.

(** ** The loops over the tokens and the run of the lexer *)

Lemma drain_run (fuel : nat) :
  forall (lx : lexer) (ts : list token) (e : res unit),
    drain fuel lx = (ts, e) -> e <> Timeout -> run lx ts e.
Proof.
  induction fuel as [|fuel IH]; intros lx ts e H Hne; simpl in H.
  - inversion H; subst. contradiction.
  - destruct (next lx) as [[[t|] lx']|x|] eqn:E.
    + destruct (drain fuel lx') as [ts' e'] eqn:D. inversion H; subst.
      eapply run_token; eauto.
    + inversion H; subst. eapply run_end; eauto.
    + inversion H; subst. apply run_throw. exact E.
    + inversion H; subst. contradiction.
Qed.

Lemma tokens_run (htmlDoc : str) :
  run (parseHTML htmlDoc) (fst (tokens htmlDoc)) (snd (tokens htmlDoc)).
Proof.
  pose proof (tokens_no_timeout htmlDoc) as Hne.
  unfold tokens in *.
  destruct (drain (S (List.length htmlDoc)) (parseHTML htmlDoc)) as [ts e] eqn:D.
  eapply drain_run; eauto.
Qed.

Lemma run_length (lx : lexer) (ts : list token) (e : res unit) :
  run lx ts e -> List.length ts <= List.length (remaining lx).
Proof.
  induction 1 as [lx lx' E | lx x E | lx t lx' ts e E _ IH]; simpl; try lia.
  apply next_shortens in E. lia.
Qed.

Lemma run_raises (lx : lexer) (ts : list token) (x : exn) :
  run lx ts (Raise x) -> x = InvalidSyntax.
Proof.
  intros H. remember (Raise x) as e eqn:He.
  induction H as [lx lx' E | lx y E | lx t lx' ts e E _ IH];
    [discriminate | | auto].
  inversion He; subst. eapply next_raises; eauto.
Qed.

(** One call of [next] on a run. *)
Lemma next_on_run (html : lexer) (ts : list token) (e : res unit) :
  run html ts e ->
  match next html with
  | Ret (nxt, html') =>
      (exists ts', run html' ts' e) /\ (nxt = None -> e = Ret tt)
  | Raise x => e = Raise x
  | Timeout => False
  end.
Proof.
  intros H. inversion H as [lx lx' E | lx x E | lx t lx' ts' e' E H']; subst;
    rewrite E.
  - pose proof (next_end _ _ E) as [-> _].
    split; [eexists; exact H | reflexivity].
  - reflexivity.
  - split; [eexists; exact H' | discriminate].
Qed.

Lemma seek_attrName_on_run (name : str) (e : res unit) (fuel : nat) :
  forall (attrStart : option token) (html : lexer),
    (exists ts, run html ts e) ->
    (attrStart = None -> e = Ret tt) ->
    stays_on_run e (seek_attrName fuel name attrStart html).
Proof.
  induction fuel as [|fuel IH]; intros attrStart html [ts Hrun] Hend;
    (destruct attrStart as [t|]; cbn [seek_attrName];
     [|left; split; [reflexivity | apply Hend; reflexivity]]);
    (destruct (negb (token_type_beq (type t) attrName)
               && negb (str_eqb (value t) name));
     [|exists ts; exact Hrun]).
  - exact I.
  - pose proof (next_on_run _ _ _ Hrun) as Hn.
    destruct (next html) as [[nxt html']|x|]; cbn [bind].
    + destruct Hn as [Hrun' Hend']. apply IH; assumption.
    + right. exact Hn.
    + exact I.
Qed.

Lemma seek_attrValue_on_run (e : res unit) (fuel : nat) :
  forall (href : option token) (html : lexer),
    (exists ts, run html ts e) ->
    (href = None -> e = Ret tt) ->
    stays_on_run e (seek_attrValue fuel href html).
Proof.
  induction fuel as [|fuel IH]; intros href html [ts Hrun] Hend;
    (destruct href as [t|]; cbn [seek_attrValue];
     [|left; split; [reflexivity | apply Hend; reflexivity]]);
    (destruct (negb (token_type_beq (type t) attrValue));
     [|exists ts; exact Hrun]).
  - exact I.
  - pose proof (next_on_run _ _ _ Hrun) as Hn.
    destruct (next html) as [[nxt html']|x|]; cbn [bind].
    + destruct Hn as [Hrun' Hend']. apply IH; assumption.
    + right. exact Hn.
    + exact I.
Qed.

Lemma attribute_after_on_run (e : res unit) (fuel : nat) (name : str)
      (html : lexer) :
  (exists ts, run html ts e) ->
  stays_on_run e (attribute_after fuel name html).
Proof.
  intros [ts Hrun]. unfold attribute_after.
  pose proof (next_on_run _ _ _ Hrun) as Hn.
  destruct (next html) as [[nxt1 h1]|x|]; cbn [bind];
    [|right; exact Hn|exact I].
  destruct Hn as [Hrun1 Hend1].
  pose proof (seek_attrName_on_run name e fuel nxt1 h1 Hrun1 Hend1) as Ha.
  destruct (seek_attrName fuel name nxt1 h1) as [[t2 h2]|x|]; cbn [bind];
    [|exact Ha|exact I].
  destruct Ha as [ts2 Hrun2].
  pose proof (next_on_run _ _ _ Hrun2) as Hn3.
  destruct (next h2) as [[nxt3 h3]|x|]; cbn [bind];
    [|right; exact Hn3|exact I].
  destruct Hn3 as [Hrun3 Hend3].
  pose proof (seek_attrValue_on_run e fuel nxt3 h3 Hrun3 Hend3) as Hv.
  destruct (seek_attrValue fuel nxt3 h3) as [[t4 h4]|x|]; cbn [bind];
    [|exact Hv|exact I].
  exact Hv.
Qed.

Lemma scan_tokens_on_run (buildDirectory file : str) (e : res unit)
      (fuel : nat) :
  forall (node : option token) (html : lexer) (acc : found),
    (exists ts, run html ts e) ->
    (node = None -> e = Ret tt) ->
    match scan_tokens fuel buildDirectory file node html acc with
    | Ret _ => e = Ret tt
    | Raise x => (x = TypeError /\ e = Ret tt) \/ e = Raise x
    | Timeout => True
    end.
Proof.
  induction fuel as [|fuel IH]; intros node html acc Hrun Hend;
    (destruct node as [nd|]; cbn [scan_tokens];
     [|apply Hend; reflexivity]); [exact I|].
  assert (Hlast : forall (h : lexer) (a : found),
             (exists ts, run h ts e) ->
             match ('(nxt, h') <- next h ;;
                    scan_tokens fuel buildDirectory file nxt h' a) with
             | Ret _ => e = Ret tt
             | Raise x => (x = TypeError /\ e = Ret tt) \/ e = Raise x
             | Timeout => True
             end).
  { intros h a [ts Hr]. pose proof (next_on_run _ _ _ Hr) as Hn.
    destruct (next h) as [[nxt h']|x|]; cbn [bind];
      [|right; exact Hn|exact I].
    destruct Hn as [Hr' He']. apply IH; assumption. }
  destruct (is_tagOpen nd (lit "<link")).
  - pose proof (attribute_after_on_run e fuel (lit "href") html Hrun) as Ha.
    destruct (attribute_after fuel (lit "href") html) as [[href h1]|x|];
      cbn [bind]; [|exact Ha|exact I].
    destruct (is_tagOpen nd (lit "<script")).
    + pose proof (attribute_after_on_run e fuel (lit "src") h1 Ha) as Hb.
      destruct (attribute_after fuel (lit "src") h1) as [[src h2]|x|];
        cbn [bind]; [|exact Hb|exact I].
      apply Hlast. exact Hb.
    + cbn [bind]. apply Hlast. exact Ha.
  - cbn [bind]. destruct (is_tagOpen nd (lit "<script")).
    + pose proof (attribute_after_on_run e fuel (lit "src") html Hrun) as Hb.
      destruct (attribute_after fuel (lit "src") html) as [[src h2]|x|];
        cbn [bind]; [|exact Hb|exact I].
      apply Hlast. exact Hb.
    + cbn [bind]. apply Hlast. exact Hrun.
Qed.

(** X6. The walk of scanHTML over a document throws moo's syntax error exactly
    when the tokenizer cannot read the document to its end, and it never stops
    early: when it returns its sets, or runs off the end of the tokens in
    search of an attribute, the whole document has been tokenized. *)
Theorem scan_document_follows_tokenizer (buildDirectory file code : str) :
  (scan_document buildDirectory file code = Raise InvalidSyntax
   <-> snd (tokens code) = Raise InvalidSyntax)
  /\ ((scan_document buildDirectory file code = Raise TypeError
       \/ exists acc, scan_document buildDirectory file code = Ret acc)
      <-> snd (tokens code) = Ret tt).
Proof.
  pose proof (tokens_run code) as Hrun.
  pose proof (tokens_no_timeout code) as Hnt.
  assert (H : match scan_document buildDirectory file code with
              | Ret _ => snd (tokens code) = Ret tt
              | Raise x => (x = TypeError /\ snd (tokens code) = Ret tt)
                           \/ snd (tokens code) = Raise x
              | Timeout => True
              end).
  { unfold scan_document. pose proof (next_on_run _ _ _ Hrun) as Hn.
    destruct (next (parseHTML code)) as [[nxt h]|x|]; cbn [bind];
      [|right; exact Hn|exact I].
    destruct Hn as [Hr He]. apply scan_tokens_on_run; assumption. }
  destruct (scan_document_total buildDirectory file code)
    as [(x & Hx & Hex) | (acc & Hacc)].
  - rewrite Hx in *.
    destruct (snd (tokens code)) as [[]|y|] eqn:Ht; [| |contradiction].
    + destruct H as [[-> _] | H]; [|discriminate].
      split; split; intros Hc; try discriminate; auto.
    + apply run_raises in Hrun. subst y.
      destruct H as [[_ H] | H]; [discriminate|]. inversion H; subst x.
      split; split; intros Hc; try discriminate; auto.
      destruct Hc as [Hc | [a Hc]]; discriminate.
  - rewrite Hacc in *. rewrite H.
    split; split; intros Hc; try discriminate; eauto.
Qed.

(** ** injectHTML and the tokenizer *)

Lemma inject_loop_raise (h b : option str) (html : lexer) (ts : list token)
      (e : res unit) :
  run html ts e ->
  forall (x : exn) (fuel : nat) (nd : token) (st : injection),
    e = Raise x ->
    List.length ts < fuel ->
    inject_loop fuel h b (Some nd) html st = Raise x.
Proof.
  induction 1 as [lx lx' E | lx y E | lx t lx' ts e E _ IH];
    intros x fuel nd st He Hf; [discriminate | |];
    (destruct fuel as [|fuel]; [simpl in Hf; lia|]);
    cbn [inject_loop]; rewrite E; cbn [bind].
  - inversion He; subst. reflexivity.
  - apply IH; [exact He | simpl in Hf; lia].
Qed.

Lemma injectHTML_raise (htmlDoc : str) (h b : option str) (x : exn) :
  snd (tokens htmlDoc) = Raise x -> injectHTML htmlDoc h b = Raise x.
Proof.
  intros Ht. pose proof (tokens_run htmlDoc) as Hrun. rewrite Ht in Hrun.
  unfold injectHTML.
  inversion Hrun as [| lx y E | lx t lx' ts e E Hrun']; subst;
    rewrite E; cbn [bind]; [reflexivity|].
  eapply inject_loop_raise; [exact Hrun' | reflexivity |].
  apply run_length in Hrun'. apply next_shortens in E.
  unfold remaining at 2 in E. simpl in E. lia.
Qed.

(** X7. injectHTML throws exactly when the tokenizer cannot read the document
    to its end, and then it throws the exception of the tokenizer: a document
    with such a place is never returned, not even with the insertions made
    before that place. *)
Theorem injectHTML_throws_iff (htmlDoc : str) (headEnd bodyEnd : option str)
        (x : exn) :
  injectHTML htmlDoc headEnd bodyEnd = Raise x
  <-> snd (tokens htmlDoc) = Raise x.
Proof.
  split; [|apply injectHTML_raise].
  intros H. destruct (tokens htmlDoc) as [ts e] eqn:Ht. cbn [snd].
  destruct e as [[]|y|].
  - rewrite (injectHTML_injected _ headEnd bodyEnd _ Ht) in H. discriminate.
  - rewrite (injectHTML_raise htmlDoc headEnd bodyEnd y) in H
      by (rewrite Ht; reflexivity).
    inversion H; reflexivity.
  - exfalso. apply (tokens_no_timeout htmlDoc). rewrite Ht. reflexivity.
Qed.

Lemma injected_nothing (h b : option str) (ts : list token) :
  forallb (fun t => negb (calls_for_insertion h b t)) ts = true ->
  forall cur, injected h b cur ts = texts ts.
Proof.
  induction ts as [|t ts IH]; intros H cur; [reflexivity|].
  simpl in H. apply andb_true_iff in H as [Ht H].
  apply negb_true_iff in Ht. unfold calls_for_insertion in Ht.
  apply orb_false_iff in Ht as [Hh Hb].
  cbn [injected]. rewrite Hh, Hb, IH by exact H. reflexivity.
Qed.

(** X8. injectHTML returns the document as it is when the tokenizer reads it
    to its end and none of its tokens is a closing tag to insert before: there
    is no [</head>] or the option headEnd is missing or empty, and the same
    for [</body>] and bodyEnd. *)
Theorem injectHTML_nothing_to_insert (htmlDoc : str)
        (headEnd bodyEnd : option str) :
  snd (tokens htmlDoc) = Ret tt ->
  forallb (fun t => negb (calls_for_insertion headEnd bodyEnd t))
    (fst (tokens htmlDoc)) = true ->
  injectHTML htmlDoc headEnd bodyEnd = Ret htmlDoc.
Proof.
  intros He Hts. destruct (tokens htmlDoc) as [ts e] eqn:Ht.
  cbn [fst snd] in *. subst e.
  rewrite (injectHTML_injected _ headEnd bodyEnd _ Ht).
  rewrite injected_nothing by exact Hts.
  f_equal. apply (tokens_roundtrip _ _ Ht).
Qed.

Lemma injectHTML_nothing_to_insert_witness :
  injectHTML (lit "<html><body><p>text</p></body></html>")
    (Some (lit "<link />")) None
  = Ret (lit "<html><body><p>text</p></body></html>").
Proof.
  apply (injectHTML_nothing_to_insert
           (lit "<html><body><p>text</p></body></html>")
           (Some (lit "<link />")) None).
  - vm_compute. reflexivity.
  - vm_compute. reflexivity.
Defined.

(** ** scanHTML on a document without links and scripts *)

Lemma scan_tokens_nothing (buildDirectory file : str) (html : lexer)
      (ts : list token) (e : res unit) :
  run html ts e ->
  forall (fuel : nat) (nd : token) (acc : found),
    e = Ret tt ->
    forallb (fun t => negb (is_link_or_script t)) (nd :: ts) = true ->
    List.length ts < fuel ->
    scan_tokens fuel buildDirectory file (Some nd) html acc = Ret acc.
Proof.
  induction 1 as [lx lx' E | lx y E | lx t lx' ts e E _ IH];
    intros fuel nd acc He Hall Hf; [| discriminate |];
    (destruct fuel as [|fuel]; [simpl in Hf; lia|]);
    cbn [forallb] in Hall; apply andb_true_iff in Hall as [Hnd Hall];
    apply negb_true_iff in Hnd; unfold is_link_or_script in Hnd;
    apply orb_false_iff in Hnd as [Hl Hs];
    cbn [scan_tokens]; rewrite Hl, Hs; cbn [bind]; rewrite E; cbn [bind].
  - destruct fuel; reflexivity.
  - apply IH; [exact He | exact Hall | simpl in Hf; lia].
Qed.

(** X9. For a file the tokenizer reads to its end and that has neither a link
    nor a script tag, scanHTML records three empty sets. *)
Theorem scanHTML_without_links
        (static_imports : str -> list str) (readFile : str -> option str)
        (fuel : nat) (buildDirectory file code : str) :
  readFile file = Some code ->
  snd (tokens code) = Ret tt ->
  forallb (fun t => negb (is_link_or_script t)) (fst (tokens code)) = true ->
  1 <= fuel ->
  scanHTML_file static_imports readFile fuel buildDirectory file
  = Ret {| entry := []; css := []; js := [] |}.
Proof.
  intros Hread He Hall Hfuel.
  assert (Hdoc : scan_document buildDirectory file code
                 = Ret {| allCSSImports := []; allJSImports := [];
                          entries := [] |}).
  { pose proof (tokens_run code) as Hrun. rewrite He in Hrun.
    unfold scan_document.
    inversion Hrun as [lx lx' E | | lx t lx' ts e E Hrun']; subst;
      rewrite E; cbn [bind]; [reflexivity|].
    match goal with
    | Heq : _ :: _ = fst (tokens code) |- _ => rewrite <- Heq in Hall
    end.
    eapply scan_tokens_nothing; [exact Hrun' | reflexivity | exact Hall |].
    apply run_length in Hrun'. apply next_shortens in E.
    unfold remaining at 2 in E. simpl in E. lia. }
  unfold scanHTML_file. rewrite Hread, Hdoc. cbn [bind allJSImports].
  destruct fuel as [|fuel]; [lia|]. reflexivity.
Qed.

Lemma scanHTML_without_links_witness :
  scanHTML_file (fun _ => []) (only_file index_html (lit "<html><a href=x>y</a></html>"))
    1 build_root index_html
  = Ret {| entry := []; css := []; js := [] |}.
Proof.
  apply (scanHTML_without_links (fun _ => [])
           (only_file index_html (lit "<html><a href=x>y</a></html>")) 1
           build_root index_html (lit "<html><a href=x>y</a></html>")).
  - reflexivity.
  - vm_compute. reflexivity.
  - vm_compute. reflexivity.
  - lia.
Defined.

(** ** The sets recorded for a file *)

Section Grows.

Variable static_imports : str -> list str.
Variable seeds : list str.

Lemma for_each_grows (f : str -> list str * list str -> res (list str * list str)) :
  (forall file sc il sc' il',
      reachable static_imports seeds file ->
      NoDup il ->
      (forall g, In g il -> reachable static_imports seeds g) ->
      f file (sc, il) = Ret (sc', il') ->
      NoDup il' /\ (exists t, il' = il ++ t)
      /\ (forall g, In g il' -> reachable static_imports seeds g)) ->
  forall l sc il sc' il',
    (forall g, In g l -> reachable static_imports seeds g) ->
    NoDup il ->
    (forall g, In g il -> reachable static_imports seeds g) ->
    for_each f l (sc, il) = Ret (sc', il') ->
    NoDup il' /\ (exists t, il' = il ++ t)
    /\ (forall g, In g il' -> reachable static_imports seeds g).
Proof.
  intros Hf. induction l as [|a l IH]; intros sc il sc' il' Hl Hnd Hr H;
    cbn [for_each] in H.
  - inversion H; subst. split; [exact Hnd|].
    split; [exists []; rewrite app_nil_r; reflexivity | exact Hr].
  - destruct (f a (sc, il)) as [[sc1 il1]| |] eqn:E; cbn [bind] in H;
      try discriminate.
    apply Hf in E as (Hnd1 & [t1 Ht1] & Hr1); auto; [|apply Hl; left; reflexivity].
    apply IH in H as (Hnd2 & [t2 Ht2] & Hr2); auto;
      [|intros g Hg; apply Hl; right; exact Hg].
    split; [exact Hnd2|]. split; [|exact Hr2].
    exists (t1 ++ t2). rewrite Ht2, Ht1, app_assoc. reflexivity.
Qed.

Lemma scanJS_grows (fuel : nat) :
  forall file sc il sc' il',
    reachable static_imports seeds file ->
    NoDup il ->
    (forall g, In g il -> reachable static_imports seeds g) ->
    scanJS static_imports fuel file (sc, il) = Ret (sc', il') ->
    NoDup il' /\ (exists t, il' = il ++ t)
    /\ (forall g, In g il' -> reachable static_imports seeds g).
Proof.
  induction fuel as [|fuel IH]; intros file sc il sc' il' Hfile Hnd Hr H;
    [discriminate|].
  rewrite scanJS_step in H. destruct (has sc file).
  - inversion H; subst. split; [exact Hnd|].
    split; [exists []; rewrite app_nil_r; reflexivity | exact Hr].
  - apply (for_each_grows _ IH) in H as (Hnd' & [t Ht] & Hr').
    + split; [exact Hnd'|]. split; [|exact Hr'].
      destruct (add_extends il file) as [t1 Ht1].
      destruct (add_all_extends (static_imports file) (add il file))
        as [t2 Ht2].
      exists (t1 ++ t2 ++ t). rewrite Ht, Ht2, Ht1, !app_assoc. reflexivity.
    + intros g Hg. eapply reach_import; eauto.
    + apply NoDup_add_all, NoDup_add, Hnd.
    + intros g Hg. apply In_add_all in Hg as [Hg | Hg].
      * apply In_add in Hg as [Hg | ->]; auto.
      * eapply reach_import; eauto.
Qed.

Lemma scan_imports_grows (fuel : nat) :
  forall i sc il sc' il',
    NoDup il ->
    (forall g, In g il -> reachable static_imports seeds g) ->
    scan_imports static_imports fuel i (sc, il) = Ret (sc', il') ->
    NoDup il' /\ (exists t, il' = il ++ t)
    /\ (forall g, In g il' -> reachable static_imports seeds g).
Proof.
  induction fuel as [|fuel IH]; intros i sc il sc' il' Hnd Hr H;
    [discriminate|].
  rewrite scan_imports_step in H.
  destruct (nth_error il i) as [file|] eqn:Hnth.
  - destruct (scanJS static_imports fuel file (sc, il)) as [[sc1 il1]| |] eqn:E;
      cbn [bind] in H; try discriminate.
    apply scanJS_grows in E as (Hnd1 & [t1 Ht1] & Hr1); auto;
      [|apply Hr; eapply nth_error_In; eauto].
    rewrite add_all_present in H by apply incl_refl.
    apply IH in H as (Hnd2 & [t2 Ht2] & Hr2); auto.
    split; [exact Hnd2|]. split; [|exact Hr2].
    exists (t1 ++ t2). rewrite Ht2, Ht1, app_assoc. reflexivity.
  - inversion H; subst. split; [exact Hnd|].
    split; [exists []; rewrite app_nil_r; reflexivity | exact Hr].
Qed.

End Grows.

Lemma scan_tokens_sets (buildDirectory file : str) (fuel : nat) :
  forall (node : option token) (html : lexer) (acc r : found),
    scan_tokens fuel buildDirectory file node html acc = Ret r ->
    NoDup (allCSSImports acc) ->
    NoDup (allJSImports acc) ->
    allJSImports acc = entries acc ->
    NoDup (allCSSImports r) /\ NoDup (allJSImports r)
    /\ allJSImports r = entries r.
Proof.
  induction fuel as [|fuel IH]; intros node html acc r H Hc Hj He;
    (destruct node as [nd|]; cbn [scan_tokens] in H;
     [|inversion H; subst; auto]); [discriminate|].
  destruct (is_tagOpen nd (lit "<link"));
    [destruct (attribute_after fuel (lit "href") html) as [[href h1]| |];
     cbn [bind] in H; try discriminate|];
    cbn [bind] in H;
    (destruct (is_tagOpen nd (lit "<script"));
     [match type of H with
      | context [attribute_after fuel (lit "src") ?h] =>
          destruct (attribute_after fuel (lit "src") h) as [[src h2]| |];
          cbn [bind] in H; try discriminate
      end|]);
    cbn [bind] in H;
    match type of H with
    | context [next ?h] =>
        destruct (next h) as [[nxt h3]| |]; cbn [bind] in H;
        try discriminate
    end;
    apply IH in H; auto; cbn; auto using NoDup_add; f_equal; exact He.
Qed.

(** X10. Whenever scanHTML records an entry for a file, each of its three
    lists is free of duplicates, the js list starts with the entry list, and
    every file of the js list is reached from an entry through static imports.
    *)
Theorem scanHTML_file_sets
        (static_imports : str -> list str) (readFile : str -> option str)
        (fuel : nat) (buildDirectory file : str) (d : imports) :
  scanHTML_file static_imports readFile fuel buildDirectory file = Ret d ->
  NoDup (entry d) /\ NoDup (css d) /\ NoDup (js d)
  /\ (exists t, js d = entry d ++ t)
  /\ (forall f, In f (js d) -> reachable static_imports (entry d) f).
Proof.
  unfold scanHTML_file. destruct (readFile file) as [code|]; [|discriminate].
  destruct (scan_document buildDirectory file code) as [acc| |] eqn:Hdoc;
    cbn [bind]; try discriminate.
  assert (Hacc : NoDup (allCSSImports acc) /\ NoDup (allJSImports acc)
                 /\ allJSImports acc = entries acc).
  { unfold scan_document in Hdoc.
    destruct (next (parseHTML code)) as [[nxt h]| |]; cbn [bind] in Hdoc;
      try discriminate.
    apply scan_tokens_sets in Hdoc; auto; constructor. }
  destruct Hacc as (Hc & Hj & He).
  destruct (scan_imports static_imports fuel 0 ([], allJSImports acc))
    as [[sc allJS]| |] eqn:Hs; cbn [bind]; try discriminate.
  intros H. inversion H; subst d; clear H. cbn [entry css js].
  apply (scan_imports_grows static_imports (entries acc)) in Hs
    as (Hnd & Ht & Hr).
  - rewrite He in Hj, Ht.
    split; [exact Hj|]. split; [exact Hc|]. split; [exact Hnd|].
    split; [exact Ht | exact Hr].
  - exact Hj.
  - intros g Hg. apply reach_seed. rewrite <- He. exact Hg.
Qed.

Lemma scanHTML_file_sets_witness :
  NoDup [build_root ++ lit "/b.js"]
  /\ NoDup [build_root ++ lit "/a.css"]
  /\ NoDup [build_root ++ lit "/b.js"]
  /\ (exists t, [build_root ++ lit "/b.js"] = [build_root ++ lit "/b.js"] ++ t)
  /\ (forall f, In f [build_root ++ lit "/b.js"] ->
                reachable (fun _ => []) [build_root ++ lit "/b.js"] f).
Proof.
  apply (scanHTML_file_sets (fun _ => [])
           (only_file index_html link_script_page) 2 build_root index_html
           {| entry := [build_root ++ lit "/b.js"];
              css := [build_root ++ lit "/a.css"];
              js := [build_root ++ lit "/b.js"] |}).
  vm_compute. reflexivity.
Defined.

(** ** scanHTML over the list of files *)

Section Settle.

Variable static_imports : str -> list str.
Variable readFile : str -> option str.
Variable fuel : nat.
Variable buildDirectory : str.







End Settle.

(** ** The entries of preloadJS *)

(** X12. The loop of preloadJS over the attributes of a script tag stops as
    soon as it has read one of [src] and [type], so the test for a module
    script with a source never succeeds: whatever the document, step 1 ends
    with an empty set of original entries, or throws. *)
Theorem module_script_branch_is_dead :
  (forall (fuel : nat) (html h : lexer) (src type_ : str),
      script_attributes fuel html [] [] = Ret (h, src, type_) ->
      truthy src && str_eqb type_ (dq (lit "module")) = false)
  /\ (forall (code : str) (originalEntries : list str),
         original_entries code = Ret originalEntries ->
         originalEntries = []).
Proof.
  split.
  - intros fuel html h src type_ H.
    apply script_attributes_one in H; [|reflexivity].
    destruct (str_eqb type_ (dq (lit "module"))) eqn:E;
      [|apply andb_false_r].
    apply str_eqb_eq in E. subst type_. rewrite andb_true_r in *. exact H.
  - intros code l H.
    destruct (original_entries_total code) as [(e & He & _) | He];
      rewrite He in H; [discriminate | inversion H; reflexivity].
Qed.

Lemma module_script_branch_is_dead_witness :
  truthy [] && str_eqb (dq (lit "module")) (dq (lit "module")) = false
  /\ @nil str = [].
Proof.
  split.
  - apply (proj1 module_script_branch_is_dead 60
             {| buffer := module_page; index := 32; state := tag;
                stack := [main] |}
             {| buffer := module_page; index := 46; state := tag;
                stack := [main] |} [] (dq (lit "module"))).
    vm_compute. reflexivity.
  - apply (proj2 module_script_branch_is_dead module_page []).
    vm_compute. reflexivity.
Defined.

(* ================================================================== *)
(** ** The task of one file *)

Section PluginFacts.

Variable options : plugin_options.
Variable minifyCss : str -> res str.
Variable transformCSSProxy : files -> str -> str -> res str.
Variable transform : str -> res str.
Variable minifyHtml : str -> res str.

Lemma writeFileSync_other (fs : files) (file code f : str) :
  f <> file -> writeFileSync fs file code f = fs f.
Proof.
  intros H. unfold writeFileSync. rewrite (str_eqb_neq f file H). reflexivity.
Qed.

Lemma readFileSync_some (fs : files) (file code : str) :
  readFileSync fs file = Ret code -> fs file = Some code.
Proof.
  unfold readFileSync. destruct (fs file); intros H; inversion H; reflexivity.
Qed.

(** What a task that ends well has written. *)
Lemma task_writes (fs fs' : files) (file : str) :
  optimizeFile options minifyCss transformCSSProxy transform minifyHtml fs file
  = Ret fs' ->
  fs' = fs
  \/ exists old new, fs file = Some old /\ fs' = writeFileSync fs file new.
Proof.
  unfold optimizeFile. intros H.
  repeat match type of H with
         | (if ?c then _ else _) = _ => destruct c
         | context [bind (readFileSync fs file) _] =>
             let E := fresh "E" in
             destruct (readFileSync fs file) as [code| |] eqn:E;
             [apply readFileSync_some in E|discriminate|discriminate];
             cbn [bind] in H
         | context [bind ?m _] =>
             destruct m as [?code| |]; cbn [bind] in H; try discriminate
         | Ret _ = Ret _ => inversion H; subst; clear H
         | _ => cbn [bind undeclared] in H; try discriminate
         end;
    try (left; reflexivity); try (right; eauto).
Qed.

(** X13. A task touches no file but its own, and it never creates a file: a
    task that ends well leaves every other path as it was, and its own path
    readable only if it was readable before. *)
Theorem optimizeFile_frame (fs fs' : files) (file : str) :
  optimizeFile options minifyCss transformCSSProxy transform minifyHtml fs file
  = Ret fs' ->
  (forall f, f <> file -> fs' f = fs f)
  /\ (fs file = None -> forall f, fs' f = fs f).
Proof.
  intros H. apply task_writes in H as [-> | (old & new & Hold & ->)].
  - split; reflexivity.
  - split.
    + intros f Hf. apply writeFileSync_other. exact Hf.
    + intros Hnone. rewrite Hold in Hnone. discriminate.
Qed.

(** X14. With the option preloadModules, the task of an HTML file never ends
    well, so the file is never rewritten: the call of [preloadJS], which the
    module does not declare, throws a ReferenceError, unless the file cannot
    be read or the injection of the stylesheet link throws first. *)
Theorem optimizeFile_preloadModules_throws (fs : files) (file : str) :
  toLowerCase (path_extname file) = lit ".html" ->
  preloadModules options = true ->
  (exists e, optimizeFile options minifyCss transformCSSProxy transform minifyHtml
               fs file = Raise e
             /\ (e = IOError \/ e = InvalidSyntax
                 \/ e = ReferenceError "preloadJS"))
  /\ (forall code,
         fs file = Some code ->
         snd (tokens code) = Ret tt ->
         optimizeFile options minifyCss transformCSSProxy transform minifyHtml
           fs file = Raise (ReferenceError "preloadJS")).
Proof.
  intros Hext Hpm. unfold optimizeFile. rewrite Hext, Hpm.
  change (str_eqb (lit ".html") (lit ".css")) with false.
  change (str_eqb (lit ".html") (lit ".js")) with false.
  change (str_eqb (lit ".html") (lit ".mjs")) with false.
  change (str_eqb (lit ".html") (lit ".html")) with true.
  cbv iota. cbn [orb]. rewrite orb_true_r. cbn [orb negb].
  unfold readFileSync. split.
  - destruct (fs file) as [code|]; cbn [bind]; [|eauto].
    destruct (preloadCSS options); cbn [bind undeclared]; [|eauto 6].
    destruct (injectHTML_total code
                (Some (combined_css_link (combinedCSSName options))) None)
      as [Hi | [doc Hi]]; rewrite Hi; cbn [bind]; eauto 6.
  - intros code Hread Htok. rewrite Hread. cbn [bind].
    destruct (preloadCSS options); cbn [bind undeclared]; [|reflexivity].
    destruct (tokens code) as [ts e] eqn:Ht. cbn [snd] in Htok. subst e.
    rewrite (injectHTML_injected _ _ _ _ Ht). reflexivity.
Qed.

(** X15. Without preloadModules and with preloadCSS, the task of an HTML file
    that the tokenizer reads to its end writes the file once: the document
    with the link to the combined stylesheet before every [</head>], run
    through the minifier when minifyHTML is set; if the minifier throws,
    nothing is written. *)
Theorem optimizeFile_html (fs : files) (file code : str) :
  toLowerCase (path_extname file) = lit ".html" ->
  preloadModules options = false ->
  preloadCSS options = true ->
  fs file = Some code ->
  snd (tokens code) = Ret tt ->
  optimizeFile options minifyCss transformCSSProxy transform minifyHtml fs file
  = (code <- (if minifyHTML options
              then minifyHtml
                     (injected
                        (Some (combined_css_link (combinedCSSName options)))
                        None [] (fst (tokens code)))
              else Ret (injected
                          (Some (combined_css_link (combinedCSSName options)))
                          None [] (fst (tokens code)))) ;;
     Ret (writeFileSync fs file code)).
Proof.
  intros Hext Hpm Hpc Hread Htok. unfold optimizeFile.
  rewrite Hext, Hpm, Hpc.
  change (str_eqb (lit ".html") (lit ".css")) with false.
  change (str_eqb (lit ".html") (lit ".js")) with false.
  change (str_eqb (lit ".html") (lit ".mjs")) with false.
  change (str_eqb (lit ".html") (lit ".html")) with true.
  cbv iota. cbn [orb negb]. unfold readFileSync. rewrite Hread. cbn [bind].
  destruct (tokens code) as [ts e] eqn:Ht. cbn [fst snd] in *. subst e.
  rewrite (injectHTML_injected _ _ _ _ Ht). cbn [bind]. reflexivity.
Qed.

End PluginFacts.

Lemma optimizeFile_frame_witness :
  (forall f, f <> index_html ->
             writeFileSync (only_file index_html (lit "<html><head></head></html>"))
               index_html
               (injected (Some (combined_css_link (lit "/imported-styles.css")))
                  None [] (fst (tokens (lit "<html><head></head></html>")))) f
             = only_file index_html (lit "<html><head></head></html>") f)
  /\ (only_file index_html (lit "<html><head></head></html>") index_html = None ->
      forall f,
        writeFileSync (only_file index_html (lit "<html><head></head></html>"))
          index_html
          (injected (Some (combined_css_link (lit "/imported-styles.css")))
             None [] (fst (tokens (lit "<html><head></head></html>")))) f
        = only_file index_html (lit "<html><head></head></html>") f).
Proof.
  apply (optimizeFile_frame default_options (fun c => Ret c)
           (fun _ _ c => Ret c) (fun c => Ret c) (fun c => Ret c)
           (only_file index_html (lit "<html><head></head></html>"))
           (writeFileSync (only_file index_html (lit "<html><head></head></html>"))
              index_html
              (injected (Some (combined_css_link (lit "/imported-styles.css")))
                 None [] (fst (tokens (lit "<html><head></head></html>")))))
           index_html).
  vm_compute. reflexivity.
Defined.

Lemma optimizeFile_preloadModules_throws_witness :
  (exists e,
      optimizeFile
        {| minifyJS := true; minifyHTML := true; minifyCSS := true;
           preloadCSS := true; preloadModules := true;
           combinedCSSName := lit "/imported-styles.css" |}
        (fun c => Ret c) (fun _ _ c => Ret c) (fun c => Ret c) (fun c => Ret c)
        (only_file index_html module_page) index_html = Raise e
      /\ (e = IOError \/ e = InvalidSyntax \/ e = ReferenceError "preloadJS"))
  /\ (forall code,
         only_file index_html module_page index_html = Some code ->
         snd (tokens code) = Ret tt ->
         optimizeFile
           {| minifyJS := true; minifyHTML := true; minifyCSS := true;
              preloadCSS := true; preloadModules := true;
              combinedCSSName := lit "/imported-styles.css" |}
           (fun c => Ret c) (fun _ _ c => Ret c) (fun c => Ret c)
           (fun c => Ret c)
           (only_file index_html module_page) index_html
         = Raise (ReferenceError "preloadJS")).
Proof.
  apply (optimizeFile_preloadModules_throws
           {| minifyJS := true; minifyHTML := true; minifyCSS := true;
              preloadCSS := true; preloadModules := true;
              combinedCSSName := lit "/imported-styles.css" |}
           (fun c => Ret c) (fun _ _ c => Ret c) (fun c => Ret c)
           (fun c => Ret c)
           (only_file index_html module_page) index_html).
  - vm_compute. reflexivity.
  - reflexivity.
Defined.

Lemma optimizeFile_html_witness :
  optimizeFile default_options (fun c => Ret c) (fun _ _ c => Ret c)
    (fun c => Ret c) (fun c => Ret c)
    (only_file index_html (lit "<html><head></head></html>")) index_html
  = (code <- (if minifyHTML default_options
              then Ret (injected
                          (Some (combined_css_link
                                   (combinedCSSName default_options)))
                          None []
                          (fst (tokens (lit "<html><head></head></html>"))))
              else Ret (injected
                          (Some (combined_css_link
                                   (combinedCSSName default_options)))
                          None []
                          (fst (tokens (lit "<html><head></head></html>"))))) ;;
     Ret (writeFileSync
            (only_file index_html (lit "<html><head></head></html>"))
            index_html code)).
Proof.
  apply (optimizeFile_html default_options (fun c => Ret c)
           (fun _ _ c => Ret c) (fun c => Ret c) (fun c => Ret c)
           (only_file index_html (lit "<html><head></head></html>"))
           index_html (lit "<html><head></head></html>")).
  - vm_compute. reflexivity.
  - reflexivity.
  - reflexivity.
  - vm_compute. reflexivity.
  - vm_compute. reflexivity.
Defined.

(* ================================================================== *)
(** ** The extension of a file name *)

Lemma extname_loop_S (p : str) (i : nat) (st : ext_scan) :
  extname_loop p (S i) st
  = if N.eqb (nth i p 0%N) SLASH then
      if negb (matchedSlash st) then
        {| startDot := startDot st; startPart := Z.of_nat i + 1;
           end_ := end_ st; matchedSlash := matchedSlash st;
           preDotState := preDotState st |}
      else extname_loop p i st
    else
      extname_loop p i
        (let st1 :=
           if Z.eqb (end_ st) (-1)
           then {| startDot := startDot st; startPart := startPart st;
                   end_ := Z.of_nat i + 1; matchedSlash := false;
                   preDotState := preDotState st |}
           else st in
         if N.eqb (nth i p 0%N) DOT then
           if Z.eqb (startDot st1) (-1)
           then {| startDot := Z.of_nat i; startPart := startPart st1;
                   end_ := end_ st1; matchedSlash := matchedSlash st1;
                   preDotState := preDotState st1 |}
           else if negb (Z.eqb (preDotState st1) 1)
           then {| startDot := startDot st1; startPart := startPart st1;
                   end_ := end_ st1; matchedSlash := matchedSlash st1;
                   preDotState := 1 |}
           else st1
         else if negb (Z.eqb (startDot st1) (-1))
         then {| startDot := startDot st1; startPart := startPart st1;
                 end_ := end_ st1; matchedSlash := matchedSlash st1;
                 preDotState := -1 |}
         else st1).
Proof. reflexivity. Qed.

(** Behind the end of the extension and before its dot, the code units of
    the extension leave the variables of the loop as they are. *)
Lemma extname_loop_skip (p : str) (lo : nat) :
  forall (k : nat) (st : ext_scan),
    (forall i, lo <= i < lo + k -> is_ext_unit (nth i p 0%N) = true) ->
    startDot st = (-1)%Z ->
    end_ st <> (-1)%Z ->
    extname_loop p (lo + k) st = extname_loop p lo st.
Proof.
  induction k as [|k IH]; intros st Hall Hsd Hen.
  - rewrite Nat.add_0_r. reflexivity.
  - rewrite <- plus_n_Sm, extname_loop_S.
    assert (Hc : is_ext_unit (nth (lo + k) p 0%N) = true)
      by (apply Hall; lia).
    unfold is_ext_unit in Hc. apply andb_true_iff in Hc as [Hs Hd].
    apply negb_true_iff in Hs, Hd. rewrite Hs, Hd.
    apply Z.eqb_neq in Hen. rewrite Hen. cbv zeta. rewrite Hsd.
    cbn [Z.eqb negb]. apply IH; auto.
    + intros i Hi. apply Hall. lia.
    + apply Z.eqb_neq. exact Hen.
Qed.

(** Once the dot and the end of the extension are found and a code unit
    before the dot is seen, the rest of the loop keeps them. *)
Lemma extname_loop_keeps (p : str) :
  forall (n : nat) (st : ext_scan),
    startDot st <> (-1)%Z ->
    end_ st <> (-1)%Z ->
    preDotState st <> 0%Z ->
    startDot (extname_loop p n st) = startDot st
    /\ end_ (extname_loop p n st) = end_ st
    /\ preDotState (extname_loop p n st) <> 0%Z.
Proof.
  induction n as [|n IH]; intros st Hsd Hen Hpre; [auto|].
  rewrite extname_loop_S.
  apply Z.eqb_neq in Hsd as Hsd', Hen as Hen'.
  destruct (N.eqb (nth n p 0%N) SLASH).
  - destruct (negb (matchedSlash st)); [cbn; auto | apply IH; auto].
  - rewrite Hen'. cbv zeta. rewrite Hsd'. cbn [negb].
    destruct (N.eqb (nth n p 0%N) DOT).
    + destruct (negb (Z.eqb (preDotState st) 1)).
      * destruct (IH {| startDot := startDot st; startPart := startPart st;
                        end_ := end_ st; matchedSlash := matchedSlash st;
                        preDotState := 1 |}) as (H1 & H2 & H3);
          cbn; auto; discriminate.
      * apply IH; auto.
    + destruct (IH {| startDot := startDot st; startPart := startPart st;
                      end_ := end_ st; matchedSlash := matchedSlash st;
                      preDotState := -1 |}) as (H1 & H2 & H3);
        cbn; auto; discriminate.
Qed.

Lemma extname_loop_end (p : str) (i : nat) (sp : Z) (ms : bool) (pd : Z) :
  is_ext_unit (nth i p 0%N) = true ->
  extname_loop p (S i)
    {| startDot := -1; startPart := sp; end_ := -1; matchedSlash := ms;
       preDotState := pd |}
  = extname_loop p i
      {| startDot := -1; startPart := sp; end_ := Z.of_nat i + 1;
         matchedSlash := false; preDotState := pd |}.
Proof.
  intros Hc. unfold is_ext_unit in Hc. apply andb_true_iff in Hc as [Hs Hd].
  apply negb_true_iff in Hs, Hd. rewrite extname_loop_S, Hs, Hd. reflexivity.
Qed.

Lemma extname_loop_dot (p : str) (i : nat) (sp en : Z) (ms : bool) (pd : Z) :
  nth i p 0%N = DOT ->
  en <> (-1)%Z ->
  extname_loop p (S i)
    {| startDot := -1; startPart := sp; end_ := en; matchedSlash := ms;
       preDotState := pd |}
  = extname_loop p i
      {| startDot := Z.of_nat i; startPart := sp; end_ := en;
         matchedSlash := ms; preDotState := pd |}.
Proof.
  intros Hc Hen. apply Z.eqb_neq in Hen.
  rewrite extname_loop_S, Hc. cbn [end_]. rewrite Hen. reflexivity.
Qed.

Lemma extname_loop_before_dot (p : str) (i : nat) (sd sp en : Z) (ms : bool) :
  nth i p 0%N <> SLASH ->
  sd <> (-1)%Z ->
  en <> (-1)%Z ->
  exists pd,
    pd <> 0%Z
    /\ extname_loop p (S i)
         {| startDot := sd; startPart := sp; end_ := en; matchedSlash := ms;
            preDotState := 0 |}
       = extname_loop p i
           {| startDot := sd; startPart := sp; end_ := en; matchedSlash := ms;
              preDotState := pd |}.
Proof.
  intros Hc Hsd Hen. apply N.eqb_neq in Hc. apply Z.eqb_neq in Hsd, Hen.
  rewrite extname_loop_S, Hc. cbn [end_]. rewrite Hen. cbv zeta.
  cbn [startDot]. rewrite Hsd. cbn [negb preDotState Z.eqb].
  destruct (N.eqb (nth i p 0%N) DOT).
  - exists 1%Z. split; [discriminate | reflexivity].
  - exists (-1)%Z. split; [discriminate | reflexivity].
Qed.

(** The extension of a name that ends with a dot and an extension. *)
Lemma extname_suffix (base e : str) :
  base <> [] ->
  last base 0%N <> SLASH ->
  e <> [] ->
  forallb is_ext_unit e = true ->
  path_extname (base ++ DOT :: e) = DOT :: e.
Proof.
  intros Hbase Hlast He Hall.
  destruct (exists_last Hbase) as (b & c & ->).
  rewrite last_last in Hlast.
  destruct (exists_last He) as (e0 & x & ->).
  set (p := (b ++ [c]) ++ DOT :: e0 ++ [x]).
  assert (Hlen : List.length p = S (S (S (List.length b)) + List.length e0)).
  { subst p. rewrite !length_app. cbn [List.length]. rewrite length_app.
    cbn [List.length]. lia. }
  assert (Hext : forall i, S (S (List.length b)) <= i < List.length p ->
                           is_ext_unit (nth i p 0%N) = true).
  { intros i Hi. subst p.
    replace ((b ++ [c]) ++ DOT :: e0 ++ [x])
      with ((b ++ [c; DOT]) ++ (e0 ++ [x]))
      by (rewrite <- !app_assoc; reflexivity).
    rewrite app_nth2 by (rewrite length_app; cbn [List.length]; lia).
    rewrite forallb_forall in Hall. apply Hall. apply nth_In.
    rewrite Hlen in Hi. rewrite !length_app. cbn [List.length]. lia. }
  assert (Hdot : nth (S (List.length b)) p 0%N = DOT).
  { subst p. replace (S (List.length b)) with (List.length (b ++ [c]))
      by (rewrite length_app; cbn [List.length]; lia).
    apply nth_middle. }
  assert (Hc : nth (List.length b) p 0%N = c).
  { subst p. rewrite <- app_assoc. apply nth_middle. }
  assert (Hskip : skipn (S (List.length b)) p = DOT :: e0 ++ [x]).
  { subst p. replace (S (List.length b)) with (List.length (b ++ [c]) + 0)
      by (rewrite length_app; cbn [List.length]; lia).
    rewrite skipn_app, skipn_all2 by lia.
    replace (List.length (b ++ [c]) + 0 - List.length (b ++ [c])) with 0
      by lia.
    reflexivity. }
  unfold path_extname. fold p. rewrite Hlen.
  rewrite extname_loop_end by (apply Hext; lia).
  rewrite extname_loop_skip;
    [ | intros i Hi; apply Hext; lia | reflexivity | cbn [end_]; lia ].
  rewrite extname_loop_dot by (exact Hdot || lia).
  destruct (extname_loop_before_dot p (List.length b)
              (Z.of_nat (S (List.length b))) 0
              (Z.of_nat (S (S (List.length b)) + List.length e0) + 1) false)
    as (pd & Hpd & Hstep); [rewrite Hc; exact Hlast | lia | lia |].
  rewrite Hstep.
  match goal with
  | |- context [extname_loop p (List.length b) ?st] =>
      destruct (extname_loop_keeps p (List.length b) st) as (H1 & H2 & H3);
      [ cbn [startDot]; lia | cbn [end_]; lia | exact Hpd | ];
      cbn [startDot end_] in H1, H2;
      rewrite H1, H2
  end.
  apply Z.eqb_neq in H3. rewrite H3.
  replace (Z.eqb (Z.of_nat (S (List.length b))) (-1)) with false
    by (symmetry; apply Z.eqb_neq; lia).
  replace (Z.eqb (Z.of_nat (S (S (List.length b)) + List.length e0) + 1) (-1))
    with false by (symmetry; apply Z.eqb_neq; lia).
  replace (Z.eqb (Z.of_nat (S (List.length b)))
             (Z.of_nat (S (S (List.length b)) + List.length e0) + 1 - 1))
    with false by (symmetry; apply Z.eqb_neq; lia).
  rewrite andb_false_r. cbn [orb andb].
  rewrite Nat2Z.id, Hskip. apply firstn_all2.
  cbn [List.length]. rewrite length_app. cbn [List.length]. lia.
Qed.

(** X16. A file name that ends in [.html] is handed to scanHTML and takes the
    HTML branch of optimizeFile. A file name that ends in [.HTML] takes the
    HTML branch of optimizeFile as well, since the extension is lowered there,
    but it is never handed to scanHTML, whose filter compares the extension as
    it is. The name before the extension is not empty and does not end with a
    slash. *)
Theorem html_files_by_name (allFiles : list str) (base : str) :
  base <> [] ->
  last base 0%N <> SLASH ->
  (In (base ++ lit ".html") (scanned_files allFiles)
   <-> In (base ++ lit ".html") allFiles)
  /\ toLowerCase (path_extname (base ++ lit ".html")) = lit ".html"
  /\ ~ In (base ++ lit ".HTML") (scanned_files allFiles)
  /\ toLowerCase (path_extname (base ++ lit ".HTML")) = lit ".html".
Proof.
  intros Hbase Hlast.
  assert (Hl : path_extname (base ++ lit ".html") = lit ".html")
    by (apply (extname_suffix base (lit "html")); auto; discriminate).
  assert (Hu : path_extname (base ++ lit ".HTML") = lit ".HTML")
    by (apply (extname_suffix base (lit "HTML")); auto; discriminate).
  unfold scanned_files. rewrite !filter_In, Hl, Hu.
  split; [|split; [reflexivity | split; [|reflexivity]]].
  - split; [intros [H _]; exact H | intros H; split; [exact H | reflexivity]].
  - intros [_ H]. discriminate H.
Qed.

Lemma html_files_by_name_witness :
  (In (lit "/build/index" ++ lit ".html")
     (scanned_files [lit "/build/index.html"; lit "/build/index.HTML"])
   <-> In (lit "/build/index" ++ lit ".html")
         [lit "/build/index.html"; lit "/build/index.HTML"])
  /\ toLowerCase (path_extname (lit "/build/index" ++ lit ".html"))
     = lit ".html"
  /\ ~ In (lit "/build/index" ++ lit ".HTML")
         (scanned_files [lit "/build/index.html"; lit "/build/index.HTML"])
  /\ toLowerCase (path_extname (lit "/build/index" ++ lit ".HTML"))
     = lit ".html".
Proof.
  apply (html_files_by_name [lit "/build/index.html"; lit "/build/index.HTML"]
           (lit "/build/index")).
  - discriminate.
  - vm_compute. discriminate.
Defined.

(* ================================================================== *)
(** ** Resolving the paths of links and scripts *)

Lemma dirname_end_name (p : str) (lo : nat) :
  forall (k : nat) (ms : bool),
    (forall i, lo < i <= lo + k -> N.eqb (nth i p 0%N) SLASH = false) ->
    1 <= k ->
    path.dirname_end p (lo + k) ms = path.dirname_end p lo false.
Proof.
  induction k as [|k IH]; intros ms Hall Hk; [lia|].
  rewrite <- plus_n_Sm. cbn [path.dirname_end].
  rewrite (Hall (S (lo + k))) by lia.
  destruct k as [|k]; [rewrite Nat.add_0_r; reflexivity|].
  apply IH; [intros i Hi; apply Hall; lia | lia].
Qed.

(** The directory of a file in a directory. *)
Lemma dirname_of_file (dir name : str) :
  dir <> [] ->
  N.eqb (last dir 0%N) SLASH = false ->
  plain_segment name = true ->
  path.dirname (dir ++ SLASH :: name) = dir.
Proof.
  intros Hdir Hlast Hname.
  assert (Hn : name <> [] /\ forallb (fun c => negb (N.eqb c SLASH)) name = true).
  { unfold plain_segment in Hname. apply andb_true_iff in Hname as [H Hall].
    split; [destruct name; [discriminate H | discriminate] | exact Hall]. }
  destruct Hn as [Hne Hall].
  set (p := dir ++ SLASH :: name).
  assert (Hlen : List.length p - 1 = List.length dir + List.length name).
  { subst p. rewrite length_app. cbn [List.length]. lia. }
  assert (Hnm : forall i, List.length dir < i <= List.length dir + List.length name ->
                          N.eqb (nth i p 0%N) SLASH = false).
  { intros i Hi. subst p.
    replace (dir ++ SLASH :: name) with ((dir ++ [SLASH]) ++ name)
      by (rewrite <- app_assoc; reflexivity).
    rewrite app_nth2 by (rewrite length_app; cbn [List.length]; lia).
    rewrite forallb_forall in Hall. apply negb_true_iff. apply Hall.
    apply nth_In. rewrite length_app. cbn [List.length]. lia. }
  assert (Hend : path.dirname_end p (List.length p - 1) true
                 = Some (List.length dir)).
  { rewrite Hlen, dirname_end_name; [|exact Hnm|destruct name; [contradiction|simpl; lia]].
    destruct (List.length dir) as [|n] eqn:Hd;
      [destruct dir; [contradiction | discriminate]|].
    cbn [path.dirname_end]. rewrite <- Hd. subst p. rewrite nth_middle.
    reflexivity. }
  unfold path.dirname. fold p.
  destruct p as [|c0 p0] eqn:Hp;
    [subst p; destruct dir; discriminate|].
  rewrite Hend.
  assert (Hfirst : firstn (List.length dir) (c0 :: p0) = dir).
  { rewrite <- Hp. subst p.
    replace (List.length dir) with (List.length dir + 0) by lia.
    rewrite firstn_app_2. cbn [firstn]. apply app_nil_r. }
  destruct (N.eqb c0 SLASH && (List.length dir =? 1)) eqn:E;
    [|exact Hfirst].
  exfalso. apply andb_true_iff in E as [Hc0 Hone].
  apply Nat.eqb_eq in Hone.
  destruct dir as [|d [|d' dir']]; try discriminate.
  subst p. inversion Hp; subst. cbn [last] in Hlast.
  rewrite Hc0 in Hlast. discriminate.
Qed.

(** A plain segment joined onto a normalized directory that is neither [.]
    nor ends by a slash is the directory, a slash and the segment. *)
Lemma join_normalized_dir (root seg : str) :
  path.normalize root = root ->
  N.eqb (last root 0%N) SLASH = false ->
  root <> lit "." ->
  plain_segment seg = true ->
  path.join root seg = root ++ SLASH :: seg.
Proof.
  intros Hn Hl Hd Hs.
  destruct root as [|c0 r0]; [discriminate Hn|].
  assert (Hseg : seg <> []).
  { unfold plain_segment in Hs. destruct seg; [discriminate Hs | discriminate]. }
  assert (Hlast : N.eqb (last ((c0 :: r0) ++ SLASH :: seg) 0%N) SLASH = false).
  { replace ((c0 :: r0) ++ SLASH :: seg) with (((c0 :: r0) ++ [SLASH]) ++ seg)
      by (rewrite <- app_assoc; reflexivity).
    rewrite last_append by exact Hseg. apply last_plain. exact Hs. }
  assert (Hsplit : path.split ((c0 :: r0) ++ SLASH :: seg)
                   = path.split (c0 :: r0) ++ [seg]).
  { rewrite split_app_slash. f_equal. apply split_plain.
    unfold plain_segment in Hs. apply andb_true_iff in Hs as [_ Hs]. exact Hs. }
  unfold path.join. destruct seg as [|s0 s1]; [contradiction|].
  unfold path.normalize in *.
  change ((c0 :: r0) ++ SLASH :: s0 :: s1)
    with (c0 :: (r0 ++ SLASH :: s0 :: s1)) in *.
  cbv iota. rewrite Hlast. rewrite Hl in Hn.
  unfold path.normalizeString in *.
  rewrite Hsplit, fold_left_app. cbn [fold_left].
  set (acc := fold_left (path.normalize_segment (negb (N.eqb c0 SLASH)))
                (path.split (c0 :: r0)) []) in *.
  rewrite normalize_segment_plain by exact Hs.
  cbn [rev].
  assert (Hempty : (if N.eqb c0 SLASH then [SLASH] else lit ".") = c0 :: r0
                   -> False).
  { intros Hroot. destruct (N.eqb c0 SLASH).
    - rewrite <- Hroot in Hl. discriminate Hl.
    - apply Hd. symmetry. exact Hroot. }
  destruct (rev acc) as [|x0 ss] eqn:Hacc.
  { exfalso. apply Hempty. exact Hn. }
  rewrite unsplit_snoc by discriminate.
  destruct (path.unsplit (x0 :: ss)) as [|x xs] eqn:Hu.
  { exfalso. apply Hempty. exact Hn. }
  change (c0 :: r0 ++ SLASH :: s0 :: s1)
    with ((c0 :: r0) ++ SLASH :: s0 :: s1).
  rewrite <- Hn. destruct (N.eqb c0 SLASH); reflexivity.
Qed.

(** X17. How scanHTML resolves the value of an [href] or [src] that is one
    plain segment: after a leading slash it is put under the build directory,
    and without one under the directory of the HTML file. Both directories are
    normalized paths other than [.] that do not end by a slash. *)
Theorem resolve_against_directories (buildDirectory dir name seg : str) :
  path.normalize buildDirectory = buildDirectory ->
  N.eqb (last buildDirectory 0%N) SLASH = false ->
  buildDirectory <> lit "." ->
  path.normalize dir = dir ->
  N.eqb (last dir 0%N) SLASH = false ->
  dir <> lit "." ->
  plain_segment name = true ->
  plain_segment seg = true ->
  resolve buildDirectory (dir ++ SLASH :: name) (SLASH :: seg)
  = buildDirectory ++ SLASH :: seg
  /\ resolve buildDirectory (dir ++ SLASH :: name) seg = dir ++ SLASH :: seg.
Proof.
  intros Hb1 Hb2 Hb3 Hd1 Hd2 Hd3 Hname Hseg. split.
  - unfold resolve. change (N.eqb SLASH SLASH) with true. cbv iota.
    apply join_normalized_root; assumption.
  - assert (Hdir : dir <> []) by (intros ->; discriminate Hd1).
    unfold resolve. rewrite dirname_of_file by assumption.
    destruct seg as [|c seg']; [discriminate Hseg|].
    assert (Hc : N.eqb c SLASH = false).
    { unfold plain_segment in Hseg. apply andb_true_iff in Hseg as [_ H].
      simpl in H. apply andb_true_iff in H as [H _].
      apply negb_true_iff in H. exact H. }
    rewrite Hc. apply join_normalized_dir; assumption.
Qed.

Lemma resolve_against_directories_witness :
  resolve build_root (lit "/build/pages" ++ SLASH :: lit "index.html")
    (SLASH :: lit "a.css")
  = build_root ++ SLASH :: lit "a.css"
  /\ resolve build_root (lit "/build/pages" ++ SLASH :: lit "index.html")
       (lit "a.css")
     = lit "/build/pages" ++ SLASH :: lit "a.css".
Proof.
  apply (resolve_against_directories build_root (lit "/build/pages")
           (lit "index.html") (lit "a.css")).
  - reflexivity.
  - reflexivity.
  - discriminate.
  - reflexivity.
  - reflexivity.
  - discriminate.
  - reflexivity.
  - reflexivity.
Defined.

(* ================================================================== *)
(** ** The attribute whose value a link or a script contributes *)

Lemma exec_Plus_run (p : N -> bool) (a b : str) :
  a <> [] ->
  forallb p a = true ->
  match b with c :: _ => p c = false | [] => True end ->
  exec (Plus p) (a ++ b) = Some (List.length a).
Proof.
  intros Ha Hall Hb. destruct a as [|c a]; [contradiction|].
  cbn [forallb] in Hall. apply andb_true_iff in Hall as [Hc Hall].
  unfold exec. cbn [rmatch app]. rewrite Hc.
  apply star_m_longest; [exact Hall|].
  destruct b as [|d b]; cbn [star_m]; [|rewrite Hb]; f_equal;
    cbn [List.length]; lia.
Qed.

Lemma tagWS_facts (c : N) :
  is_tagWS c = true ->
  is_name c = false /\ N.eqb SLASH c = false /\ N.eqb 62 c = false.
Proof.
  intros H.
  assert (Hc : (c = 9 \/ c = 124 \/ c = 10 \/ c = 11 \/ c = 12 \/ c = 13
                \/ c = 32 \/ 160 <= c)%N).
  { unfold is_tagWS in H.
    apply orb_true_iff in H as [H | H];
      [apply orb_true_iff in H as [H | H]; apply N.eqb_eq in H; lia|].
    space_cases H; lia. }
  unfold SLASH. split; [|split; apply N.eqb_neq; lia].
  destruct (is_name c) eqn:E; [exfalso | reflexivity].
  unfold is_name in E.
  repeat (apply orb_true_iff in E as [E | E]);
    first [ apply N.eqb_eq in E; lia
          | apply andb_true_iff in E as [E1 E2];
            apply N.leb_le in E1, E2; lia ].
Qed.

Lemma name_facts (c : N) :
  is_name c = true ->
  is_tagWS c = false /\ N.eqb SLASH c = false /\ N.eqb 62 c = false.
Proof.
  intros H.
  destruct (is_tagWS c) eqn:E.
  - apply tagWS_facts in E as [E _]. rewrite E in H. discriminate.
  - split; [reflexivity|].
    assert (Hc : (97 <= c <= 122 \/ 65 <= c <= 90 \/ c = 45)%N).
    { unfold is_name in H.
      repeat (apply orb_true_iff in H as [H | H]);
        first [ apply N.eqb_eq in H; lia
              | apply andb_true_iff in H as [H1 H2];
                apply N.leb_le in H1, H2; lia ]. }
    unfold SLASH. split; apply N.eqb_neq; lia.
Qed.

Lemma firstn_length_app (a b : str) : firstn (List.length a) (a ++ b) = a.
Proof.
  rewrite firstn_app, firstn_all, Nat.sub_diag. cbn [firstn]. apply app_nil_r.
Qed.

Lemma index_inside (buf : str) (i : nat) (c : N) (rest : str) :
  skipn i buf = c :: rest -> (i =? List.length buf) = false.
Proof.
  intros H. apply Nat.eqb_neq. intros ->. rewrite skipn_all in H.
  discriminate.
Qed.

(** Inside a tag, a run of white space before an attribute name is one
    tagWS token. *)
Lemma next_tagWS (buf : str) (i : nat) (stk : list state_name)
      (ws rest : str) (c : N) :
  ws <> [] ->
  forallb is_tagWS ws = true ->
  is_name c = true ->
  skipn i buf = ws ++ c :: rest ->
  next {| buffer := buf; index := i; state := tag; stack := stk |}
  = Ret (Some {| type := tagWS; value := ws; text := ws; offset := i;
                 lineBreaks := count_LF ws |},
         {| buffer := buf; index := i + List.length ws; state := tag;
            stack := stk |}).
Proof.
  intros Hws Hall Hc Hrest. unfold next. cbn [index buffer state stack].
  destruct ws as [|w ws]; [contradiction|].
  rewrite (index_inside buf i w (ws ++ c :: rest) Hrest), Hrest.
  pose proof Hall as Hw. cbn [forallb] in Hw.
  apply andb_true_iff in Hw as [Hw _].
  destruct (tagWS_facts w Hw) as (Hn & Hs & Hg).
  destruct (name_facts c Hc) as (Hcw & _ & _).
  cbn [rules first_match r_match].
  assert (E1 : exec (Chars (lit "/>")) ((w :: ws) ++ c :: rest) = None).
  { unfold exec. cbn [rmatch app lit list_ascii_of_string map startsWith].
    change (N_of_ascii "/") with SLASH. rewrite Hs. reflexivity. }
  assert (E2 : exec (Chars (lit ">")) ((w :: ws) ++ c :: rest) = None).
  { unfold exec. cbn [rmatch app lit list_ascii_of_string map startsWith].
    change (N_of_ascii ">") with 62%N. rewrite Hg. reflexivity. }
  assert (E3 : exec (Plus is_name) ((w :: ws) ++ c :: rest) = None).
  { unfold exec. cbn [rmatch app]. rewrite Hn. reflexivity. }
  rewrite E1, E2, E3.
  rewrite (exec_Plus_run is_tagWS (w :: ws) (c :: rest))
    by (discriminate || assumption).
  cbn [r_transition r_type r_value r_lineBreaks move].
  rewrite firstn_length_app. reflexivity.
Qed.

(** Inside a tag, a name before an equals sign is one attrName token, and
    the lexer enters the state of an attribute. *)
Lemma next_attrName (buf : str) (i : nat) (stk : list state_name)
      (name rest : str) :
  name <> [] ->
  forallb is_name name = true ->
  skipn i buf = name ++ lit "=" ++ rest ->
  next {| buffer := buf; index := i; state := tag; stack := stk |}
  = Ret (Some {| type := attrName; value := toLowerCase name; text := name;
                 offset := i; lineBreaks := 0 |},
         {| buffer := buf; index := i + List.length name; state := attr;
            stack := tag :: stk |}).
Proof.
  intros Hname Hall Hrest. unfold next. cbn [index buffer state stack].
  destruct name as [|c name]; [contradiction|].
  rewrite (index_inside buf i c (name ++ lit "=" ++ rest) Hrest), Hrest.
  pose proof Hall as Hc. cbn [forallb] in Hc.
  apply andb_true_iff in Hc as [Hc _].
  destruct (name_facts c Hc) as (_ & Hs & Hg).
  cbn [rules first_match r_match].
  assert (E1 : exec (Chars (lit "/>")) ((c :: name) ++ lit "=" ++ rest) = None).
  { unfold exec. cbn [rmatch app lit list_ascii_of_string map startsWith].
    change (N_of_ascii "/") with SLASH. rewrite Hs. reflexivity. }
  assert (E2 : exec (Chars (lit ">")) ((c :: name) ++ lit "=" ++ rest) = None).
  { unfold exec. cbn [rmatch app lit list_ascii_of_string map startsWith].
    change (N_of_ascii ">") with 62%N. rewrite Hg. reflexivity. }
  rewrite E1, E2.
  rewrite (exec_Plus_run is_name (c :: name) (lit "=" ++ rest))
    by (discriminate || assumption || reflexivity).
  cbn [r_transition r_type r_value r_lineBreaks move].
  rewrite firstn_length_app. reflexivity.
Qed.

(** In the state of an attribute, the equals sign is one attrAssignment
    token. *)
Lemma next_attrAssignment (buf : str) (i : nat) (stk : list state_name)
      (rest : str) :
  skipn i buf = lit "=" ++ rest ->
  next {| buffer := buf; index := i; state := attr; stack := stk |}
  = Ret (Some {| type := attrAssignment; value := lit "="; text := lit "=";
                 offset := i; lineBreaks := 0 |},
         {| buffer := buf; index := i + 1; state := attr; stack := stk |}).
Proof.
  intros Hrest. unfold next. cbn [index buffer state stack].
  rewrite (index_inside buf i _ rest Hrest), Hrest.
  cbn [rules first_match r_match].
  replace (exec (Chars (lit "=")) (lit "=" ++ rest)) with (Some 1)
    by (unfold exec; cbn; destruct rest; reflexivity).
  reflexivity.
Qed.

(** In the state of an attribute entered from a tag, a value in double
    quotes is one attrValue token, and the lexer is back in the tag. *)
Lemma next_attrValue (buf : str) (i : nat) (stk : list state_name)
      (v rest : str) :
  v <> [] ->
  forallb not_dq v = true ->
  skipn i buf = dq v ++ rest ->
  next {| buffer := buf; index := i; state := attr; stack := tag :: stk |}
  = Ret (Some {| type := attrValue; value := dq v; text := dq v;
                 offset := i; lineBreaks := 0 |},
         {| buffer := buf; index := i + List.length (dq v); state := tag;
            stack := stk |}).
Proof.
  intros Hv Hall Hrest. unfold next. cbn [index buffer state stack].
  rewrite (index_inside buf i DQ ((v ++ [DQ]) ++ rest) Hrest), Hrest.
  cbn [rules first_match r_match].
  change (exec (Chars (lit "=")) (dq v ++ rest)) with (@None nat).
  change (exec (One is_space) (dq v ++ rest)) with (@None nat).
  rewrite (exec_attrValue v rest Hv Hall).
  cbn [r_transition r_type r_value r_lineBreaks move].
  rewrite firstn_length_app, attrValue_value. reflexivity.
Qed.

Lemma strip_dq (v : str) :
  forallb not_dq v = true ->
  strip_trailing_dq (strip_leading_dq (dq v)) = v.
Proof.
  intros _. unfold dq, strip_leading_dq.
  change (N.eqb DQ DQ) with true. cbv iota.
  unfold strip_trailing_dq. rewrite rev_app_distr. cbn [rev app].
  change (N.eqb DQ DQ) with true. cbv iota. apply rev_involutive.
Qed.

Lemma skipn_more (buf : str) (i : nat) (a b : str) :
  skipn i buf = a ++ b -> skipn (i + List.length a) buf = b.
Proof.
  intros H. rewrite Nat.add_comm, <- skipn_skipn, H.
  rewrite skipn_app, skipn_all, Nat.sub_diag. reflexivity.
Qed.

(** Behind an opening tag, white space, a name, an equals sign and a value
    in double quotes: the two loops return the value without its quotes,
    whatever the name looked for. *)
Lemma attribute_after_first_attribute
        (buf : str) (i : nat) (stk : list state_name)
        (ws name v rest wanted : str) (fuel : nat) :
  ws <> [] -> forallb is_tagWS ws = true ->
  name <> [] -> forallb is_name name = true ->
  v <> [] -> forallb not_dq v = true ->
  skipn i buf = ws ++ name ++ lit "=" ++ dq v ++ rest ->
  3 <= fuel ->
  attribute_after fuel wanted
    {| buffer := buf; index := i; state := tag; stack := stk |}
  = Ret (v, {| buffer := buf;
               index := i + List.length ws + List.length name + 1
                        + List.length (dq v);
               state := tag; stack := stk |}).
Proof.
  intros Hws Hwsall Hname Hnall Hv Hvall Hrest Hfuel.
  destruct fuel as [|[|[|fuel]]]; try lia.
  destruct name as [|c name]; [contradiction|].
  pose proof Hnall as Hc. cbn [forallb] in Hc.
  apply andb_true_iff in Hc as [Hc _].
  pose proof (skipn_more _ _ _ _ Hrest) as Hrest1.
  pose proof (skipn_more _ _ _ _ Hrest1) as Hrest2.
  pose proof (skipn_more _ _ _ _ Hrest2) as Hrest3.
  assert (Hn1 := next_tagWS buf i stk ws (name ++ lit "=" ++ dq v ++ rest) c
                   Hws Hwsall Hc Hrest).
  assert (Hn2 := next_attrName buf (i + List.length ws) stk (c :: name)
                   (dq v ++ rest) Hname Hnall Hrest1).
  assert (Hn3 := next_attrAssignment buf
                   (i + List.length ws + List.length (c :: name))
                   (tag :: stk) (dq v ++ rest) Hrest2).
  assert (Hn4 := next_attrValue buf
                   (i + List.length ws + List.length (c :: name)
                    + List.length (lit "="))
                   stk v rest Hv Hvall Hrest3).
  change (List.length (lit "=")) with 1 in Hn4.
  unfold attribute_after. rewrite Hn1. cbn [bind seek_attrName type value].
  cbn [token_type_beq negb andb].
  destruct (negb (str_eqb ws wanted)).
  - (* the white space is not the name looked for: the loop reads on *)
    rewrite Hn2. cbn [bind seek_attrName type token_type_beq negb andb].
    rewrite Hn3. cbn [bind seek_attrValue type token_type_beq negb].
    rewrite Hn4. cbn [bind seek_attrValue type token_type_beq negb value].
    rewrite strip_dq by exact Hvall. reflexivity.
  - (* the loop stops at the white space; the second loop reads on *)
    cbn [bind]. rewrite Hn2. cbn [bind seek_attrValue type token_type_beq negb].
    rewrite Hn3. cbn [bind seek_attrValue type token_type_beq negb].
    rewrite Hn4. cbn [bind seek_attrValue type token_type_beq negb value].
    rewrite strip_dq by exact Hvall. reflexivity.
Qed.

(** X18. The two loops of scanHTML that look for the [href] of a link or the
    [src] of a script take the value of the first attribute of the tag,
    whatever the name of the attribute and whatever the name looked for:
    behind the opening tag, white space, a name, an equals sign and a value in
    double quotes give that value without its quotes, and the lexer is left
    behind the value. For a link the resolved value is added to the css set
    alone, for a script to the js set and to the entries, and the walk goes on
    with the token behind the value. *)
Theorem first_attribute_is_taken
        (buildDirectory file : str)
        (buf : str) (i : nat) (stk : list state_name)
        (ws name v rest wanted : str) (fuel : nat)
        (node : token) (acc : found) :
  ws <> [] -> forallb is_tagWS ws = true ->
  name <> [] -> forallb is_name name = true ->
  v <> [] -> forallb not_dq v = true ->
  skipn i buf = ws ++ name ++ lit "=" ++ dq v ++ rest ->
  3 <= fuel ->
  type node = tagOpen ->
  attribute_after fuel wanted
    {| buffer := buf; index := i; state := tag; stack := stk |}
  = Ret (v, {| buffer := buf;
               index := i + List.length ws + List.length name + 1
                        + List.length (dq v);
               state := tag; stack := stk |})
  /\ (value node = lit "<link" ->
      scan_tokens (S fuel) buildDirectory file (Some node)
        {| buffer := buf; index := i; state := tag; stack := stk |} acc
      = ('(nxt, html) <-
           next {| buffer := buf;
                   index := i + List.length ws + List.length name + 1
                            + List.length (dq v);
                   state := tag; stack := stk |} ;;
         scan_tokens fuel buildDirectory file nxt html
           {| allCSSImports :=
                add (allCSSImports acc) (resolve buildDirectory file v);
              allJSImports := allJSImports acc;
              entries := entries acc |}))
  /\ (value node = lit "<script" ->
      scan_tokens (S fuel) buildDirectory file (Some node)
        {| buffer := buf; index := i; state := tag; stack := stk |} acc
      = ('(nxt, html) <-
           next {| buffer := buf;
                   index := i + List.length ws + List.length name + 1
                            + List.length (dq v);
                   state := tag; stack := stk |} ;;
         scan_tokens fuel buildDirectory file nxt html
           {| allCSSImports := allCSSImports acc;
              allJSImports :=
                add (allJSImports acc) (resolve buildDirectory file v);
              entries := add (entries acc) (resolve buildDirectory file v) |})).
Proof.
  intros Hws Hwsall Hname Hnall Hv Hvall Hrest Hfuel Hty.
  assert (Ha : forall wanted',
             attribute_after fuel wanted'
               {| buffer := buf; index := i; state := tag; stack := stk |}
             = Ret (v, {| buffer := buf;
                          index := i + List.length ws + List.length name + 1
                                   + List.length (dq v);
                          state := tag; stack := stk |}))
    by (intros wanted';
        apply (attribute_after_first_attribute buf i stk ws name v rest);
        assumption).
  split; [apply Ha|]. split; intros Hval; cbn [scan_tokens];
    unfold is_tagOpen; rewrite Hty, Hval; cbn [token_type_beq andb].
  - change (str_eqb (lit "<link") (lit "<link")) with true.
    change (str_eqb (lit "<link") (lit "<script")) with false.
    cbv iota. rewrite Ha. reflexivity.
  - change (str_eqb (lit "<script") (lit "<link")) with false.
    change (str_eqb (lit "<script") (lit "<script")) with true.
    cbv iota. cbn [bind]. rewrite Ha. reflexivity.
Qed.

Lemma first_attribute_is_taken_witness :
  attribute_after 3 (lit "href")
    {| buffer := link_rel_href; index := 5; state := tag; stack := [main] |}
  = Ret (lit "stylesheet",
         {| buffer := link_rel_href;
            index := 5 + List.length (lit " ") + List.length (lit "rel") + 1
                     + List.length (dq (lit "stylesheet"));
            state := tag; stack := [main] |}).
Proof.
  apply (first_attribute_is_taken build_root index_html link_rel_href 5 [main]
           (lit " ") (lit "rel") (lit "stylesheet")
           (lit " href=" ++ dq (lit "/a.css") ++ lit ">") (lit "href") 3
           {| type := tagOpen; value := lit "<link"; text := lit "<link";
              offset := 0; lineBreaks := 0 |}
           {| allCSSImports := []; allJSImports := []; entries := [] |}).
  - discriminate.
  - reflexivity.
  - discriminate.
  - reflexivity.
  - discriminate.
  - reflexivity.
  - reflexivity.
  - lia.
  - reflexivity.
Defined.

(* ================================================================== *)
(** ** Text in the main state *)

(** X19. In the main state, text takes the rest of its line: when the next
    code unit is no line terminator, no [<], and none of tab, vertical bar and
    space, the token is of type any and runs to the next line terminator or to
    the end of the document. Whatever follows the first code unit on the line
    is part of the token, tags included, so a tag behind text on the same line
    gets no token of its own. *)
Theorem text_takes_the_line
        (buf : str) (i : nat) (stk : list state_name)
        (c : N) (line rest : str) :
  dot c = true ->
  c <> 60%N ->
  is_indent c = false ->
  forallb dot line = true ->
  match rest with d :: _ => dot d = false | [] => True end ->
  skipn i buf = (c :: line) ++ rest ->
  next {| buffer := buf; index := i; state := main; stack := stk |}
  = Ret (Some {| type := any; value := c :: line; text := c :: line;
                 offset := i; lineBreaks := count_LF (c :: line) |},
         {| buffer := buf; index := i + List.length (c :: line);
            state := main; stack := stk |}).
Proof.
  intros Hdot Hlt Hind Hline Hrest Hskip.
  unfold next. cbn [index buffer state stack].
  rewrite (index_inside buf i c (line ++ rest) Hskip), Hskip.
  assert (Hc : N.eqb 60 c = false) by (apply N.eqb_neq; congruence).
  assert (Hcr : N.eqb CR c = false /\ N.eqb LF c = false).
  { unfold dot, is_line_terminator in Hdot. apply negb_true_iff in Hdot.
    repeat (apply orb_false_iff in Hdot as [Hdot ?]).
    split; rewrite N.eqb_sym; assumption. }
  destruct Hcr as [Hcr Hlf].
  cbn [rules first_match r_match].
  assert (E1 : exec (Chars (lit "<!--")) ((c :: line) ++ rest) = None).
  { unfold exec. cbn [rmatch app lit list_ascii_of_string map startsWith].
    change (N_of_ascii "<") with 60%N. rewrite Hc. reflexivity. }
  assert (E2 : exec (Cat (Chars (lit "<!")) (Cat (Plus not_gt) (Chars (lit ">"))))
                 ((c :: line) ++ rest) = None).
  { unfold exec. cbn [rmatch app lit list_ascii_of_string map startsWith].
    change (N_of_ascii "<") with 60%N. rewrite Hc. reflexivity. }
  assert (E3 : exec (Cat (Chars (lit "<")) (Cat (Star is_space) (Plus is_name)))
                 ((c :: line) ++ rest) = None).
  { unfold exec. cbn [rmatch app lit list_ascii_of_string map startsWith].
    change (N_of_ascii "<") with 60%N. rewrite Hc. reflexivity. }
  assert (E4 : exec (Cat (Chars (lit "</"))
                       (Cat (Star is_space)
                          (Cat (Plus is_name)
                             (Cat (Star is_space) (Chars (lit ">"))))))
                 ((c :: line) ++ rest) = None).
  { unfold exec. cbn [rmatch app lit list_ascii_of_string map startsWith].
    change (N_of_ascii "<") with 60%N. rewrite Hc. reflexivity. }
  assert (E5 : exec (Cat (Opt (Chars [CR])) (Chars [LF]))
                 ((c :: line) ++ rest) = None).
  { unfold exec. cbn [rmatch app startsWith]. rewrite Hcr, Hlf. reflexivity. }
  assert (E6 : exec (Plus is_indent) ((c :: line) ++ rest) = None).
  { unfold exec. cbn [rmatch app]. rewrite Hind. reflexivity. }
  rewrite E1, E2, E3, E4, E5, E6.
  rewrite (exec_Plus_run dot (c :: line) rest);
    [ | discriminate | cbn [forallb]; rewrite Hdot; exact Hline | exact Hrest ].
  cbn [r_transition r_type r_value r_lineBreaks move].
  rewrite firstn_length_app. reflexivity.
Qed.

Lemma text_takes_the_line_witness :
  next {| buffer := lit "<head><title>x</title></head>"; index := 13;
          state := main; stack := [] |}
  = Ret (Some {| type := any; value := lit "x</title></head>";
                 text := lit "x</title></head>"; offset := 13;
                 lineBreaks := count_LF (lit "x</title></head>") |},
         {| buffer := lit "<head><title>x</title></head>";
            index := 13 + List.length (lit "x</title></head>");
            state := main; stack := [] |}).
Proof.
  apply (text_takes_the_line (lit "<head><title>x</title></head>") 13 []
           120%N (lit "</title></head>") []).
  - reflexivity.
  - discriminate.
  - reflexivity.
  - reflexivity.
  - exact I.
  - reflexivity.
Defined.
